(** * mcp-rag: the retrieval pipeline, embedded and verified

    A shallow embedding of the TypeScript sources of the retrieval pipeline
    (chunker, embedding client, vector-store adapter, orchestrator) and the
    properties of its specification.

    Conventions of the embedding.
    - A JavaScript string is the list of its UTF-16 code units.
    - Integral JavaScript numbers (sizes, counts, indices, limits) are [Z].
    - Similarity scores and thresholds, which reach the code as finite JSON
      numbers and are only compared, are rationals [Q].
    - Embedding components, on which the code computes, are IEEE-754 binary64
      numbers ([PrimFloat.float]); the cosine similarity is written once over
      an arithmetic interface and read at binary64 and at the real numbers.
    - [await]ed calls to the two remote collaborators (the embedding provider
      and the vector index) are calls of an interface, threading the state of
      the collaborator; [throw] is the left injection of a sum.
    - Logging is not modelled. *)

From Stdlib Require Import String Ascii Bool Arith ZArith NArith QArith Lia List.
From Stdlib Require Import PrimFloat Reals Lra.
From Stdlib Require Import Sorted Permutation SpecFloat FloatAxioms.
Import ListNotations.
Close Scope R_scope.
Close Scope Q_scope.
Open Scope nat_scope.

Set Implicit Arguments.

(* ================================================================== *)
(** * JavaScript values *)

Module JS.

(** A UTF-16 code unit. *)
Definition char := N.

(** A JavaScript string. *)
Definition jsstring := list char.

(** The JavaScript string of an ASCII literal. *)
Definition str (s : string) : jsstring :=
  map N_of_ascii (list_ascii_of_string s).

(** [s.length] *)
Definition len (s : jsstring) : Z := Z.of_nat (length s).

(** A string in a boolean position: the empty string is falsy. *)
Definition truthy (s : jsstring) : bool :=
  match s with [] => false | _ :: _ => true end.

(** The code units [String.prototype.trim] removes: WhiteSpace and
    LineTerminator of ECMA-262. *)
Definition whiteSpaceUnits : list N :=
  [ 9; 10; 11; 12; 13; 32; 160; 5760;
    8192; 8193; 8194; 8195; 8196; 8197; 8198; 8199; 8200; 8201; 8202;
    8232; 8233; 8239; 8287; 12288; 65279 ]%N.

Definition isWhiteSpace (c : char) : bool :=
  existsb (N.eqb c) whiteSpaceUnits.

Fixpoint dropWhile {A} (p : A -> bool) (l : list A) : list A :=
  match l with
  | [] => []
  | x :: l' => if p x then dropWhile p l' else l
  end.

Definition trimStart (s : jsstring) : jsstring := dropWhile isWhiteSpace s.
Definition trimEnd (s : jsstring) : jsstring :=
  rev (dropWhile isWhiteSpace (rev s)).

(** [s.trim()] *)
Definition trim (s : jsstring) : jsstring := trimEnd (trimStart s).

(** [s.slice(start)], for an integral [start]: a negative [start] counts
    from the end, and both ends are clamped. *)
Definition slice (s : jsstring) (start : Z) : jsstring :=
  let from := if (start <? 0)%Z then Z.max (len s + start) 0
              else Z.min start (len s) in
  skipn (Z.to_nat from) s.

(** [a.slice(i, i + n)] on an array, for naturals [i] and [n]. *)
Definition sliceArray {A} (a : list A) (i n : nat) : list A :=
  firstn n (skipn i a).

(** [strs.join(sep)] *)
Fixpoint join (sep : jsstring) (strs : list jsstring) : jsstring :=
  match strs with
  | [] => []
  | [s] => s
  | s :: rest => s ++ sep ++ join sep rest
  end.

(** [x || d] on an optional integral number: [undefined] and [0] are
    falsy. *)
Definition orZ (x : option Z) (d : Z) : Z :=
  match x with
  | Some v => if (v =? 0)%Z then d else v
  | None => d
  end.

(** [x || d] on an optional finite number. *)
Definition orQ (x : option Q) (d : Q) : Q :=
  match x with
  | Some v => if Qeq_bool v 0 then d else v
  | None => d
  end.

(** [s starts with p] *)
Fixpoint startsWith (s p : jsstring) : bool :=
  match p, s with
  | [], _ => true
  | _ :: _, [] => false
  | a :: p', b :: s' => N.eqb a b && startsWith s' p'
  end.

End JS.

(* ================================================================== *)
(** * Configuration (config/index.ts)

    Every value is read from the environment at start-up, so it is a
    parameter of the development. *)

Record Config := {
  CHUNK_SIZE : Z;
  CHUNK_OVERLAP : Z;
  EMBEDDING_DIMENSION : Z
}.

(** The defaults of config/index.ts. *)
Definition defaultConfig : Config :=
  {| CHUNK_SIZE := 1000; CHUNK_OVERLAP := 200; EMBEDDING_DIMENSION := 384 |}.

(* ================================================================== *)
(** * Errors

    [new Error(message)], and the wrapping [new Error(`${prefix}: ${error}`)]
    that the layers apply to what they catch. *)

Inductive Error :=
| Err (message : string)
| ApiRequestFailed (status : Z)
| ApiError (status : option Z) (statusText : option string)
| Raised (what : string)
| Wrap (prefix : string) (cause : Error).

(** How a call ends: it returns, it throws, or it does not end. *)
Inductive Result (A : Type) :=
| Returned (a : A)
| Thrown (e : Error)
| Diverged.
Arguments Returned {A} a.
Arguments Thrown {A} e.
Arguments Diverged {A}.

(** An asynchronous computation on the state [St] of its collaborators. *)
Definition M (St A : Type) : Type := St -> Result A * St.

Definition ret {St A} (a : A) : M St A := fun st => (Returned a, st).
Definition throw {St A} (e : Error) : M St A := fun st => (Thrown e, st).
Definition bind {St A B} (m : M St A) (k : A -> M St B) : M St B :=
  fun st =>
    match m st with
    | (Returned a, st') => k a st'
    | (Thrown e, st') => (Thrown e, st')
    | (Diverged, st') => (Diverged, st')
    end.
(** [try { m } catch (error) { h error }] *)
Definition tryCatch {St A} (m : M St A) (h : Error -> M St A) : M St A :=
  fun st =>
    match m st with
    | (Thrown e, st') => h e st'
    | other => other
    end.

Declare Scope js_scope.
Delimit Scope js_scope with js.
Notation "x <- m ;; k" := (bind m (fun x => k))
  (at level 61, m at next level, right associativity) : js_scope.
Notation "m ;;; k" := (bind m (fun _ => k))
  (at level 61, right associativity) : js_scope.

(* ================================================================== *)
(** * utils/fileProcessor.ts *)

Module FileProcessor.
Import JS.

Record FileInfo := {
  fi_filename : jsstring;
  fi_path : jsstring;
  fi_size : Z;
  fi_type : jsstring;
  fi_lastModified : Z;
  fi_chunks : Z
}.

Record ProcessingOptions := {
  chunkSize : option Z;
  chunkOverlap : option Z
}.

Record ChunkMetadata := {
  source : jsstring;
  filename : jsstring;
  chunkIndex : Z;
  totalChunks : Z;
  timestamp : jsstring;
  fileType : jsstring;
  size : Z
}.

Record DocumentChunk := {
  id : jsstring;
  content : jsstring;
  metadata : ChunkMetadata
}.

(** What [uuidv4()] and [new Date().toISOString()] answer at their n-th
    call of one [createChunks]. *)
Record Runtime := {
  uuidv4 : nat -> jsstring;
  toISOString : nat -> jsstring
}.

(** The class [[.!?]] of the splitting pattern. *)
Definition isTerminator (c : char) : bool :=
  existsb (N.eqb c) [46; 33; 63]%N.

(** [text.split(/[.!?]+/)]: the pieces between the maximal runs of
    terminators; [inRun] tells that the previous unit was a terminator. *)
Fixpoint splitRuns (inRun : bool) (text : jsstring) : list jsstring :=
  match text with
  | [] => [[]]
  | c :: rest =>
      if isTerminator c then
        if inRun then splitRuns true rest else [] :: splitRuns true rest
      else
        match splitRuns false rest with
        | piece :: pieces => (c :: piece) :: pieces
        | [] => [[c]]
        end
  end.

Definition split (text : jsstring) : list jsstring := splitRuns false text.

Definition splitIntoSentences (text : jsstring) : list jsstring :=
  filter (fun s => (len s >? 0)%Z) (map trim (split text)).

Definition getOverlapText (text : jsstring) (overlapSize : Z) : jsstring :=
  if (len text <=? overlapSize)%Z then text
  else slice text (- overlapSize).

(** [n] is the number of chunk objects created before this one. *)
Definition createChunkObject (rt : Runtime) (n : nat)
    (content : jsstring) (fileInfo : FileInfo)
    (chunkIndex totalChunks : Z) : DocumentChunk :=
  {| id := uuidv4 rt n;
     content := content;
     metadata :=
       {| source := fi_path fileInfo;
          filename := fi_filename fileInfo;
          chunkIndex := chunkIndex;
          totalChunks := totalChunks;
          timestamp := toISOString rt n;
          fileType := fi_type fileInfo;
          size := fi_size fileInfo |} |}.

(** The variables of the loop of [createChunks]. *)
Record Loop := {
  chunks : list DocumentChunk;
  currentChunk : jsstring;
  index : Z
}.

(** [chunks.length] *)
Definition count (l : list DocumentChunk) : Z := Z.of_nat (length l).

(** One iteration of the loop, on [sentence]. *)
Definition step (rt : Runtime) (fileInfo : FileInfo)
    (chunkSize chunkOverlap : Z) (st : Loop) (sentence : jsstring) : Loop :=
  let cur := currentChunk st in
  if truthy sentence
     && (len cur + len sentence >? chunkSize)%Z
     && (len cur >? 0)%Z
  then
    {| chunks := chunks st ++
                 [createChunkObject rt (length (chunks st)) (trim cur)
                    fileInfo (index st) (count (chunks st) + 1)];
       currentChunk := getOverlapText cur chunkOverlap ++ sentence;
       index := (index st + 1)%Z |}
  else
    {| chunks := chunks st;
       currentChunk := cur ++ (if truthy cur then str " " else []) ++ sentence;
       index := index st |}.

(** What is emitted after the loop. *)
Definition finish (rt : Runtime) (fileInfo : FileInfo) (st : Loop)
    : list DocumentChunk :=
  if (len (trim (currentChunk st)) >? 0)%Z then
    chunks st ++
    [createChunkObject rt (length (chunks st)) (trim (currentChunk st))
       fileInfo (index st) (count (chunks st) + 1)]
  else chunks st.

Definition createChunks (cfg : Config) (rt : Runtime)
    (content : jsstring) (fileInfo : FileInfo)
    (options : ProcessingOptions) : list DocumentChunk :=
  let chunkSize := orZ (chunkSize options) (CHUNK_SIZE cfg) in
  let chunkOverlap := orZ (chunkOverlap options) (CHUNK_OVERLAP cfg) in
  let sentences := splitIntoSentences content in
  finish rt fileInfo
    (fold_left (step rt fileInfo chunkSize chunkOverlap) sentences
       {| chunks := []; currentChunk := []; index := 0 |}).

End FileProcessor.

(* ================================================================== *)
(** * services/embeddingService.ts *)

Module EmbeddingService.
Import JS.

(** An embedding, [number[]]. *)
Definition vector := list float.

(** An element of the provider's answer, as far as the code inspects it:
    an array (whose elements it never looks at) or something else. *)
Inductive Item :=
| ItemArray (elems : list float)
| ItemOther.

(** [response.data] *)
Inductive ResponseData :=
| DataArray (items : list Item)
| DataOther.

(** How [axios.post] ends: a response, an axios error carrying (or not)
    the response's status, or any other exception. *)
Inductive Outcome :=
| Response (status : Z) (data : ResponseData)
| AxiosError (status : option Z) (statusText : option string)
| Failure (what : string).

(** The embedding provider and the clock, with their state [W]. *)
Class Provider (W : Type) := {
  post : list jsstring -> W -> Outcome * W;
  setTimeout : Z -> W -> W
}.

Section Service.
Context {W : Type} `{Provider W}.
Variable cfg : Config.

(** [await new Promise(resolve => setTimeout(resolve, ms))] *)
Definition sleep (ms : Z) : M W unit :=
  fun w => (Returned tt, setTimeout ms w).

Definition isValid (embedding : Item) : bool :=
  match embedding with
  | ItemArray elems =>
      (Z.of_nat (length elems) =? EMBEDDING_DIMENSION cfg)%Z
  | ItemOther => false
  end.

(** [embeddings.filter(...)], read at the type [number[][]] the method
    declares. *)
Fixpoint validEmbeddings (embeddings : list Item) : list vector :=
  match embeddings with
  | [] => []
  | embedding :: rest =>
      if isValid embedding then
        match embedding with
        | ItemArray elems => elems :: validEmbeddings rest
        | ItemOther => validEmbeddings rest
        end
      else validEmbeddings rest
  end.

(** The [catch] of [generateEmbeddings] on an axios error. *)
Definition classify (status : option Z) (statusText : option string)
    : Error :=
  match status with
  | Some 401%Z => Err "Invalid Hugging Face API key"
  | Some 429%Z => Err "Rate limit exceeded. Please try again later."
  | Some 503%Z =>
      Err "Model is currently loading. Please try again in a few moments."
  | _ => ApiError status statusText
  end.

Definition generateEmbeddings (texts : list jsstring)
    : M W (list vector) :=
  fun w =>
    match texts with
    | [] => (Returned [], w)
    | _ :: _ =>
        let (outcome, w') := post texts w in
        match outcome with
        | Response status data =>
            if negb (status =? 200)%Z then
              (Thrown (Wrap "Failed to generate embeddings"
                         (ApiRequestFailed status)), w')
            else
              match data with
              | DataArray embeddings =>
                  (Returned (validEmbeddings embeddings), w')
              | DataOther =>
                  (Thrown (Wrap "Failed to generate embeddings"
                             (Err "Invalid embeddings response format")),
                   w')
              end
        | AxiosError status statusText =>
            (Thrown (classify status statusText), w')
        | Failure what =>
            (Thrown (Wrap "Failed to generate embeddings" (Raised what)),
             w')
        end
    end.

(** [embeddings[0] || []]: an array, even an empty one, is truthy. *)
Definition generateSingleEmbedding (text : jsstring) : M W vector :=
  (embeddings <- generateEmbeddings [text] ;;
   ret (match nth_error embeddings 0 with
        | Some embedding => embedding
        | None => []
        end))%js.

Definition generateQueryEmbedding (query : jsstring) : M W vector :=
  generateSingleEmbedding query.

(** The [while (retries < maxRetries && !success)] loop on one batch.
    [attempts] is [maxRetries - retries] at the test of the loop, the
    quantity that decreases; [more] is [i + batchSize < texts.length].
    [None]: the body was never run, nothing was pushed. *)
Fixpoint retryLoop (maxRetries : nat) (more : bool)
    (batch : list jsstring) (attempts : nat)
    : M W (option (list vector)) :=
  match attempts with
  | O => ret None
  | S attempts' =>
      tryCatch
        (batchEmbeddings <- generateEmbeddings batch ;;
         (if more then sleep 1000 else ret tt) ;;;
         ret (Some batchEmbeddings))%js
        (fun error =>
           let retries := maxRetries - attempts' in
           if maxRetries <=? retries then throw error
           else
             (sleep (2 ^ Z.of_nat retries * 1000) ;;;
              retryLoop maxRetries more batch attempts')%js)
  end.

(** The [for (let i = 0; i < texts.length; i += batchSize)] loop, run
    for at most [fuel] iterations. *)
Fixpoint batchLoop (texts : list jsstring) (batchSize maxRetries : nat)
    (fuel i : nat) (allEmbeddings : list vector)
    : M W (list vector) :=
  if i <? length texts then
    match fuel with
    | O => fun w => (Diverged, w)
    | S fuel' =>
        let batch := sliceArray texts i batchSize in
        (pushed <- retryLoop maxRetries (i + batchSize <? length texts)
                     batch maxRetries ;;
         batchLoop texts batchSize maxRetries fuel' (i + batchSize)
           (allEmbeddings ++
            match pushed with Some e => e | None => [] end))%js
    end
  else ret allEmbeddings.

(** With [batchSize >= 1] the loop ends within [texts.length]
    iterations; with [batchSize = 0] on a non-empty input it never ends
    (see [batchLoop_zero_diverges]). *)
Definition generateEmbeddingsBatch (texts : list jsstring)
    (batchSize maxRetries : nat) : M W (list vector) :=
  batchLoop texts batchSize maxRetries (length texts) 0 [].

Definition testConnection : M W bool :=
  tryCatch
    (testEmbedding <- generateSingleEmbedding (str "test") ;;
     ret (Z.of_nat (length testEmbedding) =? EMBEDDING_DIMENSION cfg)%Z)%js
    (fun _ => ret false).

End Service.

(** ** Cosine similarity, over the arithmetic of [number] *)

Class Arith (num : Type) := {
  zero : num;
  add : num -> num -> num;
  mul : num -> num -> num;
  div : num -> num -> num;
  sqrt : num -> num;
  (** [x === 0] *)
  isZero : num -> bool
}.

Section Cosine.
Context {num : Type} `{Arith num}.

(** The three accumulators after the [for] loop. *)
Definition accumulate (embedding1 embedding2 : list num)
    : num * num * num :=
  fold_left
    (fun acc xy =>
       let '(dotProduct, norm1, norm2) := acc in
       let '(x, y) := xy in
       (add dotProduct (mul x y), add norm1 (mul x x),
        add norm2 (mul y y)))
    (combine embedding1 embedding2) (zero, zero, zero).

Definition calculateCosineSimilarity (embedding1 embedding2 : list num)
    : Error + num :=
  if negb (length embedding1 =? length embedding2) then
    inl (Err "Embeddings must have the same dimension")
  else
    let '(dotProduct, norm1, norm2) := accumulate embedding1 embedding2 in
    let norm1 := sqrt norm1 in
    let norm2 := sqrt norm2 in
    if isZero norm1 || isZero norm2 then inr zero
    else inr (div dotProduct (mul norm1 norm2)).

End Cosine.

(** JavaScript's [number]: IEEE-754 binary64. *)
#[export] Instance binary64 : Arith float := {|
  zero := PrimFloat.zero;
  add := PrimFloat.add;
  mul := PrimFloat.mul;
  div := PrimFloat.div;
  sqrt := PrimFloat.sqrt;
  isZero := fun x => PrimFloat.eqb x PrimFloat.zero
|}.

(** Exact arithmetic. *)
#[export] Instance exactReals : Arith R := {|
  zero := 0%R;
  add := Rplus;
  mul := Rmult;
  div := Rdiv;
  sqrt := R_sqrt.sqrt;
  isZero := fun x => if Req_dec_T x 0%R then true else false
|}.

(** ** A scripted provider

    It answers its n-th request with the n-th outcome of a script, and
    records the requests and the waits. *)
Record Scripted := {
  script : list Outcome;
  posts : list (list jsstring);
  waits : list Z
}.

#[export] Instance scripted : Provider Scripted := {|
  post := fun texts w =>
    match script w with
    | outcome :: rest =>
        (outcome,
         {| script := rest; posts := posts w ++ [texts];
            waits := waits w |})
    | [] =>
        (Failure "no answer",
         {| script := []; posts := posts w ++ [texts]; waits := waits w |})
    end;
  setTimeout := fun ms w =>
    {| script := script w; posts := posts w; waits := waits w ++ [ms] |}
|}.

Definition playing (outcomes : list Outcome) : Scripted :=
  {| script := outcomes; posts := []; waits := [] |}.

End EmbeddingService.

(* ================================================================== *)
(** * services/vectorDatabase.ts *)

Module VectorDatabase.
Import JS FileProcessor EmbeddingService.

(** A metadata value. *)
Inductive MetaValue :=
| MString (s : jsstring)
| MNumber (z : Z)
| MStrings (l : list jsstring).

(** A metadata object, [Record<string, any>]: its properties in order. *)
Definition Metadata := list (string * MetaValue).

Fixpoint get (key : string) (o : Metadata) : option MetaValue :=
  match o with
  | [] => None
  | (k, v) :: rest => if String.eqb k key then Some v else get key rest
  end.

(** [{ ...o, key: v }]: an own property keeps its place and takes the new
    value, a new one comes last. *)
Fixpoint set (key : string) (v : MetaValue) (o : Metadata) : Metadata :=
  match o with
  | [] => [(key, v)]
  | (k, v') :: rest =>
      if String.eqb k key then (k, v) :: rest
      else (k, v') :: set key v rest
  end.

(** A metadata value in a boolean position. *)
Definition truthyValue (v : MetaValue) : bool :=
  match v with
  | MString s => truthy s
  | MNumber z => negb (z =? 0)%Z
  | MStrings _ => true
  end.

(** A record of an upsert; [values] is absent when the expression that
    gives it is [undefined]. *)
Record VectorRecord := {
  vr_id : jsstring;
  values : option vector;
  vr_metadata : Metadata
}.

Record QueryRequest := {
  q_vector : vector;
  topK : Z;
  includeMetadata : bool;
  q_filter : option Metadata
}.

Record Match := {
  m_id : jsstring;
  m_score : option Q;
  m_metadata : option Metadata
}.

Record QueryResponse := { matches : option (list Match) }.

Record IndexStats := { totalVectorCount : option Z }.

(** [this.filesIndex] and [this.memoryIndex]. *)
Inductive IndexName := filesIndex | memoryIndex.

(** The vector index provider, with its state [S]. *)
Class VectorIndex (S : Type) := {
  describeIndexStats : IndexName -> M S IndexStats;
  query : IndexName -> QueryRequest -> M S QueryResponse;
  upsert : IndexName -> list VectorRecord -> M S unit;
  deleteMany : IndexName -> list jsstring -> M S unit;
  deleteOne : IndexName -> jsstring -> M S unit
}.

Record SearchOptions := {
  limit : option Z;
  threshold : option Q;
  filter : option Metadata
}.

Record SearchResult := {
  sr_id : jsstring;
  sr_content : MetaValue;
  sr_metadata : Metadata;
  score : Q
}.

Record Stats := {
  documents : Z;
  memory : Z;
  total : Z
}.

Inductive CollectionName := files | memoryCollection.

(** A call of the embedding service, and a call of the index, inside the
    adapter. *)
Definition onProvider {W S A} (m : M W A) : M (W * S) A :=
  fun st => let (r, w') := m (fst st) in (r, (w', snd st)).
Definition onIndex {W S A} (m : M S A) : M (W * S) A :=
  fun st => let (r, s') := m (snd st) in (r, (fst st, s')).

(** [chunk.metadata] as the properties of an object. *)
Definition chunkMetadata (m : ChunkMetadata) : Metadata :=
  [ ("source"%string, MString (source m));
    ("filename"%string, MString (filename m));
    ("chunkIndex"%string, MNumber (chunkIndex m));
    ("totalChunks"%string, MNumber (totalChunks m));
    ("timestamp"%string, MString (timestamp m));
    ("fileType"%string, MString (fileType m));
    ("size"%string, MNumber (size m)) ].

(** [chunks.map((chunk, index) => ...)] of [addDocuments]; [index] is the
    position of the head of [chunks]. *)
Fixpoint toRecords (embeddings : list vector) (index : nat)
    (chunks : list DocumentChunk) : list VectorRecord :=
  match chunks with
  | [] => []
  | chunk :: rest =>
      {| vr_id := id chunk;
         values := nth_error embeddings index;
         vr_metadata :=
           set "content" (MString (content chunk))
             (set "type" (MString (str "document"))
                (chunkMetadata (metadata chunk))) |}
      :: toRecords embeddings (S index) rest
  end.

Record MemoryMetadata := {
  agentId : jsstring;
  sessionId : jsstring;
  mm_timestamp : jsstring;
  category : jsstring;
  importance : Z;
  tags : list jsstring
}.

Record MemoryEntry := {
  me_id : jsstring;
  me_content : jsstring;
  me_metadata : MemoryMetadata
}.

(** [entry.metadata] as the properties of an object. *)
Definition memoryMetadata (m : MemoryMetadata) : Metadata :=
  [ ("agentId"%string, MString (agentId m));
    ("sessionId"%string, MString (sessionId m));
    ("timestamp"%string, MString (mm_timestamp m));
    ("category"%string, MString (category m));
    ("importance"%string, MNumber (importance m));
    ("tags"%string, MStrings (tags m)) ].

(** The record [addMemory] upserts. *)
Definition memoryRecord (entry : MemoryEntry) (embedding : vector)
    : VectorRecord :=
  {| vr_id := me_id entry;
     values := Some embedding;
     vr_metadata :=
       set "content" (MString (me_content entry))
         (set "type" (MString (str "memory"))
            (memoryMetadata (me_metadata entry))) |}.

(** The loop over [results.matches] of the two searches. *)
Fixpoint collect (threshold : Q) (ms : list Match) : list SearchResult :=
  match ms with
  | [] => []
  | m :: rest =>
      let score := orQ (m_score m) 0 in
      match m_metadata m with
      | Some md =>
          if Qle_bool threshold score then
            {| sr_id := m_id m;
               sr_content :=
                 match get "content" md with
                 | Some v => if truthyValue v then v else MString []
                 | None => MString []
                 end;
               sr_metadata := md;
               score := score |} :: collect threshold rest
          else collect threshold rest
      | None => collect threshold rest
      end
  end.

Section Adapter.
Context {W S : Type} `{Provider W} `{VectorIndex S}.
Variable cfg : Config.

Definition addDocuments (chunks : list DocumentChunk) : M (W * S) unit :=
  match chunks with
  | [] => ret tt
  | _ :: _ =>
      tryCatch
        (let texts := map content chunks in
         embeddings <- onProvider
                         (generateEmbeddingsBatch cfg texts 10 3) ;;
         let vectors := toRecords embeddings 0 chunks in
         onIndex (upsert filesIndex vectors))%js
        (fun error =>
           throw (Wrap "Failed to add documents to vector database"
                    error))
  end.

Definition addMemory (entry : MemoryEntry) : M (W * S) unit :=
  tryCatch
    (embedding <- onProvider (generateSingleEmbedding cfg (me_content entry)) ;;
     onIndex (upsert memoryIndex [memoryRecord entry embedding]))%js
    (fun error => throw (Wrap "Failed to add memory entry" error)).

(** The body that [searchDocuments] and [searchMemory] share, on their
    respective index. *)
Definition search (index : IndexName) (failure : string)
    (q : jsstring) (options : SearchOptions)
    : M (W * S) (list SearchResult) :=
  tryCatch
    (let limit := orZ (limit options) 10 in
     let threshold := orQ (threshold options) (7 # 10) in
     queryEmbedding <- onProvider (generateQueryEmbedding cfg q) ;;
     results <- onIndex
                  (query index
                     {| q_vector := queryEmbedding;
                        topK := limit;
                        includeMetadata := true;
                        q_filter := filter options |}) ;;
     ret (match matches results with
          | Some ms => collect threshold ms
          | None => []
          end))%js
    (fun error => throw (Wrap failure error)).

Definition searchDocuments := search filesIndex "Failed to search documents".
Definition searchMemory := search memoryIndex "Failed to search memory".

Definition countOf (index : IndexName) : M S Z :=
  tryCatch
    (stats <- describeIndexStats index ;;
     ret (orZ (totalVectorCount stats) 0))%js
    (fun _ => ret 0%Z).

Definition getDocumentCount : M S Z := countOf filesIndex.
Definition getMemoryCount : M S Z := countOf memoryIndex.

Definition getCollectionStats : M S Stats :=
  tryCatch
    (docCount <- getDocumentCount ;;
     memCount <- getMemoryCount ;;
     ret {| documents := docCount;
            memory := memCount;
            total := (docCount + memCount)%Z |})%js
    (fun _ => ret {| documents := 0; memory := 0; total := 0 |}).

(** The body selects the index and logs; it calls nothing. *)
Definition clearCollection (collectionName : CollectionName) : M S unit :=
  tryCatch
    (let index := match collectionName with
                  | files => filesIndex
                  | memoryCollection => memoryIndex
                  end in
     ret tt)
    (fun error => throw (Wrap "Failed to clear collection" error)).

End Adapter.

(** ** An in-memory index

    Each of its two indexes is reachable or not, holds the records
    upserted so far, and scores a record by a fixed table; a query returns
    the first [topK] records, whatever the vector and the filter. *)
Record FakeIndex := {
  reachable : bool;
  stored : list VectorRecord;
  scoring : VectorRecord -> option Q
}.

Record FakeStore := {
  fakeFiles : FakeIndex;
  fakeMemory : FakeIndex
}.

Definition indexOf (name : IndexName) (s : FakeStore) : FakeIndex :=
  match name with filesIndex => fakeFiles s | memoryIndex => fakeMemory s end.

Definition withIndex (name : IndexName) (ix : FakeIndex) (s : FakeStore)
    : FakeStore :=
  match name with
  | filesIndex => {| fakeFiles := ix; fakeMemory := fakeMemory s |}
  | memoryIndex => {| fakeFiles := fakeFiles s; fakeMemory := ix |}
  end.

Definition eqStr (a b : jsstring) : bool :=
  if list_eq_dec N.eq_dec a b then true else false.

Fixpoint put (r : VectorRecord) (l : list VectorRecord) : list VectorRecord :=
  match l with
  | [] => [r]
  | r' :: rest =>
      if eqStr (vr_id r') (vr_id r) then r :: rest else r' :: put r rest
  end.

Definition fakeCall {A} (name : IndexName)
    (f : FakeIndex -> A * FakeIndex) : M FakeStore A :=
  fun s =>
    let ix := indexOf name s in
    if reachable ix then
      let (a, ix') := f ix in (Returned a, withIndex name ix' s)
    else (Thrown (Raised "index unreachable"), s).

#[export] Instance fake : VectorIndex FakeStore := {|
  describeIndexStats := fun name =>
    fakeCall name (fun ix =>
      ({| totalVectorCount := Some (Z.of_nat (length (stored ix))) |}, ix));
  query := fun name request s =>
    if (topK request <? 0)%Z then (Thrown (Raised "invalid topK"), s)
    else
      fakeCall name (fun ix =>
        ({| matches :=
              Some (map (fun r => {| m_id := vr_id r;
                                     m_score := scoring ix r;
                                     m_metadata := Some (vr_metadata r) |})
                      (firstn (Z.to_nat (topK request)) (stored ix))) |},
         ix)) s;
  upsert := fun name records =>
    fakeCall name (fun ix =>
      (tt, {| reachable := reachable ix;
              stored := fold_left (fun l r => put r l) records (stored ix);
              scoring := scoring ix |}));
  deleteMany := fun name ids =>
    fakeCall name (fun ix =>
      (tt, {| reachable := reachable ix;
              stored := List.filter (fun r => negb (existsb (eqStr (vr_id r)) ids))
                          (stored ix);
              scoring := scoring ix |}));
  deleteOne := fun name i =>
    fakeCall name (fun ix =>
      (tt, {| reachable := reachable ix;
              stored := List.filter (fun r => negb (eqStr (vr_id r) i)) (stored ix);
              scoring := scoring ix |}))
|}.

End VectorDatabase.

(* ================================================================== *)
(** * services/ragService.ts *)

Module RAGService.
Import JS FileProcessor EmbeddingService VectorDatabase.

Inductive ClearType := clearFiles | clearMemory | clearAll.

Definition typeName (type : ClearType) : string :=
  match type with
  | clearFiles => "files"
  | clearMemory => "memory"
  | clearAll => "all"
  end.

(** A message: a text, or the template [`${text}: ${error}`]. *)
Inductive Message :=
| Text (text : string)
| About (text : string) (error : Error).

(** [{ success, message }] *)
Record Report := {
  success : bool;
  message : Message
}.

Section Service.
Context {W S : Type} `{Provider W} `{VectorIndex S}.
Variable cfg : Config.

Definition searchFiles (q : jsstring) (options : SearchOptions)
    : M (W * S) (list SearchResult) :=
  tryCatch (searchDocuments cfg q options)
    (fun error => throw (Wrap "Search failed" error)).

(** [if (agentId)]: an absent or empty agent id adds no filter. *)
Definition searchMemory (q : jsstring) (agentId : option jsstring)
    (options : SearchOptions) : M (W * S) (list SearchResult) :=
  tryCatch
    (let searchOptions :=
       match agentId with
       | Some a =>
           if truthy a then
             {| limit := limit options;
                threshold := threshold options;
                filter :=
                  Some (set "agentId" (MString a)
                          (match filter options with
                           | Some f => f
                           | None => []
                           end)) |}
           else options
       | None => options
       end in
     VectorDatabase.searchMemory cfg q searchOptions)
    (fun error => throw (Wrap "Memory search failed" error)).

Definition getStats : M S Stats :=
  tryCatch getCollectionStats
    (fun _ => ret {| documents := 0; memory := 0; total := 0 |}).

Definition clearData (type : ClearType) : M S Report :=
  tryCatch
    ((match type with
      | clearFiles | clearAll => clearCollection files
      | clearMemory => ret tt
      end) ;;;
     (match type with
      | clearMemory | clearAll => clearCollection memoryCollection
      | clearFiles => ret tt
      end) ;;;
     ret {| success := true;
            message := Text (typeName type ++ " data cleared successfully") |})%js
    (fun error =>
       ret {| success := false;
              message := About "Failed to clear data" error |}).

Definition testEmbeddingService : M W bool :=
  tryCatch (testConnection cfg) (fun _ => ret false).

End Service.

End RAGService.

(* ================================================================== *)
(** * index.ts: the tool handlers of the searches

    The handlers answer with the JSON text of what the service returns; the
    embedding keeps the value. *)

Module MCPRAGServer.
Import JS EmbeddingService VectorDatabase.

Record SearchFilesArgs := {
  sf_query : jsstring;
  sf_limit : option Z;
  sf_threshold : option Q
}.

Record SearchMemoryArgs := {
  sm_query : jsstring;
  sm_agentId : option jsstring;
  sm_limit : option Z;
  sm_threshold : option Q
}.

Section Handlers.
Context {W S : Type} `{Provider W} `{VectorIndex S}.
Variable cfg : Config.

Definition handleSearchFiles (args : SearchFilesArgs)
    : M (W * S) (list SearchResult) :=
  RAGService.searchFiles cfg (sf_query args)
    {| limit := Some (orZ (sf_limit args) 10);
       threshold := Some (orQ (sf_threshold args) (7 # 10));
       filter := None |}.

Definition handleSearchMemory (args : SearchMemoryArgs)
    : M (W * S) (list SearchResult) :=
  RAGService.searchMemory cfg (sm_query args) (sm_agentId args)
    {| limit := Some (orZ (sm_limit args) 10);
       threshold := Some (orQ (sm_threshold args) (7 # 10));
       filter := None |}.

End Handlers.

End MCPRAGServer.

(* ================================================================== *)
(** * utils/fileProcessor.ts: the operations on files *)

Module FileProcessorIO.
Import JS FileProcessor.

(** The file settings of config/index.ts. *)
Record FileConfig := {
  MAX_FILE_SIZE_MB : Z;
  SUPPORTED_EXTENSIONS : list jsstring
}.


(** [path.basename], [path.extname], [path.join] and
    [String.prototype.toLowerCase]: library functions, parameters of the
    development. *)
Record Paths := {
  basename : jsstring -> jsstring;
  extname : jsstring -> jsstring;
  joinPath : jsstring -> jsstring -> jsstring;
  toLowerCase : jsstring -> jsstring
}.

(** What the code reads of [fs.Stats]; [stat_mtime] is [mtime.getTime()]. *)
Record FsStats := {
  stat_size : Z;
  stat_mtime : Z;
  stat_isFile : bool
}.

(** The file system and the parsers, with their state [F].  A reader is
    the call of the library and what the method makes of its answer:
    [parsePDF] is [fs.readFile] then [pdfParse] and its [text],
    [extractRawText] is mammoth's and its [value], [readFile] is
    [fs.readFile(path, 'utf-8')], [readCSV] is the rows of the csv stream
    and [readJSON] is [fs.readJSON], both through
    [JSON.stringify(..., null, 2)]. *)
Class FileSystem (F : Type) := {
  stat : jsstring -> M F FsStats;
  readdir : jsstring -> M F (list jsstring);
  remove : jsstring -> M F unit;
  readFile : jsstring -> M F jsstring;
  parsePDF : jsstring -> M F jsstring;
  extractRawText : jsstring -> M F jsstring;
  readCSV : jsstring -> M F jsstring;
  readJSON : jsstring -> M F jsstring
}.

(** [a === b] on strings. *)
Definition sameString (a b : jsstring) : bool :=
  if list_eq_dec N.eq_dec a b then true else false.

(** [fileInfos.sort((a, b) => b.lastModified.getTime() -
    a.lastModified.getTime())]: the sort is stable, so an element goes
    behind those that are as recent. *)
Fixpoint insertByDate (x : FileInfo) (l : list FileInfo) : list FileInfo :=
  match l with
  | [] => [x]
  | y :: rest =>
      if (fi_lastModified y <? fi_lastModified x)%Z then x :: y :: rest
      else y :: insertByDate x rest
  end.

Definition sortByDate (l : list FileInfo) : list FileInfo :=
  fold_left (fun sorted x => insertByDate x sorted) l [].

Section Processor.
Context {F : Type} `{FileSystem F}.
Variable cfg : Config.
Variable fc : FileConfig.
Variable paths : Paths.
Variable rt : Runtime.

Definition getFileInfo (filePath : jsstring) : M F FileInfo :=
  (stats <- stat filePath ;;
   let filename := basename paths filePath in
   let ext := toLowerCase paths (extname paths filename) in
   ret {| fi_filename := filename;
          fi_path := filePath;
          fi_size := stat_size stats;
          fi_type := ext;
          fi_lastModified := stat_mtime stats;
          fi_chunks := 0 |})%js.

(** [this.supportedExtensions.has(ext)] *)
Definition isSupportedFile (filename : jsstring) : bool :=
  let ext := toLowerCase paths (extname paths filename) in
  existsb (sameString ext) (SUPPORTED_EXTENSIONS fc).

Definition extractFromPDF (filePath : jsstring) : M F jsstring :=
  tryCatch (parsePDF filePath)
    (fun error => throw (Wrap "Failed to extract PDF content" error)).

Definition extractFromDocx (filePath : jsstring) : M F jsstring :=
  tryCatch (extractRawText filePath)
    (fun error => throw (Wrap "Failed to extract DOCX content" error)).

Definition extractFromText (filePath : jsstring) : M F jsstring :=
  tryCatch (readFile filePath)
    (fun error => throw (Wrap "Failed to read text file" error)).

Definition extractFromCSV (filePath : jsstring) : M F jsstring :=
  tryCatch (readCSV filePath)
    (fun error => throw (Wrap "Failed to read CSV file" error)).

Definition extractFromJSON (filePath : jsstring) : M F jsstring :=
  tryCatch (readJSON filePath)
    (fun error => throw (Wrap "Failed to read JSON file" error)).

(** The [switch (fileType)]; the message of the default case also names
    the type. *)
Definition extractContent (filePath fileType : jsstring) : M F jsstring :=
  if sameString fileType (str ".pdf") then extractFromPDF filePath
  else if sameString fileType (str ".docx") then extractFromDocx filePath
  else if sameString fileType (str ".txt") || sameString fileType (str ".md")
  then extractFromText filePath
  else if sameString fileType (str ".csv") then extractFromCSV filePath
  else if sameString fileType (str ".json") then extractFromJSON filePath
  else throw (Err "Unsupported file type").

(** The messages of the two errors also name the file and its size. *)
Definition processFile (filePath : jsstring) (options : ProcessingOptions)
    : M F (list DocumentChunk) :=
  (fileInfo <- getFileInfo filePath ;;
   if negb (isSupportedFile (fi_filename fileInfo)) then
     throw (Err "Unsupported file type")
   else if (fi_size fileInfo >? MAX_FILE_SIZE_MB fc * 1024 * 1024)%Z then
     throw (Err "File too large")
   else
     (content <- extractContent filePath (fi_type fileInfo) ;;
      ret (createChunks cfg rt content fileInfo options)))%js.

(** The [for (const file of files)] loop of [listFiles]. *)
Fixpoint listLoop (directory : jsstring) (files : list jsstring)
    (fileInfos : list FileInfo) : M F (list FileInfo) :=
  match files with
  | [] => ret fileInfos
  | file :: rest =>
      (let filePath := joinPath paths directory file in
       stats <- stat filePath ;;
       listLoop directory rest
         (if stat_isFile stats && isSupportedFile file then
            fileInfos ++
            [{| fi_filename := file;
                fi_path := filePath;
                fi_size := stat_size stats;
                fi_type := toLowerCase paths (extname paths file);
                fi_lastModified := stat_mtime stats;
                fi_chunks := 0 |}]
          else fileInfos))%js
  end.

Definition listFiles (directory : jsstring) : M F (list FileInfo) :=
  tryCatch
    (files <- readdir directory ;;
     fileInfos <- listLoop directory files [] ;;
     ret (sortByDate fileInfos))%js
    (fun error => throw (Wrap "Failed to list files" error)).

Definition deleteFile (filePath : jsstring) : M F unit :=
  tryCatch (remove filePath)
    (fun error => throw (Wrap "Failed to delete file" error)).

End Processor.

End FileProcessorIO.

(* ================================================================== *)
(** * services/vectorDatabase.ts: deleting, and reading by agent *)

Module VectorDatabaseOps.
Import JS FileProcessor EmbeddingService VectorDatabase.

(** [new Array(CONFIG.EMBEDDING_DIMENSION).fill(0)]: a length that is
    negative or above 2^32 - 1 is a RangeError. *)
Definition zeroVector {St : Type} (cfg : Config) : M St vector :=
  let n := EMBEDDING_DIMENSION cfg in
  if (n <? 0)%Z || (4294967295 <? n)%Z then
    throw (Raised "RangeError: Invalid array length")
  else ret (repeat PrimFloat.zero (Z.to_nat n)).

(** The element [getMemoryByAgent] makes of a match. *)
Definition toResult (m : Match) : SearchResult :=
  {| sr_id := m_id m;
     sr_content :=
       match m_metadata m with
       | Some md =>
           match get "content" md with
           | Some v => if truthyValue v then v else MString []
           | None => MString []
           end
       | None => MString []
       end;
     sr_metadata := match m_metadata m with Some md => md | None => [] end;
     score := orQ (m_score m) 1 |}.

Section Adapter.
Context {S : Type} `{VectorIndex S}.
Variable cfg : Config.

Definition deleteDocumentsBySource (source : jsstring) : M S unit :=
  tryCatch
    (vector <- zeroVector cfg ;;
     results <- query filesIndex
                  {| q_vector := vector;
                     topK := 10000;
                     includeMetadata := true;
                     q_filter := Some [("source"%string, MString source)] |} ;;
     match matches results with
     | Some (m :: ms) =>
         let idsToDelete := map m_id (m :: ms) in
         deleteMany filesIndex idsToDelete
     | _ => ret tt
     end)%js
    (fun error => throw (Wrap "Failed to delete documents" error)).

Definition deleteMemory (entryId : jsstring) : M S unit :=
  tryCatch (deleteOne memoryIndex entryId)
    (fun error => throw (Wrap "Failed to delete memory entry" error)).

Definition getMemoryByAgent (agentId : jsstring) : M S (list SearchResult) :=
  tryCatch
    (vector <- zeroVector cfg ;;
     results <- query memoryIndex
                  {| q_vector := vector;
                     topK := 10000;
                     includeMetadata := true;
                     q_filter := Some [("agentId"%string, MString agentId)] |} ;;
     ret (match matches results with
          | Some ms => map toResult ms
          | None => []
          end))%js
    (fun error => throw (Wrap "Failed to get memory by agent" error)).

End Adapter.

End VectorDatabaseOps.

(* ================================================================== *)
(** * services/ragService.ts: adding and removing *)

Module RAGServiceOps.
Import JS FileProcessor FileProcessorIO EmbeddingService VectorDatabase.
Import VectorDatabaseOps RAGService.

(** [filePath.split('/').pop() || '']: what follows the last slash. *)
Fixpoint lastSegment (filePath : jsstring) : jsstring :=
  match filePath with
  | [] => []
  | c :: rest =>
      if existsb (N.eqb 47) rest then lastSegment rest
      else if (c =? 47)%N then rest
      else c :: rest
  end.

(** The two messages of [addFile]:
    [`File added successfully with ${chunks} chunks`] and
    [`Failed to add file: ${error}`]. *)
Inductive AddFileMessage :=
| FileAdded (chunks : Z)
| FileNotAdded (error : Error).

Record AddFileReport := {
  af_success : bool;
  af_chunks : Z;
  af_message : AddFileMessage
}.

Record AddMemoryReport := {
  am_success : bool;
  memoryId : jsstring;
  am_message : Message
}.

(** A call of the file processor, and a call of the vector database,
    inside the service. *)
Definition onFiles {F X A} (m : M F A) : M (F * X) A :=
  fun st => let (r, f') := m (fst st) in (r, (f', snd st)).
Definition onDatabase {F X A} (m : M X A) : M (F * X) A :=
  fun st => let (r, x') := m (snd st) in (r, (fst st, x')).

Section Service.
Context {F W S : Type} `{FileSystem F} `{Provider W} `{VectorIndex S}.
Variable cfg : Config.
Variable fc : FileConfig.
Variable paths : Paths.
Variable rt : Runtime.

(** [processFile] is called with no options. *)
Definition addFile (filePath : jsstring) : M (F * (W * S)) AddFileReport :=
  tryCatch
    (if negb (isSupportedFile fc paths (lastSegment filePath)) then
       throw (Err "Unsupported file type")
     else
       (chunks <- onFiles
                    (processFile cfg fc paths rt filePath
                       {| chunkSize := None; chunkOverlap := None |}) ;;
        match chunks with
        | [] => throw (Err "No content could be extracted from the file")
        | _ :: _ =>
            (onDatabase (addDocuments cfg chunks) ;;;
             ret {| af_success := true;
                    af_chunks := count chunks;
                    af_message := FileAdded (count chunks) |})
        end))%js
    (fun error =>
       ret {| af_success := false;
              af_chunks := 0;
              af_message := FileNotAdded error |}).

Definition removeFile (filePath : jsstring) : M S Report :=
  tryCatch
    (deleteDocumentsBySource cfg filePath ;;;
     ret {| success := true; message := Text "File removed successfully" |})%js
    (fun error =>
       ret {| success := false;
              message := About "Failed to remove file" error |}).

(** [category = 'general'], [importance = 1] and [tags = []] stand for
    the arguments that are not given; [n] is the number of calls of the
    runtime before this one. *)
Definition addMemory (n : nat) (content agentId sessionId : jsstring)
    (category : option jsstring) (importance : option Z)
    (tags : option (list jsstring)) : M (W * S) AddMemoryReport :=
  let category := match category with Some c => c | None => str "general" end in
  let importance := match importance with Some i => i | None => 1%Z end in
  let tags := match tags with Some t => t | None => [] end in
  tryCatch
    (let memoryId := uuidv4 rt n in
     let memoryEntry :=
       {| me_id := memoryId;
          me_content := content;
          me_metadata :=
            {| VectorDatabase.agentId := agentId;
               VectorDatabase.sessionId := sessionId;
               mm_timestamp := toISOString rt n;
               VectorDatabase.category := category;
               VectorDatabase.importance := importance;
               VectorDatabase.tags := tags |} |} in
     VectorDatabase.addMemory cfg memoryEntry ;;;
     ret {| am_success := true;
            memoryId := memoryId;
            am_message := Text "Memory added successfully" |})%js
    (fun error =>
       ret {| am_success := false;
              memoryId := [];
              am_message := About "Failed to add memory" error |}).

Definition removeMemory (memoryId : jsstring) : M S Report :=
  tryCatch
    (deleteMemory memoryId ;;;
     ret {| success := true; message := Text "Memory removed successfully" |})%js
    (fun error =>
       ret {| success := false;
              message := About "Failed to remove memory" error |}).

Definition getMemoryByAgent (agentId : jsstring) : M S (list SearchResult) :=
  tryCatch (VectorDatabaseOps.getMemoryByAgent cfg agentId)
    (fun error => throw (Wrap "Failed to get memory by agent" error)).

End Service.

End RAGServiceOps.

(* ================================================================== *)
(** * Vocabulary of the properties *)

Module Vocabulary.
Import JS FileProcessor.

(** A string that begins, or ends, with a unit that [trim] keeps. *)
Definition startsInk (s : jsstring) : Prop :=
  exists c s', s = c :: s' /\ isWhiteSpace c = false.
Definition endsInk (s : jsstring) : Prop :=
  exists s' c, s = s' ++ [c] /\ isWhiteSpace c = false.

(** The numbers a chunk carries. *)
Definition numbers (c : DocumentChunk) : Z * Z :=
  (chunkIndex (metadata c), totalChunks (metadata c)).

(** The i-th chunk carries index [i] and total [i + 1]. *)
Definition numbered (l : list DocumentChunk) : Prop :=
  map numbers l =
  map (fun i => (Z.of_nat i, Z.of_nat i + 1)%Z) (seq 0 (length l)).

Definition counted (st : Loop) : Prop :=
  index st = Z.of_nat (length (chunks st)) /\ numbered (chunks st).

(** What the loop of [createChunks] does to its buffer when it does not
    close a chunk. *)
Definition appendSentence (cur sentence : jsstring) : jsstring :=
  cur ++ (if truthy cur then str " " else []) ++ sentence.

(** The units of a list of strings, one more for each string. *)
Definition weight (l : list jsstring) : nat :=
  fold_right (fun s n => S (length s) + n) 0 l.

(** [b] begins with the overlap taken from [a], less the white space that
    opens the overlap. *)
Definition overlaps (O : Z) (a b : jsstring) : Prop :=
  exists rest, b = trimStart (getOverlapText a O) ++ rest.

(** Every chunk overlaps the next one. *)
Fixpoint chained (O : Z) (l : list DocumentChunk) : Prop :=
  match l with
  | a :: (b :: _) as rest => overlaps O (content a) (content b) /\ chained O rest
  | _ => True
  end.

Definition lastChunk (l : list DocumentChunk) : option DocumentChunk :=
  match rev l with c :: _ => Some c | [] => None end.

(** What the loop of [createChunks] keeps true, for the overlap [O]: the
    buffer is empty or ends with ink, the chunks closed so far are chained,
    and the buffer, which then ends with ink, begins (white space apart)
    with the overlap of the last chunk. *)
Definition linked (O : Z) (st : Loop) : Prop :=
  (currentChunk st = [] \/ endsInk (currentChunk st))
  /\ chained O (chunks st)
  /\ (forall c, lastChunk (chunks st) = Some c ->
       endsInk (currentChunk st)
       /\ overlaps O (content c) (trimStart (currentChunk st))).

(** A runtime, a file and options to run the chunker on. *)
Definition aRuntime : Runtime :=
  {| uuidv4 := fun n =>
       str "00000000-0000-4000-8000-00000000000" ++ [(48 + N.of_nat n)%N];
     toISOString := fun _ => str "2024-01-01T00:00:00.000Z" |}.

Definition aFile : FileInfo :=
  {| fi_filename := str "a.txt"; fi_path := str "/data/a.txt"; fi_size := 12;
     fi_type := str ".txt"; fi_lastModified := 0; fi_chunks := 0 |}.

Definition noOptions : ProcessingOptions :=
  {| chunkSize := None; chunkOverlap := None |}.

End Vocabulary.

Module BatchVocabulary.
Import JS EmbeddingService.

(** The consecutive groups of [n] elements of [l], the last one possibly
    smaller; a list of [k] elements has at most [k] groups. *)
Fixpoint groupsWithin {A} (k n : nat) (l : list A) : list (list A) :=
  match k, l with
  | S k', _ :: _ => firstn n l :: groupsWithin k' n (skipn n l)
  | _, _ => []
  end.

Definition groups {A} (n : nat) (l : list A) : list (list A) :=
  groupsWithin (length l) n l.

(** What [generateEmbeddings] makes of the outcome of its request. *)
Definition answer (cfg : Config) (outcome : Outcome) : Result (list vector) :=
  match outcome with
  | Response status data =>
      if negb (status =? 200)%Z then
        Thrown (Wrap "Failed to generate embeddings" (ApiRequestFailed status))
      else
        match data with
        | DataArray embeddings => Returned (validEmbeddings cfg embeddings)
        | DataOther =>
            Thrown (Wrap "Failed to generate embeddings"
                      (Err "Invalid embeddings response format"))
        end
  | AxiosError status statusText => Thrown (classify status statusText)
  | Failure what =>
      Thrown (Wrap "Failed to generate embeddings" (Raised what))
  end.

(** An outcome on which [generateEmbeddings] throws. *)
Definition failing (cfg : Config) (outcome : Outcome) : Prop :=
  exists e, answer cfg outcome = Thrown e.

(** What the provider answers to the attempts on one group that ends well:
    the outcomes of the attempts that fail, then the data of the one that
    succeeds. *)
Record GroupRun := {
  failures : list Outcome;
  items : list Item
}.

Definition segment (r : GroupRun) : list Outcome :=
  failures r ++ [Response 200 (DataArray (items r))].

Definition succeedsWithin (cfg : Config) (maxRetries : nat)
    (g : list jsstring) (r : GroupRun) : Prop :=
  Forall (failing cfg) (failures r) /\ length (failures r) < maxRetries.

(** [maxRetries] outcomes that all fail, the last one with [e]. *)
Definition exhausts (cfg : Config) (maxRetries : nat) (outcomes : list Outcome)
    (e : Error) : Prop :=
  length outcomes = maxRetries
  /\ Forall (failing cfg) outcomes
  /\ answer cfg (last outcomes (Failure "")) = Thrown e.

(** The requests of the attempts on a group. *)
Definition attemptsOf (gr : list jsstring * GroupRun) : list (list jsstring) :=
  repeat (fst gr) (S (length (failures (snd gr)))).

(** The loop of [generateEmbeddingsBatch], group by group. *)
Fixpoint processGroups {W} `{Provider W} (cfg : Config) (maxRetries : nat)
    (gs : list (list jsstring)) (allEmbeddings : list vector)
    : M W (list vector) :=
  match gs with
  | [] => ret allEmbeddings
  | g :: rest =>
      (pushed <- retryLoop cfg maxRetries
                   (match rest with [] => false | _ :: _ => true end)
                   g maxRetries ;;
       processGroups cfg maxRetries rest
         (allEmbeddings ++ match pushed with Some e => e | None => [] end))%js
  end.

(** ** The scenario of the specification

    25 texts in batches of 10 with at most 3 attempts; the second batch
    fails twice (the model is loading, then a timeout) and then succeeds. *)

Definition sampleConfig : Config :=
  {| CHUNK_SIZE := 1000; CHUNK_OVERLAP := 200; EMBEDDING_DIMENSION := 2 |}.

(** The n-th text is [n + 1] letters a. *)
Definition sampleTexts : list jsstring :=
  map (fun n => repeat 97%N (S n)) (seq 0 25).

Definition floatOf (n : nat) : float :=
  Nat.iter n (fun x => PrimFloat.add x PrimFloat.one) PrimFloat.zero.

Definition sampleEmbed (t : jsstring) : vector :=
  [floatOf (length t); PrimFloat.one].

Definition sampleData (g : list jsstring) : list Item :=
  map (fun t => ItemArray (sampleEmbed t)) g.

Definition sampleRuns : list GroupRun :=
  [ {| failures := []; items := sampleData (firstn 10 sampleTexts) |};
    {| failures := [AxiosError (Some 503%Z) None; Failure "timeout"];
       items := sampleData (firstn 10 (skipn 10 sampleTexts)) |};
    {| failures := []; items := sampleData (skipn 20 sampleTexts) |} ].

End BatchVocabulary.

Module CosineVocabulary.
Import EmbeddingService.

(** [sum_i a_i * a_i], accumulated from the left as the loop does. *)
Definition sumsq {num} `{Arith num} (a : list num) : num :=
  fold_left (fun acc x => add acc (mul x x)) a zero.

(** [sum_i a_i * b_i], accumulated from the left as the loop does. *)
Definition dot {num} `{Arith num} (a b : list num) : num :=
  fold_left (fun acc xy => add acc (mul (fst xy) (snd xy)))
    (combine a b) zero.


End CosineVocabulary.

Module AdapterVocabulary.
Import JS FileProcessor EmbeddingService VectorDatabase Vocabulary.

(** The contract of a similarity query: at most [topK] matches. *)
Definition respectsTopK (S : Type) `{VectorIndex S} : Prop :=
  forall name request (s s' : S) response ms,
    query name request s = (Returned response, s') ->
    matches response = Some ms ->
    (Z.of_nat (length ms) <= topK request)%Z.

(** The count a failed or successful [describeIndexStats] is read as. *)
Definition countRead (r : Result IndexStats) : Z :=
  match r with
  | Returned stats => orZ (totalVectorCount stats) 0
  | _ => 0%Z
  end.

(** Two chunks, "ab cd" and "cdefg". *)
Definition twoChunks : list DocumentChunk :=
  createChunks defaultConfig aRuntime (str "ab. cd. efg.") aFile
    {| chunkSize := Some 5%Z; chunkOverlap := Some 3%Z |}.

Definition aRecord (name : string) : VectorRecord :=
  {| vr_id := str name; values := Some [PrimFloat.one; PrimFloat.zero];
     vr_metadata := [("content"%string, MString (str "some text"))] |}.

Definition anIndex (up : bool) (records : list VectorRecord) : FakeIndex :=
  {| reachable := up; stored := records;
     scoring := fun _ => Some (9 # 10)%Q |}.

(** A store with one document and no memory. *)
Definition oneDocument : FakeStore :=
  {| fakeFiles := anIndex true [aRecord "doc-1"];
     fakeMemory := anIndex true [] |}.

(** A store whose files index is unreachable, with two memories. *)
Definition filesDown : FakeStore :=
  {| fakeFiles := anIndex false [aRecord "doc-1"];
     fakeMemory := anIndex true [aRecord "mem-1"; aRecord "mem-2"] |}.

(** A store with nothing in it. *)
Definition emptyStore : FakeStore :=
  {| fakeFiles := anIndex true []; fakeMemory := anIndex true [] |}.

(** A provider that answers one request with one valid vector, under
    [sampleConfig]. *)
Definition oneVector : Scripted :=
  playing [Response 200 (DataArray [ItemArray [PrimFloat.one; PrimFloat.zero]])].

(** A provider that answers one request with a vector of the wrong
    dimension. *)
Definition wrongDimension : Scripted :=
  playing [Response 200 (DataArray [ItemArray [PrimFloat.one]])].

(** A provider that answers the two texts of one request with a valid
    vector and a vector of the wrong dimension, under [sampleConfig]. *)
Definition secondDropped : Scripted :=
  playing [Response 200
             (DataArray [ItemArray [PrimFloat.one; PrimFloat.zero];
                         ItemArray [PrimFloat.one]])].

Definition aMemory : MemoryEntry :=
  {| me_id := str "memory-1"; me_content := str "a note";
     me_metadata :=
       {| agentId := str "agent-1"; sessionId := str "session-1";
          mm_timestamp := str "2024-01-01T00:00:00.000Z";
          category := str "general"; importance := 1; tags := [] |} |}.

End AdapterVocabulary.

Module ChunkerVocabulary.
Import JS FileProcessor Vocabulary.

(** [s] occurs in [t]. *)
Definition infix (s t : jsstring) : Prop :=
  exists pre post, t = pre ++ s ++ post.

(** [p] begins [t]. *)
Definition prefix (p t : jsstring) : Prop :=
  exists rest, t = p ++ rest.

(** A unit that is neither white space nor a terminator. *)
Definition isInk (c : char) : bool :=
  negb (isWhiteSpace c) && negb (isTerminator c).

(** A string that begins and ends with ink. *)
Definition clean (s : jsstring) : Prop := startsInk s /\ endsInk s.

(** The sentence is in a chunk already closed, or in the buffer. *)
Definition held (st : Loop) (s : jsstring) : Prop :=
  (exists c, In c (chunks st) /\ infix s (content c))
  \/ infix s (currentChunk st).

(** The chunks closed so far are clean, and the buffer is empty or ends
    with ink. *)
Definition tidy (st : Loop) : Prop :=
  Forall (fun c => clean (content c)) (chunks st)
  /\ (currentChunk st = [] \/ endsInk (currentChunk st)).

(** The chunks closed so far and the buffer have no more than [B] units. *)
Definition bounded (B : Z) (st : Loop) : Prop :=
  Forall (fun c => (len (content c) <= B)%Z) (chunks st)
  /\ (len (currentChunk st) <= B)%Z.

(** The i-th chunk closed so far comes from the file and from the i-th
    call of the runtime. *)
Definition stamped (rt : Runtime) (fileInfo : FileInfo)
    (l : list DocumentChunk) : Prop :=
  forall i c,
    nth_error l i = Some c ->
    id c = uuidv4 rt i
    /\ timestamp (metadata c) = toISOString rt i
    /\ source (metadata c) = fi_path fileInfo
    /\ filename (metadata c) = fi_filename fileInfo
    /\ fileType (metadata c) = fi_type fileInfo
    /\ size (metadata c) = fi_size fileInfo.

(** Every chunk begins the next one. *)
Fixpoint nested (l : list DocumentChunk) : Prop :=
  match l with
  | a :: (b :: _) as rest => prefix (content a) (content b) /\ nested rest
  | _ => True
  end.

(** What the loop keeps true when the overlap is 0: the chunks closed so
    far are nested, and the buffer, which then ends with ink, begins (white
    space apart) with the last of them. *)
Definition carried (st : Loop) : Prop :=
  (currentChunk st = [] \/ endsInk (currentChunk st))
  /\ nested (chunks st)
  /\ (forall c, lastChunk (chunks st) = Some c ->
       endsInk (currentChunk st)
       /\ prefix (content c) (trimStart (currentChunk st))).

(** A configuration whose overlap is 0. *)
Definition noOverlapConfig : Config :=
  {| CHUNK_SIZE := 5; CHUNK_OVERLAP := 0; EMBEDDING_DIMENSION := 384 |}.

End ChunkerVocabulary.

Module EmbeddingVocabulary.
Import JS EmbeddingService.

(** A vector of the configured dimension. *)
Definition hasDimension (cfg : Config) (v : vector) : Prop :=
  Z.of_nat (length v) = EMBEDDING_DIMENSION cfg.

(** A call that ends: it returns or it throws. *)
Definition settles {A} (r : Result A) : Prop :=
  (exists a, r = Returned a) \/ (exists e, r = Thrown e).

End EmbeddingVocabulary.

Module StoreVocabulary.
Import JS FileProcessor FileProcessorIO EmbeddingService VectorDatabase.
Import VectorDatabaseOps RAGService RAGServiceOps.
Import Vocabulary BatchVocabulary AdapterVocabulary.

(** ** An in-memory index that honours the filter

    Each of its two indexes holds the records upserted so far; a query
    returns, without a score, the first [topK] records whose metadata has
    every property of the filter. *)
Record Shelf := {
  shelfFiles : list VectorRecord;
  shelfMemory : list VectorRecord
}.

Definition sameValue (a b : MetaValue) : bool :=
  match a, b with
  | MString x, MString y => eqStr x y
  | MNumber x, MNumber y => (x =? y)%Z
  | MStrings x, MStrings y =>
      if list_eq_dec (list_eq_dec N.eq_dec) x y then true else false
  | _, _ => false
  end.

Definition satisfies (f : option Metadata) (r : VectorRecord) : bool :=
  match f with
  | None => true
  | Some properties =>
      forallb
        (fun kv =>
           match get (fst kv) (vr_metadata r) with
           | Some v => sameValue v (snd kv)
           | None => false
           end)
        properties
  end.

Definition shelfOf (name : IndexName) (s : Shelf) : list VectorRecord :=
  match name with filesIndex => shelfFiles s | memoryIndex => shelfMemory s end.

Definition withShelf (name : IndexName) (l : list VectorRecord) (s : Shelf)
    : Shelf :=
  match name with
  | filesIndex => {| shelfFiles := l; shelfMemory := shelfMemory s |}
  | memoryIndex => {| shelfFiles := shelfFiles s; shelfMemory := l |}
  end.

Definition asMatch (r : VectorRecord) : Match :=
  {| m_id := vr_id r; m_score := None; m_metadata := Some (vr_metadata r) |}.

#[export] Instance shelf : VectorIndex Shelf := {|
  describeIndexStats := fun name s =>
    (Returned
       {| totalVectorCount := Some (Z.of_nat (length (shelfOf name s))) |}, s);
  query := fun name request s =>
    (Returned
       {| matches :=
            Some (map asMatch
                    (firstn (Z.to_nat (topK request))
                       (List.filter (satisfies (q_filter request))
                          (shelfOf name s)))) |}, s);
  upsert := fun name records s =>
    (Returned tt,
     withShelf name (fold_left (fun l r => put r l) records (shelfOf name s)) s);
  deleteMany := fun name ids s =>
    (Returned tt,
     withShelf name
       (List.filter (fun r => negb (existsb (eqStr (vr_id r)) ids))
          (shelfOf name s)) s);
  deleteOne := fun name i s =>
    (Returned tt,
     withShelf name
       (List.filter (fun r => negb (eqStr (vr_id r) i)) (shelfOf name s)) s)
|}.

(** The record comes from the file at [path]. *)
Definition fromSource (path : jsstring) (r : VectorRecord) : bool :=
  satisfies (Some [("source"%string, MString path)]) r.

(** The record belongs to the agent. *)
Definition ofAgent (agent : jsstring) (r : VectorRecord) : bool :=
  satisfies (Some [("agentId"%string, MString agent)]) r.

(** A dimension that [new Array] accepts. *)
Definition arrayLength (cfg : Config) : Prop :=
  (0 <= EMBEDDING_DIMENSION cfg <= 4294967295)%Z.

(** A configuration whose dimension is no length of an array. *)
Definition noDimension : Config :=
  {| CHUNK_SIZE := 1000; CHUNK_OVERLAP := 200; EMBEDDING_DIMENSION := -1 |}.

(** No two records share an id. *)
Definition distinctIds (l : list VectorRecord) : Prop :=
  NoDup (map vr_id l).

(** Records of two files and memories of two agents. *)
Definition fileRecord (name path : string) : VectorRecord :=
  {| vr_id := str name; values := Some [PrimFloat.one; PrimFloat.zero];
     vr_metadata := [("source"%string, MString (str path));
                     ("content"%string, MString (str "some text"))] |}.

Definition memoryOf (name agent : string) : VectorRecord :=
  {| vr_id := str name; values := Some [PrimFloat.one; PrimFloat.zero];
     vr_metadata := [("agentId"%string, MString (str agent));
                     ("content"%string, MString (str "a note"))] |}.

Definition aShelf : Shelf :=
  {| shelfFiles := [fileRecord "c-1" "/data/a.txt";
                    fileRecord "c-2" "/data/b.txt";
                    fileRecord "c-3" "/data/a.txt"];
     shelfMemory := [memoryOf "m-1" "agent-1"; memoryOf "m-2" "agent-2"] |}.


(** A memory added for the first agent, with a provider that answers
    with one valid vector. *)
Definition afterAdding : Result AddMemoryReport * (Scripted * Shelf) :=
  RAGServiceOps.addMemory sampleConfig aRuntime 0 (str "a note")
    (str "agent-1") (str "session-1") None None None (oneVector, aShelf).

(** A search of the files with the default limit and threshold. *)
Definition aSearch : Result (list SearchResult) * (Scripted * FakeStore) :=
  RAGService.searchFiles sampleConfig (str "query")
    {| limit := None; threshold := None; filter := None |}
    (oneVector, oneDocument).

(** What a call returned, or the default. *)
Definition returned {A St : Type} (d : A) (r : Result A * St) : A :=
  match fst r with Returned a => a | _ => d end.

(** ** A file system in memory, and paths on ASCII names *)

Record DiskFile := {
  df_path : jsstring;
  df_size : Z;
  df_mtime : Z;
  df_text : jsstring
}.

(** The files, and the names [readdir] answers with. *)
Record Disk := {
  diskFiles : list DiskFile;
  listing : list jsstring;
  reads : nat
}.

Definition lookupFile (path : jsstring) (d : Disk) : option DiskFile :=
  find (fun f => eqStr (df_path f) path) (diskFiles d).

Definition reading (path : jsstring) : M Disk jsstring :=
  fun d =>
    match lookupFile path d with
    | Some f =>
        (Returned (df_text f),
         {| diskFiles := diskFiles d; listing := listing d;
            reads := S (reads d) |})
    | None => (Thrown (Raised "ENOENT"), d)
    end.

#[export] Instance disk : FileSystem Disk := {|
  stat := fun path d =>
    match lookupFile path d with
    | Some f =>
        (Returned {| stat_size := df_size f; stat_mtime := df_mtime f;
                     stat_isFile := true |}, d)
    | None => (Thrown (Raised "ENOENT"), d)
    end;
  readdir := fun _ d => (Returned (listing d), d);
  remove := fun path d =>
    (Returned tt,
     {| diskFiles :=
          List.filter (fun f => negb (eqStr (df_path f) path)) (diskFiles d);
        listing := listing d; reads := reads d |});
  readFile := reading;
  parsePDF := reading;
  extractRawText := reading;
  readCSV := reading;
  readJSON := reading
|}.

(** What follows the last dot of a name, the dot included, when the dot
    is not the first unit. *)
Fixpoint afterLastDot (name : jsstring) : jsstring :=
  match name with
  | [] => []
  | c :: rest =>
      if existsb (N.eqb 46) rest then afterLastDot rest
      else if (c =? 46)%N then c :: rest
      else []
  end.

Definition lowerUnit (c : char) : char :=
  if (65 <=? c)%N && (c <=? 90)%N then (c + 32)%N else c.

Definition asciiPaths : Paths :=
  {| basename := lastSegment;
     extname := fun name =>
       match name with
       | [] => []
       | c :: rest => if existsb (N.eqb 46) rest then afterLastDot rest else []
       end;
     joinPath := fun directory file => directory ++ str "/" ++ file;
     toLowerCase := map lowerUnit |}.

(** A text file, a file of a type that is not supported, a file of a type
    that the settings below allow and the processor cannot read, and a
    file of exactly two megabytes. *)
Definition aDisk : Disk :=
  {| diskFiles :=
       [ {| df_path := str "/data/a.txt"; df_size := 12; df_mtime := 3;
            df_text := str "ab. cd. efg." |};
         {| df_path := str "/data/b.exe"; df_size := 12; df_mtime := 5;
            df_text := str "MZ" |};
         {| df_path := str "/data/c.html"; df_size := 12; df_mtime := 4;
            df_text := str "<p>text. more text.</p>" |};
         {| df_path := str "/data/d.TXT"; df_size := 2097152; df_mtime := 4;
            df_text := str "One. Two." |};
         {| df_path := str "/data/e.md"; df_size := 2097153; df_mtime := 1;
            df_text := str "Too large." |} ];
     listing := [str "a.txt"; str "b.exe"; str "c.html"; str "d.TXT";
                 str "e.md"];
     reads := 0 |}.

(** Settings that allow two megabytes, and the type .html. *)
Definition smallFiles : FileConfig :=
  {| MAX_FILE_SIZE_MB := 2;
     SUPPORTED_EXTENSIONS := [str ".txt"; str ".md"; str ".html"] |}.


(** An entry of the listing of [directory]: a supported name, with the
    path that joins the directory and the name, and the lowered extension
    of the name as its type. *)
Definition listedIn (fc : FileConfig) (paths : Paths) (directory : jsstring)
    (fileInfo : FileInfo) : Prop :=
  isSupportedFile fc paths (fi_filename fileInfo) = true
  /\ fi_path fileInfo = joinPath paths directory (fi_filename fileInfo)
  /\ fi_type fileInfo
     = toLowerCase paths (extname paths (fi_filename fileInfo)).

(** The list is in the order of the dates, the most recent first. *)
Definition newestFirst (l : list FileInfo) : Prop :=
  StronglySorted (fun a b => (fi_lastModified b <= fi_lastModified a)%Z) l.

(** The scores are in descending order. *)
Definition descending (scores : list Q) : Prop :=
  StronglySorted (fun a b => (b <= a)%Q) scores.

(** [l] is [m] less some of its elements. *)
Inductive sublist {A : Type} : list A -> list A -> Prop :=
| sublist_nil : sublist [] []
| sublist_keep x l m : sublist l m -> sublist (x :: l) (x :: m)
| sublist_drop x l m : sublist l m -> sublist l (x :: m).

(** The report [rep] tells how the operation [op] ended: a success when
    it returned, a failure when it threw, in the state the operation left;
    a report is returned whenever the operation ends. *)
Definition reported {St A R : Type} (ok : R -> bool)
    (op : Result A * St) (rep : Result R * St) : Prop :=
  snd rep = snd op
  /\ match fst op with
     | Returned _ => exists r, fst rep = Returned r /\ ok r = true
     | Thrown _ => exists r, fst rep = Returned r /\ ok r = false
     | Diverged => fst rep = Diverged
     end.

End StoreVocabulary.

(* ================================================================== *)
(** * Properties of the string operations *)

Module JSFacts.
Import JS Vocabulary.

(** Linear arithmetic on the lengths of strings. *)
Ltac jlia := unfold len, jsstring, char in *; lia.

Section DropWhile.
Context {A : Type} (p : A -> bool).

Lemma dropWhile_decompose (l : list A) :
  exists w, l = w ++ dropWhile p l /\ forallb p w = true.
Proof.
  induction l as [|x l [w [Hl Hw]]]; simpl.
  - now exists [].
  - destruct (p x) eqn:Hx.
    + exists (x :: w). simpl. rewrite Hx, Hw. split; [now f_equal | reflexivity].
    + now exists [].
Qed.

Lemma dropWhile_all (w l : list A) :
  forallb p w = true -> dropWhile p (w ++ l) = dropWhile p l.
Proof.
  induction w as [|x w IH]; simpl; trivial.
  intros Hw. apply andb_prop in Hw as [Hx Hw]. rewrite Hx. now apply IH.
Qed.

Lemma dropWhile_snoc_app (a : list A) (c : A) (b : list A) :
  p c = false ->
  dropWhile p ((a ++ [c]) ++ b) = dropWhile p (a ++ [c]) ++ b.
Proof.
  intros Hc. induction a as [|x a IH]; simpl.
  - now rewrite Hc.
  - destruct (p x); trivial.
Qed.

Lemma dropWhile_snoc (a : list A) (c : A) :
  p c = false -> exists t, dropWhile p (a ++ [c]) = t ++ [c].
Proof.
  intros Hc. induction a as [|x a [t Ht]]; simpl.
  - rewrite Hc. now exists [].
  - destruct (p x).
    + now exists t.
    + now exists (x :: a).
Qed.

Lemma dropWhile_length (l : list A) : length (dropWhile p l) <= length l.
Proof.
  induction l as [|x l IH]; simpl; trivial.
  destruct (p x); simpl; lia.
Qed.

End DropWhile.

Lemma trimStart_endsInk s : endsInk s -> endsInk (trimStart s).
Proof.
  intros (s' & c & -> & Hc).
  destruct (dropWhile_snoc isWhiteSpace s' c Hc) as [t Ht].
  exists t, c. now split.
Qed.

Lemma trimEnd_endsInk s : endsInk s -> trimEnd s = s.
Proof.
  intros (s' & c & -> & Hc). unfold trimEnd.
  rewrite rev_app_distr. simpl. rewrite Hc. simpl. now rewrite rev_involutive.
Qed.

Lemma trim_endsInk s : endsInk s -> trim s = trimStart s.
Proof. intros Hs. unfold trim. now apply trimEnd_endsInk, trimStart_endsInk. Qed.

Lemma trimStart_app a b : endsInk a -> trimStart (a ++ b) = trimStart a ++ b.
Proof.
  intros (a' & c & -> & Hc). now apply dropWhile_snoc_app.
Qed.

Lemma trimStart_startsInk s : startsInk s -> trimStart s = s.
Proof. intros (c & s' & -> & Hc). unfold trimStart. simpl. now rewrite Hc. Qed.

Lemma endsInk_app a b : endsInk b -> endsInk (a ++ b).
Proof.
  intros (b' & c & -> & Hc). exists (a ++ b'), c. now rewrite app_assoc.
Qed.

Lemma startsInk_app a b : startsInk a -> startsInk (a ++ b).
Proof. intros (c & a' & -> & Hc). now exists c, (a' ++ b). Qed.

Lemma endsInk_nonempty s : endsInk s -> s <> [].
Proof. intros (s' & c & -> & _). now destruct s'. Qed.

Lemma trimEnd_prefix s : exists w, s = trimEnd s ++ w.
Proof.
  unfold trimEnd.
  destruct (dropWhile_decompose isWhiteSpace (rev s)) as (w & Hs & _).
  exists (rev w). rewrite <- rev_app_distr, <- Hs. now rewrite rev_involutive.
Qed.

Lemma trimEnd_ends s : trimEnd s <> [] -> endsInk (trimEnd s).
Proof.
  unfold trimEnd. destruct (dropWhile isWhiteSpace (rev s)) as [|c r] eqn:E.
  - now intros [].
  - intros _. exists (rev r), c. split; trivial.
    assert (H : dropWhile isWhiteSpace (c :: r) = c :: r).
    { rewrite <- E. clear. induction (rev s) as [|x l IH]; simpl; trivial.
      destruct (isWhiteSpace x) eqn:Hx; trivial. simpl. now rewrite Hx. }
    simpl in H. destruct (isWhiteSpace c); trivial.
    exfalso. pose proof (dropWhile_length isWhiteSpace r) as L.
    rewrite H in L. simpl in L. lia.
Qed.

Lemma trimStart_starts s : trimStart s <> [] -> startsInk (trimStart s).
Proof.
  unfold trimStart. induction s as [|x s IH]; simpl.
  - now intros [].
  - destruct (isWhiteSpace x) eqn:Hx; trivial.
    intros _. now exists x, s.
Qed.

(** What [trim] leaves, when it leaves something, begins and ends with
    ink. *)
Lemma trim_clean s : trim s <> [] -> startsInk (trim s) /\ endsInk (trim s).
Proof.
  intros Hne. split.
  - unfold trim in *. destruct (trimEnd_prefix (trimStart s)) as [w Hw].
    assert (Ht : trimStart s <> []).
    { intros E. rewrite E in Hne. now apply Hne. }
    destruct (trimStart_starts s Ht) as (c & s' & Hs & Hc).
    destruct (trimEnd (trimStart s)) as [|d t]; [now elim Hne|].
    rewrite Hs in Hw. simpl in Hw. injection Hw as -> _.
    now exists d, t.
  - now apply trimEnd_ends.
Qed.

Lemma len_positive s : (len s >? 0)%Z = true <-> s <> [].
Proof.
  unfold len. destruct s; simpl; split; intros; easy.
Qed.

Lemma startsWith_app p r : startsWith (p ++ r) p = true.
Proof.
  induction p as [|c p IH].
  - now destruct r.
  - cbn [startsWith app]. now rewrite N.eqb_refl.
Qed.

End JSFacts.

(* ================================================================== *)
(** * Properties of the chunker *)

Module ChunkerFacts.
Import JS FileProcessor Vocabulary JSFacts.

Lemma numbered_snoc l c :
  numbered l ->
  numbers c = (Z.of_nat (length l), Z.of_nat (length l) + 1)%Z ->
  numbered (l ++ [c]).
Proof.
  unfold numbered. intros Hl Hc.
  rewrite map_app, length_app, Hl. simpl.
  rewrite Nat.add_1_r, seq_S, map_app. simpl. now rewrite Hc.
Qed.

Lemma step_counted rt fileInfo chunkSize chunkOverlap st sentence :
  counted st -> counted (step rt fileInfo chunkSize chunkOverlap st sentence).
Proof.
  intros [Hi Hn]. unfold step.
  destruct (_ && _ && _); split; simpl; trivial.
  - rewrite length_app. simpl. lia.
  - apply numbered_snoc; trivial.
    unfold numbers, count. simpl. now rewrite Hi.
Qed.

Lemma loop_counted rt fileInfo chunkSize chunkOverlap sentences st :
  counted st ->
  counted (fold_left (step rt fileInfo chunkSize chunkOverlap) sentences st).
Proof.
  revert st. induction sentences as [|s ss IH]; intros st Hst; simpl; trivial.
  apply IH. now apply step_counted.
Qed.

Lemma finish_numbered rt fileInfo st :
  counted st -> numbered (finish rt fileInfo st).
Proof.
  intros [Hi Hn]. unfold finish.
  destruct (_ >? _)%Z; trivial.
  apply numbered_snoc; trivial.
  unfold numbers, count. simpl. now rewrite Hi.
Qed.

Lemma createChunks_numbered cfg rt text fileInfo options :
  numbered (createChunks cfg rt text fileInfo options).
Proof.
  unfold createChunks. apply finish_numbered, loop_counted.
  split; reflexivity.
Qed.

(** ** Sentences *)

Lemma sentences_clean text :
  Forall (fun s => startsInk s /\ endsInk s) (splitIntoSentences text).
Proof.
  unfold splitIntoSentences. apply Forall_forall. intros s Hs.
  apply filter_In in Hs as [Hin Hlen].
  apply in_map_iff in Hin as (piece & <- & _).
  apply trim_clean. now apply len_positive.
Qed.

Lemma weight_splitRuns inRun text :
  weight (splitRuns inRun text) <= S (length text).
Proof.
  revert inRun. induction text as [|c rest IH]; intros inRun; simpl.
  - lia.
  - destruct (isTerminator c).
    + destruct inRun; simpl; specialize (IH true); lia.
    + specialize (IH false).
      destruct (splitRuns false rest) as [|piece pieces]; simpl in *; lia.
Qed.

Lemma trim_length s : length (trim s) <= length s.
Proof.
  unfold trim, trimEnd, trimStart. rewrite length_rev.
  etransitivity; [apply dropWhile_length|]. rewrite length_rev.
  apply dropWhile_length.
Qed.

Lemma weight_map_trim l : weight (map trim l) <= weight l.
Proof.
  induction l as [|s l IH]; simpl; trivial.
  pose proof (trim_length s). lia.
Qed.

Lemma weight_filter (f : jsstring -> bool) l : weight (filter f l) <= weight l.
Proof.
  induction l as [|s l IH]; simpl; trivial.
  destruct (f s); simpl; lia.
Qed.

Lemma weight_sentences text :
  weight (splitIntoSentences text) <= S (length text).
Proof.
  unfold splitIntoSentences, split.
  etransitivity; [apply weight_filter|].
  etransitivity; [apply weight_map_trim|].
  apply weight_splitRuns.
Qed.

Lemma join_space_length l :
  l <> [] -> S (length (join (str " ") l)) = weight l.
Proof.
  induction l as [|s [|s' l] IH]; intros Hne.
  - now elim Hne.
  - simpl. lia.
  - change (join (str " ") (s :: s' :: l))
      with (s ++ str " " ++ join (str " ") (s' :: l)).
    change (weight (s :: s' :: l)) with (S (length s) + weight (s' :: l)).
    rewrite <- IH by discriminate.
    rewrite !length_app. simpl. lia.
Qed.

(** The sentences, joined by single spaces, are no longer than the text
    they come from. *)
Lemma joined_sentences_length text :
  length (join (str " ") (splitIntoSentences text)) <= length text.
Proof.
  destruct (splitIntoSentences text) as [|s l] eqn:E.
  - simpl. lia.
  - pose proof (weight_sentences text) as Hw. rewrite E in Hw.
    rewrite <- join_space_length in Hw by discriminate. lia.
Qed.

(** ** The loop while nothing is closed *)

Lemma join_absorb sep cur s rest :
  join sep ((cur ++ sep ++ s) :: rest) = cur ++ sep ++ join sep (s :: rest).
Proof.
  destruct rest as [|r rest]; simpl; trivial.
  now rewrite <- !app_assoc.
Qed.

Lemma fold_appendSentence cur l :
  cur <> [] ->
  fold_left appendSentence l cur = join (str " ") (cur :: l).
Proof.
  revert cur. induction l as [|s l IH]; intros cur Hcur; simpl fold_left.
  - reflexivity.
  - unfold appendSentence at 2. destruct cur as [|c cur]; [now elim Hcur|].
    cbn [truthy]. rewrite IH by discriminate.
    rewrite join_absorb. destruct l; reflexivity.
Qed.

Lemma fold_appendSentence_start s l :
  s <> [] ->
  fold_left appendSentence (s :: l) [] = join (str " ") (s :: l).
Proof. intros Hs. simpl fold_left. now apply fold_appendSentence. Qed.

Lemma appendSentence_length cur s :
  length cur + length s <= length (appendSentence cur s).
Proof. unfold appendSentence. rewrite !length_app. lia. Qed.

Lemma fold_appendSentence_grows l cur :
  length cur <= length (fold_left appendSentence l cur).
Proof.
  revert cur. induction l as [|s l IH]; intros cur; simpl; trivial.
  etransitivity; [|apply IH].
  pose proof (appendSentence_length cur s). lia.
Qed.

Lemma loop_without_split rt fileInfo chunkSize chunkOverlap l st :
  (len (fold_left appendSentence l (currentChunk st)) <= chunkSize)%Z ->
  fold_left (step rt fileInfo chunkSize chunkOverlap) l st =
  {| chunks := chunks st;
     currentChunk := fold_left appendSentence l (currentChunk st);
     index := index st |}.
Proof.
  revert st. induction l as [|s l IH]; intros st Hfit; simpl fold_left in *.
  - now destruct st.
  - assert (Hs : (len (currentChunk st) + len s >? chunkSize)%Z = false).
    { pose proof (fold_appendSentence_grows l
                    (appendSentence (currentChunk st) s)) as Hg.
      pose proof (appendSentence_length (currentChunk st) s) as Ha.
      unfold len in *. lia. }
    unfold step at 2. rewrite Hs, andb_false_r. simpl andb. cbv iota.
    rewrite IH; simpl; trivial.
Qed.

Lemma join_endsInk sep l :
  l <> [] -> Forall endsInk l -> endsInk (join sep l).
Proof.
  induction l as [|s [|s' l] IH]; intros Hne Hall.
  - now elim Hne.
  - now inversion Hall.
  - change (join sep (s :: s' :: l)) with (s ++ sep ++ join sep (s' :: l)).
    apply endsInk_app, endsInk_app, IH; [discriminate | now inversion Hall].
Qed.

Lemma join_startsInk sep s l : startsInk s -> startsInk (join sep (s :: l)).
Proof.
  intros Hs. destruct l; simpl; trivial. now apply startsInk_app.
Qed.

Lemma splitRuns_plain text :
  forallb (fun c => negb (isTerminator c)) text = true ->
  splitRuns false text = [text].
Proof.
  induction text as [|c rest IH]; simpl; trivial.
  intros H. apply andb_prop in H as [Hc Hrest].
  apply negb_true_iff in Hc. rewrite Hc, IH; trivial.
Qed.

(** ** The chunk numbers *)

(** C8: in what [createChunks] returns, the i-th chunk (from 0) has
    [chunkIndex = i] and [totalChunks = i + 1], one more than the number of
    chunks emitted before it, whatever the final number of chunks is; so
    [totalChunks = chunkIndex + 1] and [0 <= chunkIndex < totalChunks] for
    every chunk. *)
Theorem totalChunks_is_running_count cfg rt text fileInfo options :
  let emitted := createChunks cfg rt text fileInfo options in
  map numbers emitted =
    map (fun i => (Z.of_nat i, Z.of_nat i + 1)%Z) (seq 0 (length emitted))
  /\ (forall i c,
        nth_error emitted i = Some c ->
        chunkIndex (metadata c) = Z.of_nat i
        /\ totalChunks (metadata c) = (Z.of_nat i + 1)%Z)
  /\ Forall (fun c =>
              totalChunks (metadata c) = (chunkIndex (metadata c) + 1)%Z
              /\ (0 <= chunkIndex (metadata c) < totalChunks (metadata c))%Z)
       emitted.
Proof.
  intros emitted.
  pose proof (createChunks_numbered cfg rt text fileInfo options) as Hn.
  fold emitted in Hn. split; [exact Hn|].
  assert (Hnth : forall i c,
            nth_error emitted i = Some c ->
            chunkIndex (metadata c) = Z.of_nat i
            /\ totalChunks (metadata c) = (Z.of_nat i + 1)%Z).
  { intros i c Hc. unfold numbered in Hn.
    pose proof (map_nth_error numbers i emitted Hc) as Hm.
    rewrite Hn in Hm.
    assert (Hi : i < length emitted)
      by (apply nth_error_Some; rewrite Hc; discriminate).
    rewrite (map_nth_error _ i (seq 0 (length emitted)) (d := i)) in Hm.
    - injection Hm as Hidx Htot. now split.
    - rewrite nth_error_nth' with (d := 0) by (now rewrite length_seq).
      now rewrite seq_nth. }
  split; [exact Hnth|].
  apply Forall_forall. intros c Hin.
  apply In_nth_error in Hin as [i Hi].
  destruct (Hnth i c Hi) as [-> ->]. lia.
Qed.

(** The total of the first of two chunks stays 1. *)
Example totalChunks_not_final :
  map numbers
    (createChunks defaultConfig
       {| uuidv4 := fun _ => []; toISOString := fun _ => [] |}
       (str "ab. cd. efg.")
       {| fi_filename := str "a.txt"; fi_path := str "/a.txt"; fi_size := 12;
          fi_type := str ".txt"; fi_lastModified := 0; fi_chunks := 0 |}
       {| chunkSize := Some 5%Z; chunkOverlap := Some 3%Z |})
  = [(0, 1); (1, 2)]%Z.
Proof. reflexivity. Qed.

(** ** A text that fits in one chunk *)

Lemma short_text_loop cfg rt text fileInfo options s l :
  (len text <= orZ (chunkSize options) (CHUNK_SIZE cfg))%Z ->
  splitIntoSentences text = s :: l ->
  createChunks cfg rt text fileInfo options =
  [createChunkObject rt 0 (join (str " ") (s :: l)) fileInfo 0 1].
Proof.
  intros Hfit Hs.
  pose proof (sentences_clean text) as Hclean. rewrite Hs in Hclean.
  assert (Hne : s <> []).
  { inversion Hclean as [|? ? [_ He] _]. now apply endsInk_nonempty. }
  assert (Hends : endsInk (join (str " ") (s :: l))).
  { apply join_endsInk; [discriminate|].
    eapply Forall_impl; [|exact Hclean]. now intros ? [_ ?]. }
  assert (Hstarts : startsInk (join (str " ") (s :: l))).
  { apply join_startsInk. now inversion Hclean as [|? ? [? _] _]. }
  unfold createChunks. rewrite Hs.
  rewrite loop_without_split; cbn [currentChunk chunks index].
  - rewrite fold_appendSentence_start by exact Hne.
    unfold finish. cbn [currentChunk chunks index].
    rewrite trim_endsInk, trimStart_startsInk by assumption.
    match goal with
    | |- context [if ?b then _ else _] =>
        assert (Hpos : b = true)
          by (apply len_positive; now apply endsInk_nonempty);
        rewrite Hpos
    end.
    reflexivity.
  - rewrite fold_appendSentence_start by exact Hne.
    pose proof (joined_sentences_length text) as Hj. rewrite Hs in Hj.
    apply Z.le_trans with (len text); [|exact Hfit].
    apply Nat2Z.inj_le. exact Hj.
Qed.

(** C5, as the code has it: a text no longer than the chunk size, with at
    least one sentence, gives exactly one chunk; its content is the
    sentences of the text, each trimmed, joined by single spaces, the
    terminators being dropped; it is the whole trimmed text when the text
    has no terminator. *)
Theorem short_text_single_chunk cfg rt text fileInfo options :
  (len text <= orZ (chunkSize options) (CHUNK_SIZE cfg))%Z ->
  splitIntoSentences text <> [] ->
  exists c,
    createChunks cfg rt text fileInfo options = [c]
    /\ content c = join (str " ") (splitIntoSentences text)
    /\ (forallb (fun u => negb (isTerminator u)) text = true ->
        content c = trim text).
Proof.
  intros Hfit Hne.
  destruct (splitIntoSentences text) as [|s l] eqn:Hs; [now elim Hne|].
  exists (createChunkObject rt 0 (join (str " ") (s :: l)) fileInfo 0 1).
  split; [apply short_text_loop; assumption|]. split; [reflexivity|].
  intros Hplain. cbn [content createChunkObject].
  unfold splitIntoSentences, split in Hs.
  rewrite splitRuns_plain in Hs by exact Hplain. simpl in Hs.
  destruct (len (trim text) >? 0)%Z; [|discriminate].
  now injection Hs as <- <-.
Qed.

Lemma short_text_single_chunk_witness :
  exists c,
    createChunks defaultConfig aRuntime (str " Hi there ") aFile noOptions = [c]
    /\ content c = join (str " ") (splitIntoSentences (str " Hi there "))
    /\ (forallb (fun u => negb (isTerminator u)) (str " Hi there ") = true ->
        content c = trim (str " Hi there ")).
Proof.
  apply (short_text_single_chunk defaultConfig aRuntime (str " Hi there ")
           aFile noOptions).
  - vm_compute. discriminate.
  - vm_compute. discriminate.
Defined.

(** The text "Hi." fits in a chunk of 1000 and has one sentence; its one
    chunk holds "Hi", not the trimmed text "Hi.". *)
Lemma short_text_loses_terminators :
  (len (str "Hi.") <= orZ (chunkSize noOptions) (CHUNK_SIZE defaultConfig))%Z
  /\ splitIntoSentences (str "Hi.") <> []
  /\ ~ (exists c,
          createChunks defaultConfig aRuntime (str "Hi.") aFile noOptions = [c]
          /\ content c = trim (str "Hi.")).
Proof.
  split; [vm_compute; discriminate|]. split; [vm_compute; discriminate|].
  intros (c & Hc & Hcontent).
  vm_compute in Hc. injection Hc as <-. vm_compute in Hcontent. discriminate.
Qed.

(** ** The overlap between consecutive chunks *)

Lemma getOverlapText_skipn text O :
  (0 < O)%Z ->
  getOverlapText text O = skipn (length text - Z.to_nat O) text.
Proof.
  intros HO. unfold getOverlapText, slice, len.
  destruct (Z.leb_spec (Z.of_nat (length text)) O) as [Hle|Hgt].
  - replace (length text - Z.to_nat O) with 0 by lia. reflexivity.
  - destruct (Z.ltb_spec (- O) 0) as [_|Hn]; [|lia].
    f_equal. lia.
Qed.

Lemma forallb_skipn {A} (p : A -> bool) k l :
  forallb p l = true -> forallb p (skipn k l) = true.
Proof.
  revert l. induction k as [|k IH]; intros [|x l]; simpl; trivial.
  intros H. apply andb_prop in H as [_ H]. now apply IH.
Qed.

Lemma skipn_past_white w c o :
  forallb isWhiteSpace w = true ->
  trimStart (skipn (length c - o) c) =
  trimStart (skipn (length (w ++ c) - o) (w ++ c)).
Proof.
  intros Hw. rewrite length_app, skipn_app.
  destruct (le_lt_dec (length c) o) as [Hshort|Hlong].
  - replace (length c - o) with 0 by jlia.
    replace (length w + length c - o - length w) with 0 by jlia.
    simpl skipn. unfold trimStart.
    rewrite dropWhile_all by (now apply forallb_skipn). reflexivity.
  - rewrite (@skipn_all2 _ _ w) by jlia.
    replace (length w + length c - o - length w) with (length c - o) by jlia.
    reflexivity.
Qed.

(** Taking the overlap before or after the white space that opens the
    buffer is removed gives the same text, white space apart. *)
Lemma overlap_of_trimmed cur O :
  (0 < O)%Z ->
  trimStart (getOverlapText (trimStart cur) O) =
  trimStart (getOverlapText cur O).
Proof.
  intros HO. rewrite !getOverlapText_skipn by exact HO.
  destruct (dropWhile_decompose isWhiteSpace cur) as (w & Hcur & Hw).
  fold (trimStart cur) in Hcur.
  pose proof (skipn_past_white w (trimStart cur) (Z.to_nat O) Hw) as H.
  now rewrite <- Hcur in H.
Qed.

Lemma getOverlapText_endsInk cur O :
  (0 < O)%Z -> endsInk cur -> endsInk (getOverlapText cur O).
Proof.
  intros HO (s' & c & -> & Hc). rewrite getOverlapText_skipn by exact HO.
  rewrite length_app, skipn_app. simpl length.
  replace (length s' + 1 - Z.to_nat O - length s') with 0 by lia.
  now exists (skipn (length s' + 1 - Z.to_nat O) s'), c.
Qed.

Lemma lastChunk_snoc l c : lastChunk (l ++ [c]) = Some c.
Proof. unfold lastChunk. now rewrite rev_app_distr. Qed.

Lemma lastChunk_cons a b l : lastChunk (a :: b :: l) = lastChunk (b :: l).
Proof.
  unfold lastChunk. simpl rev.
  destruct (rev l ++ [b]) as [|x r] eqn:E; trivial.
  now destruct (rev l).
Qed.

Lemma chained_snoc O l c :
  chained O l ->
  (forall a, lastChunk l = Some a -> overlaps O (content a) (content c)) ->
  chained O (l ++ [c]).
Proof.
  induction l as [|a [|b l] IH]; intros Hl Hlast.
  - exact I.
  - split; [|exact I]. now apply Hlast.
  - destruct Hl as [Hab Hl]. split; [exact Hab|].
    apply IH; [exact Hl|]. intros x Hx. apply Hlast.
    now rewrite lastChunk_cons.
Qed.

Lemma chained_nth O l i a b :
  chained O l ->
  nth_error l i = Some a -> nth_error l (S i) = Some b ->
  overlaps O (content a) (content b).
Proof.
  revert i. induction l as [|x [|y l] IH]; intros i Hl Ha Hb.
  - now destruct i.
  - simpl in Hb. now destruct i.
  - destruct Hl as [Hxy Hl]. destruct i as [|i].
    + simpl in Ha, Hb. injection Ha as <-. injection Hb as <-. exact Hxy.
    + now apply (IH i).
Qed.

Lemma step_linked rt fileInfo chunkSize O st sentence :
  (0 < O)%Z -> endsInk sentence -> linked O st ->
  linked O (step rt fileInfo chunkSize O st sentence).
Proof.
  intros HO Hs (Hcur & Hchain & Hlast). unfold step.
  destruct (_ && _ && _) eqn:Hsplit; unfold linked;
    cbn [currentChunk chunks index].
  - apply andb_prop in Hsplit as [_ Hpos].
    apply len_positive in Hpos. destruct Hcur as [Hcur|Hcur]; [easy|].
    split; [right; now apply endsInk_app|]. split.
    + apply chained_snoc; trivial. intros a Ha.
      cbn [content createChunkObject]. rewrite trim_endsInk by exact Hcur.
      now apply Hlast.
    + intros c Hc. rewrite lastChunk_snoc in Hc. injection Hc as <-.
      split; [now apply endsInk_app|].
      cbn [content createChunkObject]. exists sentence.
      rewrite trim_endsInk by exact Hcur.
      rewrite overlap_of_trimmed by exact HO.
      apply trimStart_app. now apply getOverlapText_endsInk.
  - split; [right; now apply endsInk_app, endsInk_app|].
    split; [exact Hchain|].
    intros c Hc. destruct (Hlast c Hc) as [Hink [rest Hrest]].
    split; [now apply endsInk_app, endsInk_app|].
    rewrite trimStart_app by exact Hink. rewrite Hrest.
    eexists. now rewrite <- app_assoc.
Qed.

Lemma loop_linked rt fileInfo chunkSize O l st :
  (0 < O)%Z -> Forall endsInk l -> linked O st ->
  linked O (fold_left (step rt fileInfo chunkSize O) l st).
Proof.
  intros HO Hl. revert st.
  induction Hl as [|s l Hs Hl IH]; intros st Hst; simpl; trivial.
  apply IH. now apply step_linked.
Qed.

Lemma finish_chained rt fileInfo O st :
  linked O st -> chained O (finish rt fileInfo st).
Proof.
  intros (Hcur & Hchain & Hlast). unfold finish.
  destruct (_ >? _)%Z; trivial.
  apply chained_snoc; trivial. intros a Ha.
  destruct (Hlast a Ha) as [Hink Hov].
  cbn [content createChunkObject]. now rewrite trim_endsInk.
Qed.

Lemma createChunks_chained cfg rt text fileInfo options :
  (0 < orZ (chunkOverlap options) (CHUNK_OVERLAP cfg))%Z ->
  chained (orZ (chunkOverlap options) (CHUNK_OVERLAP cfg))
    (createChunks cfg rt text fileInfo options).
Proof.
  intros HO. unfold createChunks. apply finish_chained, loop_linked; trivial.
  - eapply Forall_impl; [|apply sentences_clean]. now intros ? [_ ?].
  - split; [now left|]. split; [exact I|]. intros c Hc. discriminate.
Qed.

(** C4, as the code has it: with a positive overlap [O], the content of a
    chunk begins with the last [O] units of the content of the chunk before
    it (all of it when it has no more than [O] units), once the white space
    that opens these units is removed; so with these units themselves when
    they begin with ink. *)
Theorem next_chunk_starts_with_overlap cfg rt text fileInfo options i a b :
  let O := orZ (chunkOverlap options) (CHUNK_OVERLAP cfg) in
  (0 < O)%Z ->
  nth_error (createChunks cfg rt text fileInfo options) i = Some a ->
  nth_error (createChunks cfg rt text fileInfo options) (S i) = Some b ->
  startsWith (content b) (trimStart (getOverlapText (content a) O)) = true
  /\ (startsInk (getOverlapText (content a) O) ->
      startsWith (content b) (getOverlapText (content a) O) = true).
Proof.
  intros O HO Ha Hb.
  pose proof (createChunks_chained cfg rt text fileInfo options HO) as Hch.
  destruct (chained_nth _ _ _ Hch Ha Hb) as [rest Hrest]. fold O in Hrest.
  assert (Hstart : startsWith (content b)
                     (trimStart (getOverlapText (content a) O)) = true).
  { rewrite Hrest. apply startsWith_app. }
  split; [exact Hstart|].
  intros Hink. now rewrite trimStart_startsInk in Hstart.
Qed.

Lemma next_chunk_starts_with_overlap_witness :
  exists a b,
    nth_error (createChunks defaultConfig aRuntime (str "ab. cd. efg.") aFile
                 {| chunkSize := Some 5%Z; chunkOverlap := Some 3%Z |}) 0
    = Some a
    /\ nth_error (createChunks defaultConfig aRuntime (str "ab. cd. efg.") aFile
                    {| chunkSize := Some 5%Z; chunkOverlap := Some 3%Z |}) 1
      = Some b
    /\ startsWith (content b) (trimStart (getOverlapText (content a) 3)) = true
    /\ (startsInk (getOverlapText (content a) 3) ->
        startsWith (content b) (getOverlapText (content a) 3) = true).
Proof.
  eexists. eexists. split; [reflexivity|]. split; [reflexivity|].
  exact (next_chunk_starts_with_overlap defaultConfig aRuntime
           (str "ab. cd. efg.") aFile
           {| chunkSize := Some 5%Z; chunkOverlap := Some 3%Z |} 0
           eq_refl eq_refl eq_refl).
Defined.

(** The text "ab. cd. efg." with chunks of 5 and an overlap of 3 gives the
    chunks "ab cd" and "cdefg": the last 3 units of the first are " cd",
    which do not begin the second. *)
Lemma overlap_is_not_a_prefix :
  let emitted :=
    createChunks defaultConfig aRuntime (str "ab. cd. efg.") aFile
      {| chunkSize := Some 5%Z; chunkOverlap := Some 3%Z |} in
  map content emitted = [str "ab cd"; str "cdefg"]
  /\ getOverlapText (str "ab cd") 3 = str " cd"
  /\ ~ (forall i a b,
          nth_error emitted i = Some a -> nth_error emitted (S i) = Some b ->
          startsWith (content b) (getOverlapText (content a) 3) = true).
Proof.
  split; [reflexivity|]. split; [reflexivity|].
  intros Hall. specialize (Hall 0 _ _ eq_refl eq_refl).
  vm_compute in Hall. discriminate.
Qed.

End ChunkerFacts.

(* ================================================================== *)
(** * Properties of the embedding client *)

Module EmbeddingFacts.
Import JS EmbeddingService BatchVocabulary.
Unset Implicit Arguments.

(** ** The groups *)

Lemma groupsWithin_concat {A} k n (l : list A) :
  1 <= n -> length l <= k -> concat (groupsWithin k n l) = l.
Proof.
  intros Hn. revert l. induction k as [|k IH]; intros l Hk.
  - destruct l; [reflexivity | simpl in Hk; lia].
  - destruct l as [|x l]; [reflexivity|].
    cbn [groupsWithin concat]. rewrite IH.
    + apply firstn_skipn.
    + rewrite length_skipn. simpl length in *. lia.
Qed.

Lemma groupsWithin_sizes {A} k n (l : list A) :
  1 <= n -> Forall (fun g => 1 <= length g <= n) (groupsWithin k n l).
Proof.
  intros Hn. revert l. induction k as [|k IH]; intros l.
  - constructor.
  - destruct l as [|x l]; [constructor|].
    cbn [groupsWithin]. constructor; [|apply IH].
    rewrite length_firstn. simpl length. lia.
Qed.

Lemma groupsWithin_full {A} k n (l : list A) i g :
  nth_error (groupsWithin k n l) i = Some g ->
  S i < length (groupsWithin k n l) ->
  length g = n.
Proof.
  revert l i. induction k as [|k IH]; intros l i Hg Hi.
  - simpl in Hi. lia.
  - destruct l as [|x l]; [simpl in Hi; lia|].
    cbn [groupsWithin] in *. destruct i as [|i].
    + simpl in Hg. injection Hg as <-. simpl length in Hi.
      rewrite length_firstn.
      destruct (le_lt_dec (length (x :: l)) n) as [Hshort|]; [|lia].
      rewrite skipn_all2 in Hi by exact Hshort.
      destruct k; simpl in Hi; lia.
    + simpl in Hg. simpl length in Hi. apply (IH _ i Hg). lia.
Qed.

(** ** One request *)

Lemma generateEmbeddings_answer {W} `{Provider W} cfg t texts w :
  generateEmbeddings cfg (t :: texts) w =
  (answer cfg (fst (post (t :: texts) w)), snd (post (t :: texts) w)).
Proof.
  unfold generateEmbeddings, answer.
  destruct (post (t :: texts) w) as [[status data|status statusText|what] w'];
    simpl; trivial.
  destruct (negb (status =? 200)%Z); trivial. now destruct data.
Qed.

(** One iteration of the [while] loop. *)
Lemma retryLoop_S {W} `{Provider W} cfg maxRetries more batch attempts w :
  retryLoop cfg maxRetries more batch (S attempts) w =
  match generateEmbeddings cfg batch w with
  | (Returned e, w') =>
      (Returned (Some e), if more then setTimeout 1000 w' else w')
  | (Thrown error, w') =>
      if maxRetries <=? maxRetries - attempts then (Thrown error, w')
      else retryLoop cfg maxRetries more batch attempts
             (setTimeout (2 ^ Z.of_nat (maxRetries - attempts) * 1000) w')
  | (Diverged, w') => (Diverged, w')
  end.
Proof.
  cbn [retryLoop]. unfold tryCatch, bind at 1.
  destruct (generateEmbeddings cfg batch w) as [[e|error|] w'].
  - unfold bind. destruct more; reflexivity.
  - destruct (maxRetries <=? maxRetries - attempts); reflexivity.
  - reflexivity.
Qed.

(** ** The loop over the batches is the loop over the groups *)

Lemma batchLoop_groups {W} `{Provider W} cfg texts batchSize maxRetries
    fuel i allEmbeddings w :
  1 <= batchSize -> length texts - i <= fuel ->
  batchLoop cfg texts batchSize maxRetries fuel i allEmbeddings w =
  processGroups cfg maxRetries (groupsWithin fuel batchSize (skipn i texts))
    allEmbeddings w.
Proof.
  intros Hb. revert i allEmbeddings w.
  induction fuel as [|fuel IH]; intros i allEmbeddings w Hfuel.
  - cbn [batchLoop groupsWithin processGroups].
    destruct (Nat.ltb_spec i (length texts)); [lia | reflexivity].
  - cbn [batchLoop]. destruct (Nat.ltb_spec i (length texts)) as [Hi|Hi].
    + destruct (skipn i texts) as [|t rest] eqn:Hskip.
      { apply (f_equal (@length _)) in Hskip. rewrite length_skipn in Hskip.
        simpl in Hskip. lia. }
      cbn [groupsWithin processGroups]. unfold sliceArray. rewrite Hskip.
      assert (Hnext : skipn batchSize (t :: rest)
                      = skipn (i + batchSize) texts).
      { rewrite <- Hskip, skipn_skipn. f_equal. lia. }
      rewrite Hnext.
      assert (Hmore : (i + batchSize <? length texts) =
                      match groupsWithin fuel batchSize
                              (skipn (i + batchSize) texts) with
                      | [] => false | _ :: _ => true end).
      { destruct (Nat.ltb_spec (i + batchSize) (length texts)) as [Hlt|Hge].
        - destruct (skipn (i + batchSize) texts) as [|t' rest'] eqn:Hs.
          + apply (f_equal (@length _)) in Hs. rewrite length_skipn in Hs.
            simpl in Hs. lia.
          + destruct fuel; [lia | reflexivity].
        - rewrite skipn_all2 by exact Hge. now destruct fuel. }
      rewrite Hmore. unfold bind.
      destruct (retryLoop _ _ _ _ _ _) as [[pushed|e|] w']; trivial.
      apply IH. lia.
    + rewrite skipn_all2 by exact Hi. reflexivity.
Qed.

Lemma generateEmbeddingsBatch_groups {W} `{Provider W} cfg texts batchSize
    maxRetries w :
  1 <= batchSize ->
  generateEmbeddingsBatch cfg texts batchSize maxRetries w =
  processGroups cfg maxRetries (groups batchSize texts) [] w.
Proof.
  intros Hb. unfold generateEmbeddingsBatch, groups.
  rewrite batchLoop_groups by (trivial; lia). reflexivity.
Qed.

(** With [batchSize = 0] on a non-empty input the loop never ends. *)
Lemma batchLoop_zero_diverges {W} `{Provider W} cfg texts maxRetries fuel
    allEmbeddings w :
  texts <> [] ->
  fst (batchLoop cfg texts 0 maxRetries fuel 0 allEmbeddings w) = Diverged.
Proof.
  intros Hne. revert allEmbeddings w.
  induction fuel as [|fuel IH]; intros allEmbeddings w;
    destruct texts as [|t texts]; try easy.
  cbn [batchLoop]. change (0 <? length (t :: texts)) with true. cbv iota.
  unfold sliceArray. cbn [firstn skipn]. unfold bind.
  destruct maxRetries as [|m].
  - cbn [retryLoop]. unfold ret. cbn [Nat.add]. apply IH.
  - rewrite retryLoop_S. cbn [generateEmbeddings Nat.add]. apply IH.
Qed.

(** With [maxRetries = 0] no request is made and nothing is returned. *)
Lemma processGroups_without_attempt {W} `{Provider W} cfg gs allEmbeddings w :
  processGroups cfg 0 gs allEmbeddings w = (Returned allEmbeddings, w).
Proof.
  revert allEmbeddings. induction gs as [|g gs IH]; intros allEmbeddings.
  - reflexivity.
  - cbn [processGroups retryLoop]. unfold bind, ret. rewrite IH.
    now rewrite app_nil_r.
Qed.

Lemma generateEmbeddingsBatch_without_attempt {W} `{Provider W} cfg texts
    batchSize w :
  1 <= batchSize ->
  generateEmbeddingsBatch cfg texts batchSize 0 w = (Returned [], w).
Proof.
  intros Hb. rewrite generateEmbeddingsBatch_groups by exact Hb.
  apply processGroups_without_attempt.
Qed.

(** ** The attempts on one group, against a scripted provider *)

Lemma scripted_request cfg t g outcome rest requests slept :
  generateEmbeddings cfg (t :: g)
    {| script := outcome :: rest; posts := requests; waits := slept |} =
  (answer cfg outcome,
   {| script := rest; posts := requests ++ [t :: g]; waits := slept |}).
Proof. now rewrite generateEmbeddings_answer. Qed.

Lemma retry_succeeds cfg maxRetries more g fs data rest :
  g <> [] -> Forall (failing cfg) fs ->
  forall attempts requests slept,
    length fs < attempts -> attempts <= maxRetries ->
    exists slept',
      retryLoop cfg maxRetries more g attempts
        {| script := fs ++ Response 200 (DataArray data) :: rest;
           posts := requests; waits := slept |} =
      (Returned (Some (validEmbeddings cfg data)),
       {| script := rest; posts := requests ++ repeat g (S (length fs));
          waits := slept' |}).
Proof.
  intros Hg Hfs. destruct g as [|t g]; [now elim Hg|].
  induction Hfs as [|o fs [e He] Hfs IH]; intros attempts requests slept Hlt Hle;
    (destruct attempts as [|a]; [lia|]); rewrite retryLoop_S;
    cbn [app]; rewrite scripted_request.
  - cbn [answer Z.eqb Pos.eqb negb]. destruct more; eexists; reflexivity.
  - rewrite He. destruct (Nat.leb_spec maxRetries (maxRetries - a)) as [|_].
    + simpl length in Hlt. lia.
    + cbn [setTimeout scripted script posts waits].
      destruct (IH a (requests ++ [t :: g])
                  (slept ++ [(2 ^ Z.of_nat (maxRetries - a) * 1000)%Z]))
        as [slept' Hrun]; [simpl length in Hlt; lia | lia |].
      exists slept'. rewrite Hrun. now rewrite <- app_assoc.
Qed.

Lemma retry_exhausts cfg maxRetries more g :
  g <> [] ->
  forall fs, Forall (failing cfg) fs ->
  forall attempts requests slept e rest,
    length fs = attempts -> 1 <= attempts -> attempts <= maxRetries ->
    answer cfg (last fs (Failure "")) = Thrown e ->
    exists slept',
      retryLoop cfg maxRetries more g attempts
        {| script := fs ++ rest; posts := requests; waits := slept |} =
      (Thrown e,
       {| script := rest; posts := requests ++ repeat g attempts;
          waits := slept' |}).
Proof.
  intros Hg. destruct g as [|t g]; [now elim Hg|].
  intros fs Hfs.
  induction Hfs as [|o fs [e0 He0] Hfs IH];
    intros attempts requests slept e rest Hlen H1 Hle Hlast.
  - simpl in Hlen. lia.
  - destruct attempts as [|a]; [lia|]. rewrite retryLoop_S.
    cbn [app]. rewrite scripted_request, He0.
    simpl length in Hlen. injection Hlen as Hlen.
    destruct fs as [|o' fs].
    + subst a. simpl in Hlast. rewrite He0 in Hlast. injection Hlast as <-.
      rewrite Nat.sub_0_r, Nat.leb_refl. now exists slept.
    + destruct (Nat.leb_spec maxRetries (maxRetries - a)) as [|_].
      { simpl in Hlen. lia. }
      cbn [setTimeout scripted script posts waits].
      destruct (IH a (requests ++ [t :: g])
                  (slept ++ [(2 ^ Z.of_nat (maxRetries - a) * 1000)%Z])
                  e rest Hlen)
        as [slept' Hrun]; [simpl in Hlen; lia | lia | exact Hlast |].
      exists slept'. rewrite Hrun. now rewrite <- app_assoc.
Qed.

(** ** All the groups, against a scripted provider *)

Lemma processGroups_succeed cfg maxRetries gs runs :
  Forall2 (succeedsWithin cfg maxRetries) gs runs ->
  Forall (fun g => g <> []) gs ->
  forall allEmbeddings rest requests slept,
    exists slept',
      processGroups cfg maxRetries gs allEmbeddings
        {| script := flat_map segment runs ++ rest;
           posts := requests; waits := slept |} =
      (Returned (allEmbeddings ++
                 flat_map (fun r => validEmbeddings cfg (items r)) runs),
       {| script := rest;
          posts := requests ++ flat_map attemptsOf (combine gs runs);
          waits := slept' |}).
Proof.
  intros Hruns. induction Hruns as [|g r gs runs [Hfail Hlt] Hruns IH];
    intros Hne allEmbeddings rest requests slept.
  - exists slept. cbn. now rewrite !app_nil_r.
  - apply Forall_cons_iff in Hne as [Hg Hgs].
    cbn [processGroups flat_map combine]. unfold segment at 1, bind.
    rewrite <- !app_assoc. cbn [app].
    destruct (retry_succeeds cfg maxRetries
                (match gs with [] => false | _ :: _ => true end)
                g (failures r) (items r) (flat_map segment runs ++ rest)
                Hg Hfail
                maxRetries requests slept Hlt (le_n _)) as [slept1 Hrun].
    rewrite Hrun.
    destruct (IH Hgs (allEmbeddings ++ validEmbeddings cfg (items r)) rest
                (requests ++ repeat g (S (length (failures r)))) slept1)
      as [slept' Hrest].
    exists slept'. rewrite Hrest. unfold attemptsOf at 2. cbn [fst snd].
    now rewrite <- !app_assoc.
Qed.

Lemma processGroups_fail cfg maxRetries done runs :
  1 <= maxRetries ->
  Forall2 (succeedsWithin cfg maxRetries) done runs ->
  Forall (fun g => g <> []) done ->
  forall g later outcomes e allEmbeddings rest requests slept,
    g <> [] -> exhausts cfg maxRetries outcomes e ->
    exists slept',
      processGroups cfg maxRetries (done ++ g :: later) allEmbeddings
        {| script := flat_map segment runs ++ outcomes ++ rest;
           posts := requests; waits := slept |} =
      (Thrown e,
       {| script := rest;
          posts := requests ++ flat_map attemptsOf (combine done runs)
                   ++ repeat g maxRetries;
          waits := slept' |}).
Proof.
  intros Hm Hruns. induction Hruns as [|d r done runs [Hfail Hlt] Hruns IH];
    intros Hne g later outcomes e allEmbeddings rest requests slept Hg
      (Hlen & Hall & Hlast).
  - cbn [app flat_map combine processGroups]. unfold bind.
    destruct (retry_exhausts cfg maxRetries
                (match later with [] => false | _ :: _ => true end)
                g Hg outcomes Hall maxRetries requests slept e rest
                Hlen Hm (le_n _) Hlast)
      as [slept' Hrun].
    exists slept'. now rewrite Hrun.
  - apply Forall_cons_iff in Hne as [Hd Hdone].
    cbn [app processGroups flat_map combine]. unfold segment at 1, bind.
    rewrite <- !app_assoc. cbn [app].
    destruct (retry_succeeds cfg maxRetries
                (match done ++ g :: later with [] => false | _ :: _ => true end)
                d (failures r) (items r)
                (flat_map segment runs ++ outcomes ++ rest) Hd Hfail
                maxRetries requests slept Hlt (le_n _)) as [slept1 Hrun].
    rewrite Hrun.
    destruct (IH Hdone g later outcomes e
                (allEmbeddings ++ validEmbeddings cfg (items r)) rest
                (requests ++ repeat d (S (length (failures r)))) slept1 Hg
                (conj Hlen (conj Hall Hlast)))
      as [slept' Hrest].
    exists slept'. rewrite Hrest. unfold attemptsOf at 2. cbn [fst snd].
    now rewrite <- !app_assoc.
Qed.

(** ** The order of the result *)

Lemma validEmbeddings_embed cfg (embed : jsstring -> vector) g :
  (forall t, Z.of_nat (length (embed t)) = EMBEDDING_DIMENSION cfg) ->
  validEmbeddings cfg (map (fun t => ItemArray (embed t)) g) = map embed g.
Proof.
  intros Hdim. induction g as [|t g IH]; cbn [map validEmbeddings isValid].
  - reflexivity.
  - rewrite Hdim, Z.eqb_refl. now f_equal.
Qed.

Lemma embeddings_in_order cfg (embed : jsstring -> vector) gs runs :
  (forall t, Z.of_nat (length (embed t)) = EMBEDDING_DIMENSION cfg) ->
  Forall2 (fun g r => items r = map (fun t => ItemArray (embed t)) g) gs runs ->
  flat_map (fun r => validEmbeddings cfg (items r)) runs =
  map embed (concat gs).
Proof.
  intros Hdim Hruns. induction Hruns as [|g r gs runs Hr Hruns IH].
  - reflexivity.
  - cbn [flat_map concat]. rewrite map_app, IH, Hr.
    now rewrite validEmbeddings_embed.
Qed.

(** ** Batches, retries and order *)

(** C3: for [batchSize >= 1] and [maxRetries >= 1], against a provider that
    plays a script: the groups of [generateEmbeddingsBatch] are the
    consecutive groups of [batchSize] texts, the last one possibly smaller;
    when every group succeeds after fewer than [maxRetries] failures, the
    call returns the valid vectors of the groups in order, having requested
    each group once per attempt, group after group; when, the groups before
    it having succeeded, a group fails [maxRetries] times, the call throws
    the last error and returns nothing; and when the provider answers each
    text by its vector, the result is the vectors of the texts in the order
    of the texts. *)
Theorem generateEmbeddingsBatch_by_groups cfg texts batchSize maxRetries :
  1 <= batchSize -> 1 <= maxRetries ->
  let gs := groups batchSize texts in
  (concat gs = texts
   /\ Forall (fun g => 1 <= length g <= batchSize) gs
   /\ (forall i g, nth_error gs i = Some g -> S i < length gs ->
        length g = batchSize))
  /\ (forall runs rest,
        Forall2 (succeedsWithin cfg maxRetries) gs runs ->
        exists slept,
          generateEmbeddingsBatch cfg texts batchSize maxRetries
            (playing (flat_map segment runs ++ rest)) =
          (Returned (flat_map (fun r => validEmbeddings cfg (items r)) runs),
           {| script := rest;
              posts := flat_map attemptsOf (combine gs runs);
              waits := slept |}))
  /\ (forall done g later runs outcomes e rest,
        gs = done ++ g :: later ->
        Forall2 (succeedsWithin cfg maxRetries) done runs ->
        exhausts cfg maxRetries outcomes e ->
        exists slept,
          generateEmbeddingsBatch cfg texts batchSize maxRetries
            (playing (flat_map segment runs ++ outcomes ++ rest)) =
          (Thrown e,
           {| script := rest;
              posts := flat_map attemptsOf (combine done runs)
                       ++ repeat g maxRetries;
              waits := slept |}))
  /\ (forall (embed : jsstring -> vector) runs,
        (forall t, Z.of_nat (length (embed t)) = EMBEDDING_DIMENSION cfg) ->
        Forall2 (fun g r => items r = map (fun t => ItemArray (embed t)) g)
          gs runs ->
        flat_map (fun r => validEmbeddings cfg (items r)) runs =
        map embed texts).
Proof.
  intros Hb Hm gs.
  assert (Hconcat : concat gs = texts)
    by (apply groupsWithin_concat; [exact Hb | apply le_n]).
  assert (Hsizes : Forall (fun g => 1 <= length g <= batchSize) gs)
    by (apply groupsWithin_sizes; exact Hb).
  assert (Hne : Forall (fun g : list jsstring => g <> []) gs).
  { eapply Forall_impl; [|exact Hsizes]. intros [|t g] Hg; [simpl in Hg; lia|].
    discriminate. }
  split; [|split; [|split]].
  - split; [exact Hconcat|]. split; [exact Hsizes|].
    intros i g. apply groupsWithin_full.
  - intros runs rest Hruns.
    destruct (processGroups_succeed cfg maxRetries gs runs Hruns Hne
                [] rest [] []) as [slept Hrun].
    exists slept. rewrite generateEmbeddingsBatch_groups by exact Hb.
    exact Hrun.
  - intros done g later runs outcomes e rest Hgs Hruns Hex.
    fold gs in Hne. rewrite Hgs in Hne. apply Forall_app in Hne as [Hdone Hg].
    apply Forall_cons_iff in Hg as [Hg _].
    destruct (processGroups_fail cfg maxRetries done runs Hm Hruns Hdone
                g later outcomes e [] rest [] [] Hg Hex) as [slept Hrun].
    exists slept. rewrite generateEmbeddingsBatch_groups by exact Hb.
    fold gs. rewrite Hgs. exact Hrun.
  - intros embed runs Hdim Hruns. rewrite <- Hconcat.
    now apply embeddings_in_order.
Qed.

Lemma generateEmbeddingsBatch_by_groups_witness :
  (concat (groups 10 sampleTexts) = sampleTexts
   /\ Forall (fun g => 1 <= length g <= 10) (groups 10 sampleTexts)
   /\ (forall i g, nth_error (groups 10 sampleTexts) i = Some g ->
        S i < length (groups 10 sampleTexts) -> length g = 10))
  /\ (forall runs rest,
        Forall2 (succeedsWithin sampleConfig 3) (groups 10 sampleTexts) runs ->
        exists slept,
          generateEmbeddingsBatch sampleConfig sampleTexts 10 3
            (playing (flat_map segment runs ++ rest)) =
          (Returned
             (flat_map (fun r => validEmbeddings sampleConfig (items r)) runs),
           {| script := rest;
              posts := flat_map attemptsOf
                         (combine (groups 10 sampleTexts) runs);
              waits := slept |}))
  /\ (forall done g later runs outcomes e rest,
        groups 10 sampleTexts = done ++ g :: later ->
        Forall2 (succeedsWithin sampleConfig 3) done runs ->
        exhausts sampleConfig 3 outcomes e ->
        exists slept,
          generateEmbeddingsBatch sampleConfig sampleTexts 10 3
            (playing (flat_map segment runs ++ outcomes ++ rest)) =
          (Thrown e,
           {| script := rest;
              posts := flat_map attemptsOf (combine done runs) ++ repeat g 3;
              waits := slept |}))
  /\ (forall (embed : jsstring -> vector) runs,
        (forall t, Z.of_nat (length (embed t))
                   = EMBEDDING_DIMENSION sampleConfig) ->
        Forall2 (fun g r => items r = map (fun t => ItemArray (embed t)) g)
          (groups 10 sampleTexts) runs ->
        flat_map (fun r => validEmbeddings sampleConfig (items r)) runs =
        map embed sampleTexts).
Proof.
  apply (generateEmbeddingsBatch_by_groups sampleConfig sampleTexts 10 3).
  - repeat constructor.
  - repeat constructor.
Defined.

(** The scenario itself: three batches of 10, 10 and 5 texts, the second
    one requested three times, 25 vectors in the order of the texts; the
    waits are the two back-offs and the pauses between batches. *)
Example batch_scenario :
  map (@length _) (groups 10 sampleTexts) = [10; 10; 5]
  /\ generateEmbeddingsBatch sampleConfig sampleTexts 10 3
       (playing (flat_map segment sampleRuns)) =
     (Returned (map sampleEmbed sampleTexts),
      {| script := [];
         posts := [ firstn 10 sampleTexts;
                    firstn 10 (skipn 10 sampleTexts);
                    firstn 10 (skipn 10 sampleTexts);
                    firstn 10 (skipn 10 sampleTexts);
                    skipn 20 sampleTexts ];
         waits := [1000; 2000; 4000; 1000]%Z |})
  /\ length (map sampleEmbed sampleTexts) = 25.
Proof. split; [|split]; vm_compute; reflexivity. Qed.

(** A batch that fails three times: the call throws, whatever came
    before. *)
Example batch_exhausted :
  fst (generateEmbeddingsBatch sampleConfig sampleTexts 10 3
         (playing [ Response 200 (DataArray (sampleData (firstn 10 sampleTexts)));
                    AxiosError (Some 429%Z) None;
                    AxiosError (Some 429%Z) None;
                    AxiosError (Some 429%Z) None ])) =
  Thrown (Err "Rate limit exceeded. Please try again later.").
Proof. vm_compute. reflexivity. Qed.

End EmbeddingFacts.

(* ================================================================== *)
(** * Properties of the cosine similarity *)

Module CosineFacts.
Import EmbeddingService CosineVocabulary.
Unset Implicit Arguments.

Section AnyArithmetic.
Context {num : Type} `{Arith num}.

Lemma accumulate_split (a b : list num) dotProduct norm1 norm2 :
  length a = length b ->
  fold_left
    (fun acc xy =>
       let '(dotProduct, norm1, norm2) := acc in
       let '(x, y) := xy in
       (add dotProduct (mul x y), add norm1 (mul x x), add norm2 (mul y y)))
    (combine a b) (dotProduct, norm1, norm2) =
  (fold_left (fun acc xy => add acc (mul (fst xy) (snd xy))) (combine a b)
     dotProduct,
   fold_left (fun acc x => add acc (mul x x)) a norm1,
   fold_left (fun acc x => add acc (mul x x)) b norm2).
Proof.
  revert b dotProduct norm1 norm2.
  induction a as [|x a IH]; intros [|y b] d n1 n2 Hlen; try discriminate.
  - reflexivity.
  - cbn [combine fold_left fst snd]. apply IH. now injection Hlen.
Qed.

Lemma accumulate_parts (a b : list num) :
  length a = length b -> accumulate a b = (dot a b, sumsq a, sumsq b).
Proof. intros Hlen. unfold accumulate. now rewrite accumulate_split. Qed.


Lemma cosine_mismatch (a b : list num) :
  calculateCosineSimilarity a b =
    inl (Err "Embeddings must have the same dimension")
  <-> length a <> length b.
Proof.
  unfold calculateCosineSimilarity.
  destruct (Nat.eqb_spec (length a) (length b)) as [Heq|Hne]; cbn [negb].
  - rewrite (accumulate_parts a b Heq).
    split; [|now intros []].
    destruct (_ || _); discriminate.
  - split; trivial.
Qed.

Lemma cosine_value (a b : list num) :
  length a = length b ->
  calculateCosineSimilarity a b =
  inr (if isZero (sqrt (sumsq a)) || isZero (sqrt (sumsq b)) then zero
       else div (dot a b) (mul (sqrt (sumsq a)) (sqrt (sumsq b)))).
Proof.
  intros Heq. unfold calculateCosineSimilarity.
  rewrite Heq, Nat.eqb_refl. cbn [negb].
  rewrite (accumulate_parts a b Heq). now destruct (_ || _).
Qed.


End AnyArithmetic.

(** ** Exact arithmetic *)

Lemma sumsq_from_grows (v : list R) (acc : R) :
  (acc <= fold_left (fun acc x => acc + x * x) v acc)%R.
Proof.
  revert acc. induction v as [|x v IH]; intros acc; cbn [fold_left].
  - apply Rle_refl.
  - eapply Rle_trans; [|apply IH]. pose proof (Rle_0_sqr x) as Hx.
    unfold Rsqr in Hx. lra.
Qed.



(** ** Binary64 *)





(** Ordinary vectors in binary64. *)
Example cosine_examples :
  calculateCosineSimilarity [3; 4]%float [3; 4]%float = inr 1%float
  /\ calculateCosineSimilarity [1; 0]%float [0; 1]%float = inr 0%float
  /\ calculateCosineSimilarity [1; 2]%float [1; 2; 3]%float
     = inl (Err "Embeddings must have the same dimension").
Proof. repeat split; vm_compute; reflexivity. Qed.

End CosineFacts.

(* ================================================================== *)
(** * Properties of the adapter and of the orchestrator *)

Module AdapterFacts.
Import JS FileProcessor EmbeddingService VectorDatabase RAGService MCPRAGServer.
Import Vocabulary BatchVocabulary AdapterVocabulary.
Unset Implicit Arguments.

(** ** A single embedding *)

Lemma generateSingleEmbedding_first {W} `{Provider W} cfg text w embeddings w' :
  generateEmbeddings cfg [text] w = (Returned embeddings, w') ->
  generateSingleEmbedding cfg text w = (Returned (nth 0 embeddings []), w').
Proof.
  intros Hgen. unfold generateSingleEmbedding, bind. rewrite Hgen.
  now destruct embeddings.
Qed.

Lemma generateSingleEmbedding_empty {W} `{Provider W} cfg text w data w' :
  post [text] w = (Response 200 (DataArray data), w') ->
  validEmbeddings cfg data = [] ->
  generateSingleEmbedding cfg text w = (Returned [], w').
Proof.
  intros Hpost Hvalid.
  rewrite (generateSingleEmbedding_first cfg text w [] w'); [reflexivity|].
  rewrite EmbeddingFacts.generateEmbeddings_answer, Hpost.
  cbn [fst snd BatchVocabulary.answer Z.eqb Pos.eqb negb]. now rewrite Hvalid.
Qed.

(** C10: [generateSingleEmbedding] returns the first vector that
    [generateEmbeddings] returns, and the empty vector when there is none.
    So, when the provider answers 200 with an array none of whose elements
    is a valid vector, it returns the empty vector and does not throw;
    [addMemory] then upserts a record whose values are the empty vector;
    and [testConnection], the dimension configured not being 0, returns
    false. *)
Theorem empty_answer_is_the_empty_vector
    {W S} `{Provider W} `{VectorIndex S} cfg :
  (forall text w embeddings w',
     generateEmbeddings cfg [text] w = (Returned embeddings, w') ->
     generateSingleEmbedding cfg text w = (Returned (nth 0 embeddings []), w'))
  /\ (forall text w data w',
        post [text] w = (Response 200 (DataArray data), w') ->
        validEmbeddings cfg data = [] ->
        generateSingleEmbedding cfg text w = (Returned [], w')
        /\ (forall entry (s : S),
              me_content entry = text ->
              addMemory cfg entry (w, s) =
              tryCatch (onIndex (upsert memoryIndex [memoryRecord entry []]))
                (fun error => throw (Wrap "Failed to add memory entry" error))
                (w', s))
        /\ (text = str "test" -> EMBEDDING_DIMENSION cfg <> 0%Z ->
            testConnection cfg w = (Returned false, w')
            /\ testEmbeddingService cfg w = (Returned false, w'))).
Proof.
  split; [intros; now apply generateSingleEmbedding_first|].
  intros text w data w' Hpost Hvalid.
  pose proof (generateSingleEmbedding_empty cfg text w data w' Hpost Hvalid)
    as Hsingle.
  split; [exact Hsingle|]. split.
  - intros entry s <-. unfold addMemory, tryCatch, bind, onProvider.
    cbn [fst snd]. rewrite Hsingle. reflexivity.
  - intros -> Hdim.
    assert (Htest : testConnection cfg w = (Returned false, w')).
    { unfold testConnection, tryCatch, bind. rewrite Hsingle.
      unfold ret. cbn [length Z.of_nat].
      destruct (Z.eqb_spec 0 (EMBEDDING_DIMENSION cfg)) as [Hz|_]; trivial.
      now elim Hdim. }
    split; [exact Htest|].
    unfold testEmbeddingService, tryCatch. now rewrite Htest.
Qed.

Lemma empty_answer_is_the_empty_vector_witness :
  generateSingleEmbedding defaultConfig (str "test") wrongDimension
    = (Returned [],
       {| script := []; posts := [[str "test"]]; waits := [] |})
  /\ (forall entry (s : FakeStore),
        me_content entry = str "test" ->
        addMemory defaultConfig entry (wrongDimension, s) =
        tryCatch (onIndex (upsert memoryIndex [memoryRecord entry []]))
          (fun error => throw (Wrap "Failed to add memory entry" error))
          ({| script := []; posts := [[str "test"]]; waits := [] |}, s))
  /\ (str "test" = str "test" -> EMBEDDING_DIMENSION defaultConfig <> 0%Z ->
      testConnection defaultConfig wrongDimension
        = (Returned false,
           {| script := []; posts := [[str "test"]]; waits := [] |})
      /\ testEmbeddingService defaultConfig wrongDimension
         = (Returned false,
            {| script := []; posts := [[str "test"]]; waits := [] |})).
Proof.
  apply (proj2 (@empty_answer_is_the_empty_vector Scripted FakeStore _ _
                  defaultConfig)
           (str "test") wrongDimension [ItemArray [PrimFloat.one]]).
  - reflexivity.
  - reflexivity.
Defined.

(** The memory whose content gets no valid vector is stored with an empty
    vector. *)
Example addMemory_stores_an_empty_vector :
  let '(r, (_, s)) :=
    addMemory defaultConfig aMemory
      (playing [Response 200 (DataArray [])], emptyStore) in
  r = Returned tt
  /\ map (fun x => (vr_id x, values x)) (stored (fakeMemory s))
     = [(str "memory-1", Some [])].
Proof. vm_compute. split; reflexivity. Qed.

(** ** Upserting the chunks *)

Lemma toRecords_length embeddings index chunks :
  length (toRecords embeddings index chunks) = length chunks.
Proof.
  revert index. induction chunks as [|c chunks IH]; intros index; simpl;
    [reflexivity | now rewrite IH].
Qed.

Lemma toRecords_nth embeddings index chunks i chunk :
  nth_error chunks i = Some chunk ->
  exists r,
    nth_error (toRecords embeddings index chunks) i = Some r
    /\ vr_id r = id chunk
    /\ values r = nth_error embeddings (index + i)
    /\ get "content" (vr_metadata r) = Some (MString (content chunk)).
Proof.
  revert index i. induction chunks as [|c chunks IH]; intros index i Hi.
  - now destruct i.
  - destruct i as [|i].
    + injection Hi as ->. eexists. split; [reflexivity|].
      cbn [vr_id values]. rewrite Nat.add_0_r. repeat split.
    + destruct (IH (S index) i Hi) as (r & Hr & Hid & Hv & Hc).
      exists r. split; [exact Hr|]. split; [exact Hid|]. split; [|exact Hc].
      rewrite Hv. f_equal. lia.
Qed.

(** C9: when the batch of embeddings returns, [addDocuments] goes on to the
    upsert, whatever the number of vectors; the upsert gets one record per
    chunk, the i-th with the id and the content of the i-th chunk and, for
    values, the i-th vector if there is one, and nothing otherwise. *)
Theorem addDocuments_pairs_by_position
    {W S} `{Provider W} `{VectorIndex S} cfg chunks w (s : S) embeddings w' :
  chunks <> [] ->
  generateEmbeddingsBatch cfg (map content chunks) 10 3 w
    = (Returned embeddings, w') ->
  addDocuments cfg chunks (w, s) =
    tryCatch (onIndex (upsert filesIndex (toRecords embeddings 0 chunks)))
      (fun error =>
         throw (Wrap "Failed to add documents to vector database" error))
      (w', s)
  /\ length (toRecords embeddings 0 chunks) = length chunks
  /\ (forall i chunk,
        nth_error chunks i = Some chunk ->
        exists r,
          nth_error (toRecords embeddings 0 chunks) i = Some r
          /\ vr_id r = id chunk
          /\ get "content" (vr_metadata r) = Some (MString (content chunk))
          /\ values r = nth_error embeddings i
          /\ (length embeddings <= i -> values r = None)).
Proof.
  intros Hne Hbatch. split; [|split].
  - destruct chunks as [|c chunks]; [now elim Hne|].
    unfold addDocuments, tryCatch, bind, onProvider. cbn [fst snd].
    rewrite Hbatch. reflexivity.
  - apply toRecords_length.
  - intros i chunk Hi.
    destruct (toRecords_nth embeddings 0 chunks i chunk Hi)
      as (r & Hr & Hid & Hv & Hc).
    exists r. repeat (split; trivial).
    intros Hlen. rewrite Hv. now apply nth_error_None.
Qed.

Lemma addDocuments_pairs_by_position_witness :
  addDocuments sampleConfig twoChunks (secondDropped, emptyStore) =
    tryCatch
      (onIndex (upsert filesIndex
                  (toRecords [[PrimFloat.one; PrimFloat.zero]] 0 twoChunks)))
      (fun error =>
         throw (Wrap "Failed to add documents to vector database" error))
      ({| script := []; posts := [map content twoChunks]; waits := [] |},
       emptyStore)
  /\ length (toRecords [[PrimFloat.one; PrimFloat.zero]] 0 twoChunks)
     = length twoChunks
  /\ (forall i chunk,
        nth_error twoChunks i = Some chunk ->
        exists r,
          nth_error (toRecords [[PrimFloat.one; PrimFloat.zero]] 0 twoChunks) i
            = Some r
          /\ vr_id r = id chunk
          /\ get "content" (vr_metadata r) = Some (MString (content chunk))
          /\ values r = nth_error [[PrimFloat.one; PrimFloat.zero]] i
          /\ (length [[PrimFloat.one; PrimFloat.zero]] <= i ->
              values r = None)).
Proof.
  apply (@addDocuments_pairs_by_position Scripted FakeStore _ _ sampleConfig
           twoChunks secondDropped emptyStore).
  - discriminate.
  - reflexivity.
Defined.

(** The second chunk, whose vector was dropped, is stored without
    values. *)
Example addDocuments_stores_a_record_without_values :
  let '(r, (_, s)) :=
    addDocuments sampleConfig twoChunks (secondDropped, emptyStore) in
  r = Returned tt
  /\ map (fun x => (get "content" (vr_metadata x), values x))
       (stored (fakeFiles s))
     = [ (Some (MString (str "ab cd")), Some [PrimFloat.one; PrimFloat.zero]);
         (Some (MString (str "cdefg")), None) ].
Proof. vm_compute. split; reflexivity. Qed.

(** ** Searching *)

Lemma collect_threshold t ms :
  Forall (fun r => (t <= score r)%Q) (collect t ms).
Proof.
  induction ms as [|m ms IH]; cbn [collect]; [constructor|].
  destruct (m_metadata m); trivial.
  destruct (Qle_bool t (orQ (m_score m) 0)) eqn:Hle; trivial.
  constructor; trivial. now apply Qle_bool_iff.
Qed.

Lemma collect_length t ms : length (collect t ms) <= length ms.
Proof.
  induction ms as [|m ms IH]; cbn [collect]; trivial.
  destruct (m_metadata m); [|simpl; lia].
  destruct (Qle_bool t (orQ (m_score m) 0)); simpl; lia.
Qed.

(** A requested threshold is at most the threshold in force. *)
Lemma requested_threshold t : (t <= orQ (Some t) (7 # 10))%Q.
Proof.
  unfold orQ. destruct (Qeq_bool t 0) eqn:Hz; [|apply Qle_refl].
  apply Qeq_bool_iff in Hz. rewrite Hz. discriminate.
Qed.

Lemma orZ_twice l : orZ (Some (orZ l 10)) 10 = orZ l 10.
Proof.
  unfold orZ. destruct l as [v|]; [|reflexivity].
  destruct (Z.eqb_spec v 0); [reflexivity|].
  now destruct (Z.eqb_spec v 0).
Qed.

Lemma orQ_twice t : orQ (Some (orQ t (7 # 10))) (7 # 10) = orQ t (7 # 10).
Proof.
  unfold orQ. destruct t as [v|]; [|reflexivity].
  destruct (Qeq_bool v 0) eqn:Hz; [reflexivity|]. now rewrite Hz.
Qed.

Section Searching.
Context {W S : Type} `{Provider W} `{VectorIndex S}.
Variable cfg : Config.
Hypothesis contract : @respectsTopK S _.

Lemma search_results index failure q options st results st' :
  search cfg index failure q options st = (Returned results, st') ->
  Forall (fun r => (orQ (threshold options) (7 # 10) <= score r)%Q) results
  /\ (Z.of_nat (length results) <= Z.max 0 (orZ (limit options) 10))%Z.
Proof.
  unfold search, tryCatch, bind, onProvider, onIndex. cbn [fst snd].
  destruct (generateQueryEmbedding cfg q (fst st)) as [[v|e|] w'];
    cbn [fst snd]; try discriminate.
  destruct (query index _ (snd st)) as [[response|e|] s'] eqn:Hquery;
    try discriminate.
  unfold ret. intros Hret. injection Hret as <- _.
  destruct (matches response) as [ms|] eqn:Hms.
  - split; [apply collect_threshold|].
    pose proof (contract _ _ _ _ _ _ Hquery Hms) as Hk. cbn [topK] in Hk.
    pose proof (collect_length (orQ (threshold options) (7 # 10)) ms). lia.
  - split; [constructor|]. simpl. lia.
Qed.

(** What the two searches of the service return. *)
Lemma service_search_results q options st results st' :
  (RAGService.searchFiles cfg q options st = (Returned results, st')
   \/ exists agentId,
        RAGService.searchMemory cfg q agentId options st
        = (Returned results, st')) ->
  Forall (fun r => (orQ (threshold options) (7 # 10) <= score r)%Q) results
  /\ (Z.of_nat (length results) <= Z.max 0 (orZ (limit options) 10))%Z.
Proof.
  intros [Hfiles|[agentId Hmemory]].
  - unfold RAGService.searchFiles, tryCatch in Hfiles.
    destruct (searchDocuments cfg q options st) as [[r|e|] st1] eqn:Hs;
      try discriminate.
    injection Hfiles as <- <-. exact (search_results _ _ _ _ _ _ _ Hs).
  - unfold RAGService.searchMemory, tryCatch in Hmemory.
    destruct (VectorDatabase.searchMemory cfg q _ st) as [[r|e|] st1] eqn:Hs;
      try discriminate.
    injection Hmemory as <- <-.
    apply search_results in Hs.
    destruct agentId as [a|]; [destruct (truthy a)|]; exact Hs.
Qed.

End Searching.

Lemma fake_respectsTopK : @respectsTopK FakeStore _.
Proof.
  intros name request s s' response ms Hquery Hms.
  cbn [query fake] in Hquery.
  destruct (Z.ltb_spec (topK request) 0) as [|Hk]; [discriminate|].
  unfold fakeCall in Hquery. destruct (reachable (indexOf name s)); [|discriminate].
  injection Hquery as <- _. cbn [matches] in Hms. injection Hms as <-.
  rewrite length_map, length_firstn. lia.
Qed.

(** C6, as the code has it: against an index that returns at most [topK]
    matches, every result of the two searches of the service, and of their
    two tool handlers, has a score at least the threshold in force, which
    is the requested one, or 0.7 when none or 0 is requested, so at least
    the requested one; and the results are no more than the limit in
    force, which is the requested one, or 10 when none or 0 is requested. *)
Theorem search_respects_threshold_and_limit
    {W S} `{Provider W} `{VectorIndex S} cfg :
  @respectsTopK S _ ->
  (forall q options st results st',
     (RAGService.searchFiles cfg q options st = (Returned results, st')
      \/ exists agentId,
           RAGService.searchMemory cfg q agentId options st
           = (Returned results, st')) ->
     Forall (fun r => (orQ (threshold options) (7 # 10) <= score r)%Q) results
     /\ (forall t, threshold options = Some t ->
          Forall (fun r => (t <= score r)%Q) results)
     /\ (Z.of_nat (length results) <= Z.max 0 (orZ (limit options) 10))%Z
     /\ (forall n, limit options = Some n -> (0 < n)%Z ->
          (Z.of_nat (length results) <= n)%Z))
  /\ (forall args st results st',
        (handleSearchFiles cfg args st = (Returned results, st')
         -> (forall t, sf_threshold args = Some t ->
             Forall (fun r => (t <= score r)%Q) results)
            /\ (Z.of_nat (length results)
                <= Z.max 0 (orZ (sf_limit args) 10))%Z))
  /\ (forall args st results st',
        (handleSearchMemory cfg args st = (Returned results, st')
         -> (forall t, sm_threshold args = Some t ->
             Forall (fun r => (t <= score r)%Q) results)
            /\ (Z.of_nat (length results)
                <= Z.max 0 (orZ (sm_limit args) 10))%Z)).
Proof.
  intros contract.
  assert (Hreq : forall t results,
            Forall (fun r => (orQ (Some t) (7 # 10) <= score r)%Q) results ->
            Forall (fun r => (t <= score r)%Q) results).
  { intros t results. apply Forall_impl. intros r.
    apply Qle_trans, requested_threshold. }
  split; [|split].
  - intros q options st results st' Hsearch.
    destruct (service_search_results cfg contract q options st results st'
                Hsearch) as [Hscore Hcount].
    split; [exact Hscore|]. split; [|split; [exact Hcount|]].
    + intros t Ht. rewrite Ht in Hscore. now apply Hreq.
    + intros n Hn Hpos. rewrite Hn in Hcount. unfold orZ in Hcount.
      destruct (Z.eqb_spec n 0); lia.
  - intros args st results st' Hsearch.
    destruct (service_search_results cfg contract _ _ st results st'
                (or_introl Hsearch)) as [Hscore Hcount].
    cbn [threshold limit] in Hscore, Hcount.
    rewrite orQ_twice in Hscore. rewrite orZ_twice in Hcount.
    split; [|exact Hcount].
    intros t Ht. rewrite Ht in Hscore. now apply Hreq.
  - intros args st results st' Hsearch.
    destruct (service_search_results cfg contract _ _ st results st'
                (or_intror (ex_intro _ (sm_agentId args) Hsearch)))
      as [Hscore Hcount].
    cbn [threshold limit] in Hscore, Hcount.
    rewrite orQ_twice in Hscore. rewrite orZ_twice in Hcount.
    split; [|exact Hcount].
    intros t Ht. rewrite Ht in Hscore. now apply Hreq.
Qed.

Lemma search_respects_threshold_and_limit_witness :
  (forall q options (st : Scripted * FakeStore) results st',
     (RAGService.searchFiles sampleConfig q options st = (Returned results, st')
      \/ exists agentId,
           RAGService.searchMemory sampleConfig q agentId options st
           = (Returned results, st')) ->
     Forall (fun r => (orQ (threshold options) (7 # 10) <= score r)%Q) results
     /\ (forall t, threshold options = Some t ->
          Forall (fun r => (t <= score r)%Q) results)
     /\ (Z.of_nat (length results) <= Z.max 0 (orZ (limit options) 10))%Z
     /\ (forall n, limit options = Some n -> (0 < n)%Z ->
          (Z.of_nat (length results) <= n)%Z))
  /\ (forall args (st : Scripted * FakeStore) results st',
        (handleSearchFiles sampleConfig args st = (Returned results, st')
         -> (forall t, sf_threshold args = Some t ->
             Forall (fun r => (t <= score r)%Q) results)
            /\ (Z.of_nat (length results)
                <= Z.max 0 (orZ (sf_limit args) 10))%Z))
  /\ (forall args (st : Scripted * FakeStore) results st',
        (handleSearchMemory sampleConfig args st = (Returned results, st')
         -> (forall t, sm_threshold args = Some t ->
             Forall (fun r => (t <= score r)%Q) results)
            /\ (Z.of_nat (length results)
                <= Z.max 0 (orZ (sm_limit args) 10))%Z)).
Proof.
  exact (@search_respects_threshold_and_limit Scripted FakeStore _ _
           sampleConfig fake_respectsTopK).
Defined.

(** A search that asks for a limit of 0, against an index that honours
    [topK], returns a result: the limit in force is 10. *)
Lemma zero_limit_returns_a_result :
  @respectsTopK FakeStore _
  /\ (exists results st',
        RAGService.searchFiles sampleConfig (str "query")
          {| limit := Some 0%Z; threshold := Some (7 # 10)%Q; filter := None |}
          (oneVector, oneDocument) = (Returned results, st')
        /\ map sr_id results = [str "doc-1"]
        /\ ~ (Z.of_nat (length results) <= 0)%Z)
  /\ (exists results st',
        handleSearchFiles sampleConfig
          {| sf_query := str "query"; sf_limit := Some 0%Z;
             sf_threshold := None |}
          (oneVector, oneDocument) = (Returned results, st')
        /\ map sr_id results = [str "doc-1"]
        /\ ~ (Z.of_nat (length results) <= 0)%Z).
Proof.
  split; [exact fake_respectsTopK|].
  split; eexists; eexists; (split; [vm_compute; reflexivity|]);
    (split; [reflexivity|]); vm_compute; intros Hle; now apply Hle.
Qed.

(** A search with a threshold and a limit. *)
Example search_example :
  let '(r, _) :=
    handleSearchFiles sampleConfig
      {| sf_query := str "query"; sf_limit := Some 5%Z;
         sf_threshold := Some (95 # 100)%Q |}
      (oneVector, oneDocument) in
  r = Returned [].
Proof. vm_compute. reflexivity. Qed.

(** ** Counting and clearing *)

Lemma countOf_read {S} `{VectorIndex S} index (s : S) r s1 :
  describeIndexStats index s = (r, s1) -> r <> Diverged ->
  countOf index s = (Returned (countRead r), s1).
Proof.
  intros Hd Hr. unfold countOf, tryCatch, bind. rewrite Hd.
  destruct r as [stats|e|]; [reflexivity | reflexivity | now elim Hr].
Qed.

Lemma countOf_never_throws {S} `{VectorIndex S} index (s : S) e :
  fst (countOf index s) <> Thrown e.
Proof.
  unfold countOf, tryCatch, bind.
  destruct (describeIndexStats index s) as [[stats|e'|] s1]; discriminate.
Qed.

(** C2, as the code has it: [getStats] never throws; when the two counts
    are answered, by a number or by a failure, it returns for each
    collection the count read from its own answer, 0 for a failure, and
    their sum; so zeros for both when both fail. *)
Theorem stats_degrade_per_collection {S} `{VectorIndex S} (s : S) :
  (forall e, fst (getStats s) <> Thrown e)
  /\ (forall r1 s1 r2 s2,
        describeIndexStats filesIndex s = (r1, s1) ->
        describeIndexStats memoryIndex s1 = (r2, s2) ->
        r1 <> Diverged -> r2 <> Diverged ->
        getStats s =
        (Returned {| documents := countRead r1;
                     memory := countRead r2;
                     total := (countRead r1 + countRead r2)%Z |}, s2))
  /\ (forall e1 s1 e2 s2,
        describeIndexStats filesIndex s = (Thrown e1, s1) ->
        describeIndexStats memoryIndex s1 = (Thrown e2, s2) ->
        getStats s =
        (Returned {| documents := 0; memory := 0; total := 0 |}, s2)).
Proof.
  assert (Hboth : forall r1 s1 r2 s2,
            describeIndexStats filesIndex s = (r1, s1) ->
            describeIndexStats memoryIndex s1 = (r2, s2) ->
            r1 <> Diverged -> r2 <> Diverged ->
            getStats s =
            (Returned {| documents := countRead r1;
                         memory := countRead r2;
                         total := (countRead r1 + countRead r2)%Z |}, s2)).
  { intros r1 s1 r2 s2 H1 H2 Hr1 Hr2.
    unfold getStats, getCollectionStats, getDocumentCount, getMemoryCount.
    unfold tryCatch at 1 2, bind at 1.
    rewrite (countOf_read filesIndex s r1 s1 H1 Hr1).
    unfold bind at 1.
    rewrite (countOf_read memoryIndex s1 r2 s2 H2 Hr2). reflexivity. }
  split; [|split].
  - intros e.
    unfold getStats, getCollectionStats, getDocumentCount, getMemoryCount.
    unfold tryCatch at 1 2, bind at 1.
    pose proof (countOf_never_throws filesIndex s) as Hf.
    destruct (countOf filesIndex s) as [[d|e'|] s1]; cbn [fst] in *;
      [|now elim (Hf e')|discriminate].
    unfold bind at 1.
    pose proof (countOf_never_throws memoryIndex s1) as Hm.
    destruct (countOf memoryIndex s1) as [[m|e'|] s2]; cbn [fst] in *;
      [discriminate|now elim (Hm e')|discriminate].
  - exact Hboth.
  - intros e1 s1 e2 s2 H1 H2.
    rewrite (Hboth _ _ _ _ H1 H2); [reflexivity | discriminate | discriminate].
Qed.

Lemma stats_degrade_per_collection_witness :
  (forall e, fst (getStats filesDown) <> Thrown e)
  /\ (forall r1 s1 r2 s2,
        describeIndexStats filesIndex filesDown = (r1, s1) ->
        describeIndexStats memoryIndex s1 = (r2, s2) ->
        r1 <> Diverged -> r2 <> Diverged ->
        getStats filesDown =
        (Returned {| documents := countRead r1;
                     memory := countRead r2;
                     total := (countRead r1 + countRead r2)%Z |}, s2))
  /\ (forall e1 s1 e2 s2,
        describeIndexStats filesIndex filesDown = (Thrown e1, s1) ->
        describeIndexStats memoryIndex s1 = (Thrown e2, s2) ->
        getStats filesDown =
        (Returned {| documents := 0; memory := 0; total := 0 |}, s2)).
Proof. exact (@stats_degrade_per_collection FakeStore _ filesDown). Defined.

(** The count of the files fails and the count of the memory is 2: the
    statistics are 0, 2 and 2, not zeros. *)
Lemma stats_are_partial :
  fst (describeIndexStats filesIndex filesDown)
    = Thrown (Raised "index unreachable")
  /\ fst (getStats filesDown)
     = Returned {| documents := 0; memory := 2; total := 2 |}
  /\ fst (getStats filesDown)
     <> Returned {| documents := 0; memory := 0; total := 0 |}.
Proof.
  split; [reflexivity|]. split; [reflexivity|]. vm_compute. discriminate.
Qed.

(** [clearData] reports a success and leaves the store as it was. *)
Lemma clearData_leaves_the_store {S} `{VectorIndex S} type (s : S) :
  clearData type s =
  (Returned {| success := true;
               message := Text (typeName type ++ " data cleared successfully") |},
   s).
Proof. now destruct type. Qed.

(** C1, on the code: clearing everything in a store that holds one document
    succeeds, after which the statistics still count the document and a
    search still returns it. *)
Theorem clear_all_leaves_the_documents :
  let cleared := clearData clearAll oneDocument in
  fst cleared
    = Returned {| success := true;
                  message := Text "all data cleared successfully" |}
  /\ snd cleared = oneDocument
  /\ fst (getStats (snd cleared))
     = Returned {| documents := 1; memory := 0; total := 1 |}
  /\ exists results,
       fst (RAGService.searchFiles sampleConfig (str "query")
              {| limit := None; threshold := None; filter := None |}
              (oneVector, snd cleared)) = Returned results
       /\ map sr_id results = [str "doc-1"].
Proof.
  cbv zeta. rewrite clearData_leaves_the_store. cbn [fst snd].
  split; [reflexivity|]. split; [reflexivity|]. split; [reflexivity|].
  eexists. split; [vm_compute; reflexivity | reflexivity].
Qed.

End AdapterFacts.

(* ================================================================== *)
(** * More properties of the chunker *)

Module ChunkerMore.
Import JS FileProcessor Vocabulary ChunkerVocabulary JSFacts ChunkerFacts.
Unset Implicit Arguments.

(** ** Strings *)

Lemma dropWhile_nil_iff {A} (p : A -> bool) l :
  dropWhile p l = [] <-> forallb p l = true.
Proof.
  induction l as [|x l IH]; simpl; [tauto|].
  destruct (p x); simpl; [exact IH|]. split; discriminate.
Qed.

Lemma trim_empty_iff s : trim s = [] <-> forallb isWhiteSpace s = true.
Proof.
  split.
  - intros Ht. apply dropWhile_nil_iff. fold (trimStart s).
    destruct (trimStart s) as [|c t] eqn:E; [reflexivity|].
    exfalso. assert (Hne : trimStart s <> []) by (rewrite E; discriminate).
    destruct (trimStart_starts s Hne) as (c' & t' & Hs & Hc).
    unfold trim, trimEnd in Ht. rewrite Hs in Ht. simpl rev in Ht.
    destruct (dropWhile_snoc isWhiteSpace (rev t') c' Hc) as [u Hu].
    rewrite Hu, rev_app_distr in Ht. discriminate.
  - intros Hall. apply dropWhile_nil_iff in Hall.
    unfold trim, trimStart. now rewrite Hall.
Qed.

Lemma clean_trimmed s : clean s -> s <> [] /\ trim s = s.
Proof.
  intros [Hs He]. split; [now apply endsInk_nonempty|].
  rewrite trim_endsInk by exact He. now apply trimStart_startsInk.
Qed.

Lemma infix_refl s : infix s s.
Proof. exists [], []. now rewrite app_nil_r. Qed.

Lemma infix_app_r s t u : infix s t -> infix s (t ++ u).
Proof.
  intros (pre & post & ->). exists pre, (post ++ u).
  now rewrite <- !app_assoc.
Qed.

Lemma infix_app_l s t u : infix s u -> infix s (t ++ u).
Proof.
  intros (pre & post & ->). exists (t ++ pre), post.
  now rewrite <- !app_assoc.
Qed.

Lemma trimStart_keeps pre s post :
  startsInk s ->
  exists pre', trimStart (pre ++ s ++ post) = pre' ++ s ++ post.
Proof.
  intros Hs. induction pre as [|x pre [pre' IH]].
  - exists []. cbn [app]. apply trimStart_startsInk. now apply startsInk_app.
  - unfold trimStart in *. simpl. destruct (isWhiteSpace x).
    + now exists pre'.
    + now exists (x :: pre).
Qed.

Lemma infix_trim s t : startsInk s -> endsInk t -> infix s t -> infix s (trim t).
Proof.
  intros Hs Ht (pre & post & ->). rewrite trim_endsInk by exact Ht.
  destruct (trimStart_keeps pre s post Hs) as [pre' ->]. now exists pre', post.
Qed.

Lemma infix_nonempty s t : s <> [] -> infix s t -> t <> [].
Proof.
  intros Hs (pre & post & ->) E.
  apply app_eq_nil in E as [_ E]. apply app_eq_nil in E as [E _]. contradiction.
Qed.

(** ** The overlap text *)

Lemma getOverlapText_length text O :
  (0 < O)%Z -> len (getOverlapText text O) = Z.min (len text) O.
Proof.
  intros HO. rewrite getOverlapText_skipn by exact HO.
  unfold len. rewrite length_skipn. lia.
Qed.

(** ** The loop keeps its chunks clean *)

Section Loop.
Variables (rt : Runtime) (fileInfo : FileInfo) (chunkSize chunkOverlap : Z).

Lemma step_buffer_ends st sentence :
  endsInk sentence ->
  endsInk (currentChunk (step rt fileInfo chunkSize chunkOverlap st sentence)).
Proof.
  intros Hs. unfold step. destruct (_ && _ && _); cbn [currentChunk].
  - now apply endsInk_app.
  - now apply endsInk_app, endsInk_app.
Qed.

Lemma loop_buffer_ends l st :
  l <> [] -> Forall endsInk l ->
  endsInk (currentChunk
             (fold_left (step rt fileInfo chunkSize chunkOverlap) l st)).
Proof.
  revert st. induction l as [|s [|s' l] IH]; intros st Hne Hall.
  - now elim Hne.
  - simpl. apply step_buffer_ends. now inversion Hall.
  - change (fold_left ?f (s :: s' :: l) st)
      with (fold_left f (s' :: l) (f st s)).
    apply IH; [discriminate | now inversion Hall].
Qed.

Lemma closed_chunk_clean cur :
  endsInk cur -> clean (trim cur).
Proof.
  intros Hcur. apply trim_clean. rewrite trim_endsInk by exact Hcur.
  now apply endsInk_nonempty, trimStart_endsInk.
Qed.

Lemma step_tidy st sentence :
  endsInk sentence -> tidy st ->
  tidy (step rt fileInfo chunkSize chunkOverlap st sentence).
Proof.
  intros Hs [Hchunks Hcur].
  split; [|right; now apply step_buffer_ends].
  unfold step. destruct (_ && _ && _) eqn:Hsplit; cbn [chunks]; trivial.
  apply andb_prop in Hsplit as [_ Hpos]. apply len_positive in Hpos.
  destruct Hcur as [Hcur|Hcur]; [contradiction|].
  apply Forall_app. split; [exact Hchunks|].
  constructor; [|constructor]. cbn [content createChunkObject].
  now apply closed_chunk_clean.
Qed.

Lemma loop_tidy l st :
  Forall endsInk l -> tidy st ->
  tidy (fold_left (step rt fileInfo chunkSize chunkOverlap) l st).
Proof.
  intros Hl. revert st. induction Hl as [|s l Hs Hl IH]; intros st Hst; simpl;
    trivial.
  apply IH. now apply step_tidy.
Qed.

Lemma finish_clean st :
  tidy st -> Forall (fun c => clean (content c)) (finish rt fileInfo st).
Proof.
  intros [Hchunks Hcur]. unfold finish.
  destruct (len (trim (currentChunk st)) >? 0)%Z eqn:Hpos; trivial.
  apply Forall_app. split; [exact Hchunks|]. constructor; [|constructor].
  cbn [content createChunkObject]. apply trim_clean. now apply len_positive.
Qed.

End Loop.

Lemma sentences_end text : Forall endsInk (splitIntoSentences text).
Proof.
  eapply Forall_impl; [|apply sentences_clean]. now intros ? [_ ?].
Qed.

Lemma sentences_start text : Forall startsInk (splitIntoSentences text).
Proof.
  eapply Forall_impl; [|apply sentences_clean]. now intros ? [? _].
Qed.

Lemma createChunks_clean cfg rt text fileInfo options :
  Forall (fun c => clean (content c))
    (createChunks cfg rt text fileInfo options).
Proof.
  unfold createChunks. apply finish_clean, loop_tidy.
  - apply sentences_end.
  - split; [constructor | now left].
Qed.

(** X1: no chunk has an empty content, and the content of every chunk is
    trimmed: [trim] leaves it as it is. *)
Theorem chunk_contents_are_trimmed cfg rt text fileInfo options :
  Forall (fun c => content c <> [] /\ trim (content c) = content c)
    (createChunks cfg rt text fileInfo options).
Proof.
  eapply Forall_impl; [|apply createChunks_clean].
  intros c Hc. now apply clean_trimmed.
Qed.

(** ** When there is no chunk *)

Lemma splitRuns_white inRun text :
  forallb (fun c => isWhiteSpace c || isTerminator c) text = true
  <-> Forall (fun piece => forallb isWhiteSpace piece = true)
        (splitRuns inRun text).
Proof.
  revert inRun. induction text as [|c rest IH]; intros inRun.
  - simpl. split; [repeat constructor | reflexivity].
  - cbn [forallb splitRuns]. destruct (isTerminator c) eqn:Hc.
    + rewrite orb_true_r. cbn [andb]. destruct (IH true) as [H1 H2].
      destruct inRun; [now split|].
      split; [intros H; constructor; [reflexivity | now apply H1]|].
      intros H. apply H2. now inversion H.
    + rewrite orb_false_r. destruct (IH false) as [H1 H2].
      destruct (splitRuns false rest) as [|piece pieces].
      * split.
        -- intros H. apply andb_prop in H as [Hw _].
           constructor; [simpl; now rewrite Hw | constructor].
        -- intros H. inversion H as [|? ? Hp _]; subst. simpl in Hp.
           apply andb_prop in Hp as [Hw _]. rewrite Hw. cbn [andb].
           apply H2. constructor.
      * split.
        -- intros H. apply andb_prop in H as [Hw Hall].
           specialize (H1 Hall). inversion H1 as [|? ? Hp Hps]; subst.
           constructor; [simpl; now rewrite Hw, Hp | exact Hps].
        -- intros H. inversion H as [|? ? Hp Hps]; subst. simpl in Hp.
           apply andb_prop in Hp as [Hw Hp]. rewrite Hw. cbn [andb].
           apply H2. now constructor.
Qed.

Lemma sentences_nil_iff text :
  splitIntoSentences text = []
  <-> forallb (fun c => isWhiteSpace c || isTerminator c) text = true.
Proof.
  unfold splitIntoSentences, split.
  destruct (splitRuns_white false text) as [H1 H2].
  assert (Hpieces : forall pieces,
            filter (fun s => (len s >? 0)%Z) (map trim pieces) = []
            <-> Forall (fun piece => forallb isWhiteSpace piece = true) pieces).
  { induction pieces as [|piece pieces [IH1 IH2]]; simpl.
    - split; [constructor | reflexivity].
    - destruct (len (trim piece) >? 0)%Z eqn:Hpos.
      + split; [discriminate|]. intros H. inversion H as [|? ? Hp _]; subst.
        apply trim_empty_iff in Hp. apply len_positive in Hpos. contradiction.
      + split.
        * intros H. constructor; [|now apply IH1]. apply trim_empty_iff.
          destruct (trim piece) eqn:E; [reflexivity|].
          assert (Hne : trim piece <> []) by (rewrite E; discriminate).
          apply len_positive in Hne. congruence.
        * intros H. apply IH2. now inversion H. }
  destruct (Hpieces (splitRuns false text)) as [P1 P2].
  split; [intros H; apply H2, P1, H | intros H; apply P2, H1, H].
Qed.

Lemma createChunks_nil_iff cfg rt text fileInfo options :
  createChunks cfg rt text fileInfo options = []
  <-> splitIntoSentences text = [].
Proof.
  unfold createChunks. split.
  - intros Hnil. destruct (splitIntoSentences text) as [|s l] eqn:Hs;
      [reflexivity|]. exfalso.
    pose proof (sentences_end text) as Hends. rewrite Hs in Hends.
    set (st := fold_left _ (s :: l) _) in Hnil.
    assert (Hcur : endsInk (currentChunk st))
      by (apply loop_buffer_ends; [discriminate | exact Hends]).
    unfold finish in Hnil.
    assert (Hpos : (len (trim (currentChunk st)) >? 0)%Z = true).
    { apply len_positive. rewrite trim_endsInk by exact Hcur.
      now apply endsInk_nonempty, trimStart_endsInk. }
    rewrite Hpos in Hnil. now destruct (chunks st).
  - intros ->. reflexivity.
Qed.

(** X2: [createChunks] returns no chunk exactly when the text has no unit
    other than white space and the terminators . ! ? (the empty text
    included). *)
Theorem no_chunk_iff_no_ink cfg rt text fileInfo options :
  createChunks cfg rt text fileInfo options = []
  <-> forallb (fun c => isWhiteSpace c || isTerminator c) text = true.
Proof. rewrite createChunks_nil_iff. apply sentences_nil_iff. Qed.

(** ** No sentence is lost *)

Section Held.
Variables (rt : Runtime) (fileInfo : FileInfo) (chunkSize chunkOverlap : Z).

Lemma step_held st sentence x :
  tidy st -> startsInk x -> held st x ->
  held (step rt fileInfo chunkSize chunkOverlap st sentence) x.
Proof.
  intros [_ Hcur] Hx [(c & Hin & Hc)|Hbuf]; unfold step, held;
    destruct (_ && _ && _) eqn:Hsplit; cbn [chunks currentChunk].
  - left. exists c. split; [apply in_or_app; now left | exact Hc].
  - left. now exists c.
  - left. apply andb_prop in Hsplit as [_ Hpos]. apply len_positive in Hpos.
    destruct Hcur as [Hcur|Hcur]; [contradiction|].
    eexists. split; [apply in_or_app; right; left; reflexivity|].
    cbn [content createChunkObject]. now apply infix_trim.
  - right. now apply infix_app_r.
Qed.

Lemma step_holds_sentence st sentence :
  held (step rt fileInfo chunkSize chunkOverlap st sentence) sentence.
Proof.
  right. unfold step. destruct (_ && _ && _); cbn [currentChunk].
  - apply infix_app_l, infix_refl.
  - apply infix_app_l, infix_app_l, infix_refl.
Qed.

Lemma loop_held l st done :
  Forall (fun s => startsInk s /\ endsInk s) l ->
  tidy st -> Forall startsInk done -> Forall (held st) done ->
  Forall (held (fold_left (step rt fileInfo chunkSize chunkOverlap) l st))
    (done ++ l).
Proof.
  intros Hl. revert st done.
  induction Hl as [|s l [Hs He] Hl IH]; intros st done Hst Hdone Hheld.
  - now rewrite app_nil_r.
  - cbn [fold_left].
    replace (done ++ s :: l) with ((done ++ [s]) ++ l)
      by (now rewrite <- app_assoc).
    apply IH.
    + now apply step_tidy.
    + apply Forall_app. split; [exact Hdone | now constructor].
    + apply Forall_app. split.
      * apply Forall_forall. intros x Hx.
        apply step_held; trivial.
        -- now apply (proj1 (Forall_forall _ _) Hdone).
        -- now apply (proj1 (Forall_forall _ _) Hheld).
      * constructor; [apply step_holds_sentence | constructor].
Qed.

Lemma finish_held st x :
  tidy st -> startsInk x -> held st x ->
  exists c, In c (finish rt fileInfo st) /\ infix x (content c).
Proof.
  intros [_ Hcur] Hx [(c & Hin & Hc)|Hbuf]; unfold finish.
  - exists c. split; [|exact Hc].
    destruct (_ >? _)%Z; [apply in_or_app; now left | exact Hin].
  - assert (Hne : currentChunk st <> []).
    { apply (infix_nonempty x); [|exact Hbuf].
      destruct Hx as (c & x' & -> & _). discriminate. }
    destruct Hcur as [Hcur|Hcur]; [contradiction|].
    assert (Hpos : (len (trim (currentChunk st)) >? 0)%Z = true).
    { apply len_positive. rewrite trim_endsInk by exact Hcur.
      now apply endsInk_nonempty, trimStart_endsInk. }
    rewrite Hpos. eexists. split; [apply in_or_app; right; left; reflexivity|].
    cbn [content createChunkObject]. now apply infix_trim.
Qed.

End Held.

(** X3: every sentence of the text occurs, whole, in the content of some
    chunk: no sentence is dropped or cut, whatever the sizes. *)
Theorem every_sentence_is_in_a_chunk cfg rt text fileInfo options :
  Forall (fun sentence =>
            exists c,
              In c (createChunks cfg rt text fileInfo options)
              /\ infix sentence (content c))
    (splitIntoSentences text).
Proof.
  unfold createChunks.
  set (st0 := {| chunks := []; currentChunk := []; index := 0 |}).
  assert (Hst0 : tidy st0) by (split; [constructor | now left]).
  pose proof (loop_held rt fileInfo
                (orZ (chunkSize options) (CHUNK_SIZE cfg))
                (orZ (chunkOverlap options) (CHUNK_OVERLAP cfg))
                (splitIntoSentences text) st0 []
                (sentences_clean text) Hst0 (Forall_nil _) (Forall_nil _))
    as Hheld.
  cbn [app] in Hheld.
  apply Forall_forall. intros x Hx.
  apply finish_held.
  - apply loop_tidy; [apply sentences_end | exact Hst0].
  - now apply (proj1 (Forall_forall _ _) (sentences_start text)).
  - now apply (proj1 (Forall_forall _ _) Hheld).
Qed.

(** ** The size of a chunk *)

Section Bounded.
Variables (rt : Runtime) (fileInfo : FileInfo) (chunkSize O L : Z).
Hypothesis positive : (0 < O)%Z.

Lemma step_bounded st sentence :
  sentence <> [] -> (len sentence <= L)%Z ->
  bounded (Z.max (chunkSize + 1) (O + L)) st ->
  bounded (Z.max (chunkSize + 1) (O + L))
    (step rt fileInfo chunkSize O st sentence).
Proof.
  intros Hne HL [Hchunks Hcur]. unfold step.
  destruct sentence as [|u sentence]; [now elim Hne|]. cbn [truthy andb].
  destruct (Z.gtb_spec (len (currentChunk st) + len (u :: sentence)) chunkSize)
    as [Hbig|Hfit]; cbn [andb].
  - destruct (Z.gtb_spec (len (currentChunk st)) 0) as [Hpos|Hzero].
    + split; cbn [chunks currentChunk].
      * apply Forall_app. split; [exact Hchunks|]. constructor; [|constructor].
        cbn [content createChunkObject].
        pose proof (trim_length (currentChunk st)). unfold len in *. lia.
      * pose proof (getOverlapText_length (currentChunk st) O positive) as Ho.
        unfold len in *. rewrite length_app. lia.
    + split; cbn [chunks currentChunk]; [exact Hchunks|].
      assert (Hnil : currentChunk st = []).
      { destruct (currentChunk st); [reflexivity|].
        unfold len in Hzero. simpl in Hzero. lia. }
      rewrite Hnil. cbn [truthy app]. lia.
  - split; cbn [chunks currentChunk]; [exact Hchunks|].
    destruct (currentChunk st) as [|v cur]; cbn [truthy app].
    + lia.
    + unfold len in *. simpl length in *. rewrite ?length_app.
      simpl length. jlia.
Qed.

Lemma loop_bounded l st :
  Forall (fun s => s <> [] /\ (len s <= L)%Z) l ->
  bounded (Z.max (chunkSize + 1) (O + L)) st ->
  bounded (Z.max (chunkSize + 1) (O + L))
    (fold_left (step rt fileInfo chunkSize O) l st).
Proof.
  intros Hl. revert st.
  induction Hl as [|s l [Hs HL] Hl IH]; intros st Hst; simpl; trivial.
  apply IH. now apply step_bounded.
Qed.

Lemma finish_bounded st :
  bounded (Z.max (chunkSize + 1) (O + L)) st ->
  Forall (fun c => (len (content c) <= Z.max (chunkSize + 1) (O + L))%Z)
    (finish rt fileInfo st).
Proof.
  intros [Hchunks Hcur]. unfold finish. destruct (_ >? _)%Z; trivial.
  apply Forall_app. split; [exact Hchunks|]. constructor; [|constructor].
  cbn [content createChunkObject].
  pose proof (trim_length (currentChunk st)). unfold len in *. lia.
Qed.

End Bounded.

(** X4: with a positive overlap [O] in force and no sentence longer than
    [L], no chunk has more than [max (chunkSize + 1) (O + L)] units; so no
    more than [chunkSize + L] when [O <= chunkSize] and [1 <= L]. *)
Theorem chunk_size_bound cfg rt text fileInfo options L :
  let chunkSize := orZ (chunkSize options) (CHUNK_SIZE cfg) in
  let O := orZ (chunkOverlap options) (CHUNK_OVERLAP cfg) in
  (0 < O)%Z ->
  Forall (fun s => (len s <= L)%Z) (splitIntoSentences text) ->
  Forall (fun c =>
            (len (content c) <= Z.max (chunkSize + 1) (O + L))%Z
            /\ ((O <= chunkSize)%Z -> (1 <= L)%Z ->
                (len (content c) <= chunkSize + L)%Z))
    (createChunks cfg rt text fileInfo options).
Proof.
  intros chunkSize O HO HL.
  assert (Hall : Forall (fun c => (len (content c)
                                   <= Z.max (chunkSize + 1) (O + L))%Z)
                   (createChunks cfg rt text fileInfo options)).
  { destruct (splitIntoSentences text) as [|s0 l0] eqn:Hs.
    { rewrite (proj2 (createChunks_nil_iff cfg rt text fileInfo options) Hs).
      constructor. }
    assert (HL0 : (0 <= L)%Z).
    { inversion HL as [|? ? H0 _]; subst. unfold len in H0. lia. }
    unfold createChunks. rewrite Hs.
    apply finish_bounded, loop_bounded; trivial.
    - pose proof (sentences_end text) as Hends. rewrite Hs in Hends.
      apply Forall_forall. intros s Hin. split.
      + apply endsInk_nonempty.
        now apply (proj1 (Forall_forall _ _) Hends).
      + now apply (proj1 (Forall_forall _ _) HL).
    - split; [constructor|]. cbn [currentChunk]. unfold len. simpl. lia. }
  eapply Forall_impl; [|exact Hall].
  intros c Hc. cbv beta in Hc. split; [exact Hc | lia].
Qed.

Lemma chunk_size_bound_witness :
  Forall (fun c =>
            (len (content c) <= Z.max (5 + 1) (3 + 3))%Z
            /\ ((3 <= 5)%Z -> (1 <= 3)%Z -> (len (content c) <= 5 + 3)%Z))
    (createChunks defaultConfig aRuntime (str "ab. cd. efg.") aFile
       {| chunkSize := Some 5%Z; chunkOverlap := Some 3%Z |}).
Proof.
  apply (chunk_size_bound defaultConfig aRuntime (str "ab. cd. efg.") aFile
           {| chunkSize := Some 5%Z; chunkOverlap := Some 3%Z |} 3).
  - reflexivity.
  - vm_compute. repeat constructor; discriminate.
Defined.

(** ** Where a chunk comes from *)

Lemma stamped_snoc rt fileInfo l content chunkIndex totalChunks :
  stamped rt fileInfo l ->
  stamped rt fileInfo
    (l ++ [createChunkObject rt (length l) content fileInfo
             chunkIndex totalChunks]).
Proof.
  intros Hl i c Hc.
  destruct (Nat.lt_ge_cases i (length l)) as [Hlt|Hge].
  - rewrite nth_error_app1 in Hc by exact Hlt. now apply Hl.
  - rewrite nth_error_app2 in Hc by exact Hge.
    destruct (i - length l) as [|k] eqn:Hk.
    + assert (i = length l) by lia. subst i.
      simpl in Hc. injection Hc as <-. repeat split.
    + simpl in Hc. now destruct k.
Qed.

Lemma loop_stamped rt fileInfo chunkSize chunkOverlap l st :
  stamped rt fileInfo (chunks st) ->
  stamped rt fileInfo
    (chunks (fold_left (step rt fileInfo chunkSize chunkOverlap) l st)).
Proof.
  revert st. induction l as [|s l IH]; intros st Hst; simpl; trivial.
  apply IH. unfold step. destruct (_ && _ && _); cbn [chunks]; trivial.
  now apply stamped_snoc.
Qed.

Lemma createChunks_stamped cfg rt text fileInfo options :
  stamped rt fileInfo (createChunks cfg rt text fileInfo options).
Proof.
  unfold createChunks, finish.
  set (st := fold_left _ _ _).
  assert (Hst : stamped rt fileInfo (chunks st)).
  { apply loop_stamped. intros i c Hc. now destruct i. }
  destruct (_ >? _)%Z; trivial. now apply stamped_snoc.
Qed.

(** X5: every chunk carries the path, the name, the type and the size of
    the file it comes from; the i-th chunk has the i-th identifier and the
    i-th date the runtime gives, so the identifiers are pairwise distinct
    when the runtime never gives the same one twice. *)
Theorem chunks_carry_their_file cfg rt text fileInfo options :
  let emitted := createChunks cfg rt text fileInfo options in
  (forall i c,
     nth_error emitted i = Some c ->
     id c = uuidv4 rt i
     /\ timestamp (metadata c) = toISOString rt i
     /\ source (metadata c) = fi_path fileInfo
     /\ filename (metadata c) = fi_filename fileInfo
     /\ fileType (metadata c) = fi_type fileInfo
     /\ size (metadata c) = fi_size fileInfo)
  /\ ((forall i j, uuidv4 rt i = uuidv4 rt j -> i = j) ->
      NoDup (map id emitted)).
Proof.
  intros emitted.
  pose proof (createChunks_stamped cfg rt text fileInfo options) as Hst.
  fold emitted in Hst. split; [exact Hst|].
  intros Hinj. apply NoDup_nth_error. intros i j Hi Hij.
  rewrite length_map in Hi.
  destruct (nth_error emitted i) as [a|] eqn:Ha;
    [|apply nth_error_None in Ha; lia].
  rewrite (map_nth_error id i emitted Ha) in Hij.
  destruct (nth_error emitted j) as [b|] eqn:Hb.
  - rewrite (map_nth_error id j emitted Hb) in Hij. injection Hij as Hid.
    apply Hinj. destruct (Hst i a Ha) as [<- _].
    destruct (Hst j b Hb) as [<- _]. exact Hid.
  - symmetry in Hij. apply nth_error_None in Hb.
    assert (Hnone : nth_error (map id emitted) j = None)
      by (apply nth_error_None; now rewrite length_map).
    congruence.
Qed.

(** ** The overlap text, at every size *)

(** X6: [getOverlapText] always returns an end of the text: its last [O]
    units when [0 < O] (all of it when it has no more), all of it when
    [O = 0], and what follows its first [-O] units when [O < 0]. *)
Theorem getOverlapText_is_an_end text O :
  (exists dropped, text = dropped ++ getOverlapText text O)
  /\ ((0 < O)%Z -> len (getOverlapText text O) = Z.min (len text) O)
  /\ (O = 0%Z -> getOverlapText text O = text)
  /\ ((O < 0)%Z ->
      getOverlapText text O = skipn (Z.to_nat (- O)) text
      /\ len (getOverlapText text O) = Z.max 0 (len text + O)).
Proof.
  assert (Hneg : (O < 0)%Z ->
                 getOverlapText text O = skipn (Z.to_nat (- O)) text).
  { intros HO. unfold getOverlapText, slice.
    destruct (Z.leb_spec (len text) O) as [Hle|_]; [unfold len in Hle; lia|].
    destruct (Z.ltb_spec (- O) 0) as [|_]; [lia|].
    destruct (Z.min_spec (- O) (len text)) as [[_ ->]|[Hge ->]];
      [reflexivity|].
    unfold len in *. rewrite Nat2Z.id.
    rewrite skipn_all, skipn_all2; [reflexivity|]. lia. }
  assert (Hzero : O = 0%Z -> getOverlapText text O = text).
  { intros ->. unfold getOverlapText, slice, len.
    destruct (Z.leb_spec (Z.of_nat (length text)) 0); [reflexivity|].
    cbn [Z.opp Z.ltb Z.compare]. now rewrite Z.min_l by lia. }
  split; [|split; [|split]].
  - destruct (Z.lt_trichotomy O 0) as [HO|[HO|HO]].
    + rewrite (Hneg HO). exists (firstn (Z.to_nat (- O)) text).
      now rewrite firstn_skipn.
    + rewrite (Hzero HO). now exists [].
    + rewrite getOverlapText_skipn by exact HO.
      exists (firstn (length text - Z.to_nat O) text).
      now rewrite firstn_skipn.
  - apply getOverlapText_length.
  - exact Hzero.
  - intros HO. split; [now apply Hneg|].
    rewrite (Hneg HO). unfold len. rewrite length_skipn. lia.
Qed.

(** ** An overlap of 0 *)

Section NoOverlap.
Variables (rt : Runtime) (fileInfo : FileInfo) (chunkSize : Z).

Lemma getOverlapText_zero text : getOverlapText text 0 = text.
Proof.
  unfold getOverlapText, slice, len.
  destruct (Z.leb_spec (Z.of_nat (length text)) 0); [reflexivity|].
  cbn [Z.opp Z.ltb Z.compare]. now rewrite Z.min_l by lia.
Qed.

Lemma nested_snoc l c :
  nested l ->
  (forall a, lastChunk l = Some a -> prefix (content a) (content c)) ->
  nested (l ++ [c]).
Proof.
  induction l as [|a [|b l] IH]; intros Hl Hlast.
  - exact I.
  - split; [|exact I]. now apply Hlast.
  - destruct Hl as [Hab Hl]. split; [exact Hab|].
    apply IH; [exact Hl|]. intros x Hx. apply Hlast.
    now rewrite lastChunk_cons.
Qed.

Lemma nested_nth l i a b :
  nested l ->
  nth_error l i = Some a -> nth_error l (S i) = Some b ->
  prefix (content a) (content b).
Proof.
  revert i. induction l as [|x [|y l] IH]; intros i Hl Ha Hb.
  - now destruct i.
  - simpl in Hb. now destruct i.
  - destruct Hl as [Hxy Hl]. destruct i as [|i].
    + simpl in Ha, Hb. injection Ha as <-. injection Hb as <-. exact Hxy.
    + now apply (IH i).
Qed.

Lemma prefix_app p t u : prefix p t -> prefix p (t ++ u).
Proof. intros [rest ->]. exists (rest ++ u). now rewrite app_assoc. Qed.

Lemma step_carried st sentence :
  endsInk sentence -> carried st ->
  carried (step rt fileInfo chunkSize 0 st sentence).
Proof.
  intros Hs (Hcur & Hnest & Hlast). unfold step.
  destruct (_ && _ && _) eqn:Hsplit; unfold carried;
    cbn [currentChunk chunks index].
  - apply andb_prop in Hsplit as [_ Hpos].
    apply len_positive in Hpos. destruct Hcur as [Hcur|Hcur]; [easy|].
    rewrite getOverlapText_zero.
    split; [right; now apply endsInk_app|]. split.
    + apply nested_snoc; trivial. intros a Ha.
      cbn [content createChunkObject]. rewrite trim_endsInk by exact Hcur.
      now apply Hlast.
    + intros c Hc. rewrite lastChunk_snoc in Hc. injection Hc as <-.
      split; [now apply endsInk_app|].
      cbn [content createChunkObject]. exists sentence.
      rewrite trim_endsInk by exact Hcur. now apply trimStart_app.
  - split; [right; now apply endsInk_app, endsInk_app|].
    split; [exact Hnest|].
    intros c Hc. destruct (Hlast c Hc) as [Hink Hpre].
    split; [now apply endsInk_app, endsInk_app|].
    rewrite trimStart_app by exact Hink. now apply prefix_app.
Qed.

Lemma loop_carried l st :
  Forall endsInk l -> carried st ->
  carried (fold_left (step rt fileInfo chunkSize 0) l st).
Proof.
  intros Hl. revert st.
  induction Hl as [|s l Hs Hl IH]; intros st Hst; simpl; trivial.
  apply IH. now apply step_carried.
Qed.

Lemma finish_nested st : carried st -> nested (finish rt fileInfo st).
Proof.
  intros (Hcur & Hnest & Hlast). unfold finish.
  destruct (_ >? _)%Z; trivial.
  apply nested_snoc; trivial. intros a Ha.
  destruct (Hlast a Ha) as [Hink Hpre].
  cbn [content createChunkObject]. now rewrite trim_endsInk.
Qed.

End NoOverlap.

(** X7: when the overlap in force is 0 (the configured overlap is 0 and
    the options give none), the buffer is carried whole into the next
    chunk: the content of every chunk begins with the whole content of the
    chunk before it. *)
Theorem zero_overlap_repeats_the_chunk cfg rt text fileInfo options i a b :
  orZ (chunkOverlap options) (CHUNK_OVERLAP cfg) = 0%Z ->
  nth_error (createChunks cfg rt text fileInfo options) i = Some a ->
  nth_error (createChunks cfg rt text fileInfo options) (S i) = Some b ->
  prefix (content a) (content b)
  /\ (len (content a) <= len (content b))%Z.
Proof.
  intros HO Ha Hb.
  assert (Hpre : prefix (content a) (content b)).
  { apply (nested_nth (createChunks cfg rt text fileInfo options) i);
      trivial.
    unfold createChunks. rewrite HO. apply finish_nested, loop_carried.
    - apply sentences_end.
    - split; [now left|]. split; [exact I|]. intros c Hc. discriminate. }
  split; [exact Hpre|].
  destruct Hpre as [rest ->]. unfold len. rewrite length_app. lia.
Qed.

Lemma zero_overlap_repeats_the_chunk_witness :
  exists a b,
    nth_error (createChunks noOverlapConfig aRuntime (str "ab. cd. efg. hi.")
                 aFile noOptions) 0 = Some a
    /\ nth_error (createChunks noOverlapConfig aRuntime
                    (str "ab. cd. efg. hi.") aFile noOptions) 1 = Some b
    /\ content a = str "ab cd"
    /\ content b = str "ab cdefg"
    /\ prefix (content a) (content b)
    /\ (len (content a) <= len (content b))%Z.
Proof.
  eexists. eexists. split; [reflexivity|]. split; [reflexivity|].
  split; [reflexivity|]. split; [reflexivity|].
  exact (zero_overlap_repeats_the_chunk noOverlapConfig aRuntime
           (str "ab. cd. efg. hi.") aFile noOptions 0 _ _
           eq_refl eq_refl eq_refl).
Defined.

(** ** The sentences *)

Lemma splitRuns_plain_pieces inRun text :
  Forall (fun piece => forallb (fun c => negb (isTerminator c)) piece = true)
    (splitRuns inRun text).
Proof.
  revert inRun. induction text as [|c rest IH]; intros inRun; simpl.
  - repeat constructor.
  - destruct (isTerminator c) eqn:Hc.
    + destruct inRun; [apply IH | constructor; [reflexivity | apply IH]].
    + specialize (IH false).
      destruct (splitRuns false rest) as [|piece pieces].
      * constructor; [simpl; now rewrite Hc | constructor].
      * inversion IH as [|? ? Hp Hps]; subst.
        constructor; [simpl; now rewrite Hc, Hp | exact Hps].
Qed.

Lemma forallb_dropWhile {A} (p q : A -> bool) l :
  forallb q l = true -> forallb q (dropWhile p l) = true.
Proof.
  induction l as [|x l IH]; simpl; trivial.
  intros H. destruct (p x); [|exact H].
  apply andb_prop in H as [_ H]. now apply IH.
Qed.

Lemma forallb_rev {A} (q : A -> bool) l :
  forallb q l = true -> forallb q (rev l) = true.
Proof.
  intros H. apply forallb_forall. intros x Hx.
  apply in_rev in Hx. now apply (proj1 (forallb_forall q l) H).
Qed.

Lemma forallb_trim (q : char -> bool) s :
  forallb q s = true -> forallb q (trim s) = true.
Proof.
  intros H. unfold trim, trimEnd, trimStart.
  now apply forallb_rev, forallb_dropWhile, forallb_rev, forallb_dropWhile.
Qed.

(** X8: a sentence is never empty, neither begins nor ends with white
    space, and holds none of the terminators . ! ? *)
Theorem sentences_are_trimmed_and_plain text :
  Forall (fun s =>
            s <> [] /\ trim s = s
            /\ forallb (fun c => negb (isTerminator c)) s = true)
    (splitIntoSentences text).
Proof.
  apply Forall_forall. intros s Hs.
  pose proof (proj1 (Forall_forall _ _) (sentences_clean text) s Hs) as Hc.
  destruct (clean_trimmed s Hc) as [Hne Htrim].
  split; [exact Hne|]. split; [exact Htrim|].
  unfold splitIntoSentences in Hs. apply filter_In in Hs as [Hin _].
  apply in_map_iff in Hin as (piece & <- & Hpiece).
  apply forallb_trim.
  now apply (proj1 (Forall_forall _ _) (splitRuns_plain_pieces false text)).
Qed.

End ChunkerMore.

(* ================================================================== *)
(** * More properties of the embedding client *)

Module EmbeddingMore.
Import JS EmbeddingService BatchVocabulary EmbeddingVocabulary EmbeddingFacts.
Unset Implicit Arguments.

(** ** The dimension of what is returned *)

Lemma validEmbeddings_dimension cfg embeddings :
  Forall (hasDimension cfg) (validEmbeddings cfg embeddings).
Proof.
  induction embeddings as [|[elems|] rest IH]; cbn [validEmbeddings isValid];
    trivial.
  destruct (Z.eqb_spec (Z.of_nat (length elems)) (EMBEDDING_DIMENSION cfg));
    trivial.
  now constructor.
Qed.

Section AnyProvider.
Context {W : Type} `{Provider W}.
Variable cfg : Config.

Lemma generateEmbeddings_dimension texts w vs w' :
  generateEmbeddings cfg texts w = (Returned vs, w') ->
  Forall (hasDimension cfg) vs.
Proof.
  destruct texts as [|t texts].
  - cbn. intros Hr. injection Hr as <- _. constructor.
  - rewrite generateEmbeddings_answer.
    destruct (fst (post (t :: texts) w)) as [status data|status text|what];
      cbn [answer]; try discriminate.
    destruct (negb (status =? 200)%Z); [discriminate|].
    destruct data as [embeddings|]; [|discriminate].
    intros Hr. injection Hr as <- _. apply validEmbeddings_dimension.
Qed.

Lemma generateEmbeddings_settles texts w :
  settles (fst (generateEmbeddings cfg texts w)).
Proof.
  destruct texts as [|t texts]; [left; now exists []|].
  rewrite generateEmbeddings_answer. cbn [fst].
  destruct (fst (post (t :: texts) w)) as [status data|status text|what];
    cbn [answer].
  - destruct (negb (status =? 200)%Z); [right; now eexists|].
    destruct data; [left | right]; now eexists.
  - right. now eexists.
  - right. now eexists.
Qed.

Lemma retryLoop_dimension maxRetries more batch attempts w vs w' :
  retryLoop cfg maxRetries more batch attempts w = (Returned (Some vs), w') ->
  Forall (hasDimension cfg) vs.
Proof.
  revert w. induction attempts as [|attempts IH]; intros w.
  - cbn. discriminate.
  - rewrite retryLoop_S.
    destruct (generateEmbeddings cfg batch w) as [[e|error|] w1] eqn:Hgen.
    + intros Hr. injection Hr as <- _.
      now apply (generateEmbeddings_dimension batch w e w1).
    + destruct (maxRetries <=? maxRetries - attempts); [discriminate|].
      apply IH.
    + discriminate.
Qed.

Lemma retryLoop_settles maxRetries more batch attempts w :
  settles (fst (retryLoop cfg maxRetries more batch attempts w)).
Proof.
  revert w. induction attempts as [|attempts IH]; intros w.
  - left. now exists None.
  - rewrite retryLoop_S.
    pose proof (generateEmbeddings_settles batch w) as Hs.
    destruct (generateEmbeddings cfg batch w) as [[e|error|] w1]; cbn [fst] in *.
    + left. now eexists.
    + destruct (maxRetries <=? maxRetries - attempts); [right; now eexists|].
      apply IH.
    + destruct Hs as [[a Ha]|[e He]]; discriminate.
Qed.

Lemma processGroups_dimension maxRetries gs allEmbeddings w vs w' :
  Forall (hasDimension cfg) allEmbeddings ->
  processGroups cfg maxRetries gs allEmbeddings w = (Returned vs, w') ->
  Forall (hasDimension cfg) vs.
Proof.
  revert allEmbeddings w. induction gs as [|g gs IH]; intros allEmbeddings w Hall.
  - cbn. intros Hr. now injection Hr as <- _.
  - cbn [processGroups]. unfold bind.
    destruct (retryLoop cfg maxRetries _ g maxRetries w)
      as [[pushed|e|] w1] eqn:Hretry; try discriminate.
    apply IH. apply Forall_app. split; [exact Hall|].
    destruct pushed as [e|]; [|constructor].
    now apply (retryLoop_dimension _ _ _ _ _ _ _ Hretry).
Qed.

Lemma processGroups_settles maxRetries gs allEmbeddings w :
  settles (fst (processGroups cfg maxRetries gs allEmbeddings w)).
Proof.
  revert allEmbeddings w. induction gs as [|g gs IH]; intros allEmbeddings w.
  - left. now eexists.
  - cbn [processGroups]. unfold bind.
    pose proof (retryLoop_settles maxRetries
                  (match gs with [] => false | _ :: _ => true end)
                  g maxRetries w) as Hs.
    destruct (retryLoop cfg maxRetries _ g maxRetries w) as [[pushed|e|] w1];
      cbn [fst] in *.
    + apply IH.
    + right. now eexists.
    + destruct Hs as [[a Ha]|[e He]]; discriminate.
Qed.

Lemma batchLoop_dimension texts batchSize maxRetries fuel i allEmbeddings
    w vs w' :
  Forall (hasDimension cfg) allEmbeddings ->
  batchLoop cfg texts batchSize maxRetries fuel i allEmbeddings w
    = (Returned vs, w') ->
  Forall (hasDimension cfg) vs.
Proof.
  revert i allEmbeddings w. induction fuel as [|fuel IH];
    intros i allEmbeddings w Hall; cbn [batchLoop];
    destruct (i <? length texts).
  - discriminate.
  - cbn. intros Hr. now injection Hr as <- _.
  - unfold bind.
    destruct (retryLoop cfg maxRetries _ _ maxRetries w)
      as [[pushed|e|] w1] eqn:Hretry; try discriminate.
    apply IH. apply Forall_app. split; [exact Hall|].
    destruct pushed as [e|]; [|constructor].
    now apply (retryLoop_dimension _ _ _ _ _ _ _ Hretry).
  - cbn. intros Hr. now injection Hr as <- _.
Qed.

End AnyProvider.

(** X9: whatever the provider answers, every vector that
    [generateEmbeddings] or [generateEmbeddingsBatch] returns has the
    configured dimension, and [generateSingleEmbedding] returns a vector of
    the configured dimension or the empty vector. *)
Theorem returned_vectors_have_the_dimension {W} `{Provider W} cfg :
  (forall texts w vs w',
     generateEmbeddings cfg texts w = (Returned vs, w') ->
     Forall (hasDimension cfg) vs)
  /\ (forall texts batchSize maxRetries w vs w',
        generateEmbeddingsBatch cfg texts batchSize maxRetries w
          = (Returned vs, w') ->
        Forall (hasDimension cfg) vs)
  /\ (forall text w v w',
        generateSingleEmbedding cfg text w = (Returned v, w') ->
        v = [] \/ hasDimension cfg v).
Proof.
  split; [apply generateEmbeddings_dimension|]. split.
  - intros texts batchSize maxRetries w vs w'.
    apply batchLoop_dimension. constructor.
  - intros text w v w'. unfold generateSingleEmbedding, bind.
    destruct (generateEmbeddings cfg [text] w) as [[vs|e|] w1] eqn:Hgen;
      try discriminate.
    unfold ret. intros Hr. injection Hr as <- _.
    apply generateEmbeddings_dimension in Hgen.
    destruct vs as [|v0 vs]; [now left|]. right. now inversion Hgen.
Qed.

(** X10: with [batchSize >= 1], [generateEmbeddingsBatch] ends, whatever
    the texts, the number of attempts and the provider: it returns or it
    throws. *)
Theorem generateEmbeddingsBatch_ends {W} `{Provider W} cfg texts batchSize
    maxRetries w :
  1 <= batchSize ->
  settles (fst (generateEmbeddingsBatch cfg texts batchSize maxRetries w)).
Proof.
  intros Hb. rewrite generateEmbeddingsBatch_groups by exact Hb.
  apply processGroups_settles.
Qed.

Lemma generateEmbeddingsBatch_ends_witness :
  settles (fst (generateEmbeddingsBatch sampleConfig sampleTexts 10 3
                  (playing []))).
Proof.
  apply (generateEmbeddingsBatch_ends sampleConfig sampleTexts 10 3
           (playing [])).
  repeat constructor.
Defined.

(** X11: with [batchSize = 0] and at least one text, the loop of
    [generateEmbeddingsBatch] is never over: whatever the number of
    iterations it is given, it has not ended. *)
Theorem zero_batch_size_never_ends {W} `{Provider W} cfg texts maxRetries w :
  texts <> [] ->
  (forall fuel allEmbeddings,
     fst (batchLoop cfg texts 0 maxRetries fuel 0 allEmbeddings w) = Diverged)
  /\ fst (generateEmbeddingsBatch cfg texts 0 maxRetries w) = Diverged.
Proof.
  intros Hne. split.
  - intros fuel allEmbeddings. now apply batchLoop_zero_diverges.
  - now apply batchLoop_zero_diverges.
Qed.

Lemma zero_batch_size_never_ends_witness :
  (forall fuel allEmbeddings,
     fst (batchLoop sampleConfig sampleTexts 0 3 fuel 0 allEmbeddings
            (playing [])) = Diverged)
  /\ fst (generateEmbeddingsBatch sampleConfig sampleTexts 0 3 (playing []))
     = Diverged.
Proof.
  apply (zero_batch_size_never_ends sampleConfig sampleTexts 3 (playing [])).
  discriminate.
Defined.

(** X12: with [maxRetries = 0], [generateEmbeddingsBatch] asks the provider
    nothing and returns no vector, whatever the texts. *)
Theorem zero_retries_embed_nothing {W} `{Provider W} cfg texts batchSize w :
  1 <= batchSize ->
  generateEmbeddingsBatch cfg texts batchSize 0 w = (Returned [], w).
Proof. apply generateEmbeddingsBatch_without_attempt. Qed.

Lemma zero_retries_embed_nothing_witness :
  generateEmbeddingsBatch sampleConfig sampleTexts 10 0
    (playing (flat_map segment sampleRuns))
  = (Returned [], playing (flat_map segment sampleRuns)).
Proof.
  apply (zero_retries_embed_nothing sampleConfig sampleTexts 10
           (playing (flat_map segment sampleRuns))).
  repeat constructor.
Defined.

(** ** The requests *)








(** ** Testing the connection *)

(** X14: [testConnection] never throws; when the configured dimension is
    not 0, it returns true exactly when the request for the text "test"
    returns at least one valid vector. *)
Theorem testConnection_tells_a_valid_vector {W} `{Provider W} cfg w :
  exists b w',
    testConnection cfg w = (Returned b, w')
    /\ (EMBEDDING_DIMENSION cfg <> 0%Z ->
        (b = true <->
         exists v vs,
           generateEmbeddings cfg [str "test"] w = (Returned (v :: vs), w'))).
Proof.
  unfold testConnection, tryCatch, bind, generateSingleEmbedding, bind.
  pose proof (generateEmbeddings_settles cfg [str "test"] w) as Hs.
  destruct (generateEmbeddings cfg [str "test"] w) as [[vs|e|] w1] eqn:Hgen;
    cbn [fst] in Hs.
  - apply generateEmbeddings_dimension in Hgen.
    destruct vs as [|v vs]; unfold ret; cbn [nth_error].
    + eexists. eexists. split; [reflexivity|]. intros Hdim.
      cbn [length Z.of_nat]. split.
      * intros Hb. apply Z.eqb_eq in Hb. now elim Hdim.
      * intros (v & vs & Hv). discriminate.
    + eexists. eexists. split; [reflexivity|]. intros _.
      inversion Hgen as [|? ? Hv _]; subst. unfold hasDimension in Hv.
      rewrite Hv, Z.eqb_refl. split; [now exists v, vs | reflexivity].
  - unfold ret. exists false, w1. split; [reflexivity|]. intros _.
    split; [discriminate|]. intros (v & vs & Hv). discriminate.
  - destruct Hs as [[a Ha]|[e He]]; discriminate.
Qed.

End EmbeddingMore.

(* ================================================================== *)
(** * Properties of the operations on the index: deleting, reading by
      agent, and the reports of the service *)

Module StoreFacts.
Import JS FileProcessor FileProcessorIO EmbeddingService VectorDatabase.
Import VectorDatabaseOps RAGService RAGServiceOps MCPRAGServer.
Import Vocabulary BatchVocabulary AdapterVocabulary StoreVocabulary.
Import JSFacts AdapterFacts.

Unset Implicit Arguments.

Lemma eqStr_true a b : eqStr a b = true <-> a = b.
Proof.
  unfold eqStr. destruct (list_eq_dec N.eq_dec a b); split; congruence.
Qed.

Lemma eqStr_refl a : eqStr a a = true.
Proof. now apply eqStr_true. Qed.

Lemma zeroVector_returns {St} cfg (st : St) :
  arrayLength cfg ->
  zeroVector cfg st
  = (Returned (repeat PrimFloat.zero (Z.to_nat (EMBEDDING_DIMENSION cfg))), st).
Proof.
  intros [Hlow Hhigh]. unfold zeroVector.
  destruct (Z.ltb_spec (EMBEDDING_DIMENSION cfg) 0); [lia|].
  destruct (Z.ltb_spec 4294967295 (EMBEDDING_DIMENSION cfg)); [lia|].
  reflexivity.
Qed.

Lemma zeroVector_throws {St} cfg (st : St) :
  ~ arrayLength cfg ->
  zeroVector cfg st = (Thrown (Raised "RangeError: Invalid array length"), st).
Proof.
  intros Hbad. unfold zeroVector, arrayLength in *.
  destruct (Z.ltb_spec (EMBEDDING_DIMENSION cfg) 0); [reflexivity|].
  destruct (Z.ltb_spec 4294967295 (EMBEDDING_DIMENSION cfg)); [reflexivity|].
  lia.
Qed.

(** ** Reading by agent, on any index *)





(** X26: with a dimension that is negative or above 2^32 - 1 the dummy
    vector of the two metadata queries cannot be made: removing a file
    reports a failure and reading the memory of an agent throws, the error
    wrapped once by each layer, and neither calls the index. *)
Theorem invalid_dimension_fails_before_the_index
    {S} `{VectorIndex S} cfg path agent (s : S) :
  ~ arrayLength cfg ->
  removeFile cfg path s
  = (Returned
       {| success := false;
          message :=
            About "Failed to remove file"
              (Wrap "Failed to delete documents"
                 (Raised "RangeError: Invalid array length")) |}, s)
  /\ RAGServiceOps.getMemoryByAgent cfg agent s
     = (Thrown
          (Wrap "Failed to get memory by agent"
             (Wrap "Failed to get memory by agent"
                (Raised "RangeError: Invalid array length"))), s).
Proof.
  intros Hbad.
  unfold removeFile, RAGServiceOps.getMemoryByAgent, deleteDocumentsBySource,
    VectorDatabaseOps.getMemoryByAgent, tryCatch, bind.
  now rewrite (zeroVector_throws cfg s Hbad).
Qed.

Lemma invalid_dimension_fails_before_the_index_witness :
  removeFile noDimension (str "/data/a.txt") aShelf
  = (Returned
       {| success := false;
          message :=
            About "Failed to remove file"
              (Wrap "Failed to delete documents"
                 (Raised "RangeError: Invalid array length")) |}, aShelf)
  /\ RAGServiceOps.getMemoryByAgent noDimension (str "agent-1") aShelf
     = (Thrown
          (Wrap "Failed to get memory by agent"
             (Wrap "Failed to get memory by agent"
                (Raised "RangeError: Invalid array length"))), aShelf).
Proof.
  apply (invalid_dimension_fails_before_the_index noDimension
           (str "/data/a.txt") (str "agent-1") aShelf).
  unfold arrayLength. cbn. lia.
Defined.

(** ** The index that honours the filter *)

Lemma put_In r l : In r (put r l).
Proof.
  induction l as [|r' l IH]; cbn [put]; [now left|].
  destruct (eqStr (vr_id r') (vr_id r)); [now left|now right].
Qed.

Lemma put_others r l x :
  In x l -> vr_id x <> vr_id r -> In x (put r l).
Proof.
  induction l as [|r' l IH]; cbn [put]; [easy|].
  intros [->|Hin] Hid.
  - destruct (eqStr (vr_id x) (vr_id r)) eqn:Heq; [|now left].
    apply eqStr_true in Heq. contradiction.
  - destruct (eqStr (vr_id r') (vr_id r)); right; auto.
Qed.

Lemma put_ids r l :
  distinctIds l -> distinctIds (put r l).
Proof.
  unfold distinctIds.
  assert (Hin : forall l i, In i (map vr_id (put r l)) ->
                            i = vr_id r \/ In i (map vr_id l)).
  { clear l. induction l as [|r' l IH]; cbn [put map]; intros i.
    - intros [<-|[]]. now left.
    - destruct (eqStr (vr_id r') (vr_id r)); cbn [map];
        intros [<-|Hi]; auto.
      + right. now right.
      + right. now left.
      + destruct (IH _ Hi); auto. right. now right. }
  induction l as [|r' l IH]; cbn [put map]; intros Hnd.
  - constructor; [easy|constructor].
  - inversion Hnd as [|? ? Hnotin Hrest]; subst.
    destruct (eqStr (vr_id r') (vr_id r)) eqn:Heq; cbn [map].
    + apply eqStr_true in Heq. rewrite <- Heq. now constructor.
    + constructor; [|now apply IH].
      intros Hi. destruct (Hin _ _ Hi) as [Hr|Hl]; [|contradiction].
      rewrite Hr, eqStr_refl in Heq. discriminate.
Qed.

Lemma distinct_same_id l a b :
  distinctIds l -> In a l -> In b l -> vr_id a = vr_id b -> a = b.
Proof.
  unfold distinctIds. induction l as [|x l IH]; cbn [map]; [easy|].
  intros Hnd Ha Hb Hid. inversion Hnd as [|? ? Hnotin Hrest]; subst.
  destruct Ha as [->|Ha], Hb as [->|Hb]; trivial.
  - exfalso. apply Hnotin. rewrite Hid. now apply in_map.
  - exfalso. apply Hnotin. rewrite <- Hid. now apply in_map.
  - now apply IH.
Qed.

Lemma filter_none {A} (f : A -> bool) l :
  List.filter f l = [] -> List.filter (fun x => negb (f x)) l = l.
Proof.
  induction l as [|x l IH]; cbn [List.filter]; trivial.
  destruct (f x); [discriminate|]. intros Hnone. cbn [negb].
  now rewrite IH.
Qed.

(** The ids of the records that pass a test tell, among records of
    distinct ids, the records that pass it. *)
Lemma delete_by_ids (f : VectorRecord -> bool) l :
  distinctIds l ->
  List.filter
    (fun r => negb (existsb (eqStr (vr_id r)) (map vr_id (List.filter f l)))) l
  = List.filter (fun r => negb (f r)) l.
Proof.
  intros Hnd. apply filter_ext_in. intros r Hin. f_equal.
  destruct (f r) eqn:Hf.
  - apply existsb_exists. exists (vr_id r). split; [|apply eqStr_refl].
    apply in_map, filter_In. now split.
  - apply not_true_is_false. intros Hex. apply existsb_exists in Hex.
    destruct Hex as (i & Hi & Heq). apply eqStr_true in Heq. subst i.
    apply in_map_iff in Hi. destruct Hi as (r' & Hid & Hr').
    apply filter_In in Hr'. destruct Hr' as [Hr' Hf'].
    assert (r' = r) by (apply (distinct_same_id l); auto).
    congruence.
Qed.

Lemma firstn_among {A} n (l : list A) x : In x (firstn n l) -> In x l.
Proof.
  intros Hin. rewrite <- (firstn_skipn n l). apply in_or_app. now left.
Qed.

Lemma firstn_enough {A} (l : list A) k :
  (Z.of_nat (length l) <= k)%Z -> firstn (Z.to_nat k) l = l.
Proof. intros Hk. apply firstn_all2. lia. Qed.

Lemma deleteDocumentsBySource_shelf cfg path (s : Shelf) :
  arrayLength cfg ->
  distinctIds (shelfFiles s) ->
  (Z.of_nat (length (List.filter (fromSource path) (shelfFiles s))) <= 10000)%Z ->
  deleteDocumentsBySource cfg path s
  = (Returned tt,
     {| shelfFiles :=
          List.filter (fun r => negb (fromSource path r)) (shelfFiles s);
        shelfMemory := shelfMemory s |}).
Proof.
  intros Hdim Hnd Hfew.
  unfold deleteDocumentsBySource, tryCatch, bind.
  rewrite (zeroVector_returns cfg s Hdim).
  cbv beta iota delta [query shelf matches q_filter topK shelfOf].
  change (satisfies (Some [("source"%string, MString path)]))
    with (fromSource path).
  rewrite (firstn_enough _ _ Hfew).
  destruct (List.filter (fromSource path) (shelfFiles s)) as [|r rs] eqn:Hf.
  - cbn [map]. unfold ret. rewrite (filter_none _ _ Hf). now destruct s.
  - change (map asMatch (r :: rs)) with (asMatch r :: map asMatch rs).
    cbv beta iota delta [deleteMany shelf withShelf shelfOf].
    change (map m_id (asMatch r :: map asMatch rs))
      with (map m_id (map asMatch (r :: rs))).
    rewrite map_map. cbn [asMatch m_id]. rewrite <- Hf.
    now rewrite (delete_by_ids _ _ Hnd).
Qed.

(** X16: on an index that honours the filter and holds records of
    distinct ids, no more than 10000 of them from the file, removing a file
    reports a success and leaves the files index with exactly the records
    of the other sources, in their order, and the memory index as it was. *)
Theorem removeFile_removes_the_source cfg path (s : Shelf) :
  arrayLength cfg ->
  distinctIds (shelfFiles s) ->
  (Z.of_nat (length (List.filter (fromSource path) (shelfFiles s))) <= 10000)%Z ->
  exists report s',
    removeFile cfg path s = (Returned report, s')
    /\ success report = true
    /\ shelfFiles s'
       = List.filter (fun r => negb (fromSource path r)) (shelfFiles s)
    /\ shelfMemory s' = shelfMemory s.
Proof.
  intros Hdim Hnd Hfew. unfold removeFile, tryCatch, bind.
  rewrite (deleteDocumentsBySource_shelf cfg path s Hdim Hnd Hfew).
  eexists. eexists. split; [reflexivity|]. now repeat split.
Qed.

Lemma removeFile_removes_the_source_witness :
  exists report s',
    removeFile sampleConfig (str "/data/a.txt") aShelf = (Returned report, s')
    /\ success report = true
    /\ shelfFiles s'
       = List.filter (fun r => negb (fromSource (str "/data/a.txt") r))
           (shelfFiles aShelf)
    /\ shelfMemory s' = shelfMemory aShelf.
Proof.
  apply (removeFile_removes_the_source sampleConfig (str "/data/a.txt")
           aShelf).
  - unfold arrayLength. cbn. lia.
  - unfold distinctIds. vm_compute.
    repeat constructor; intros Hin; cbn in Hin; intuition discriminate.
  - vm_compute. discriminate.
Defined.


(** ** Adding a memory, listing it, removing it *)

Lemma getMemoryByAgent_shelf cfg agent (s : Shelf) :
  arrayLength cfg ->
  RAGServiceOps.getMemoryByAgent cfg agent s
  = (Returned
       (map toResult
          (map asMatch
             (firstn (Z.to_nat 10000)
                (List.filter (ofAgent agent) (shelfMemory s))))), s).
Proof.
  intros Hdim.
  unfold RAGServiceOps.getMemoryByAgent, VectorDatabaseOps.getMemoryByAgent,
    tryCatch, bind.
  rewrite (zeroVector_returns cfg s Hdim). reflexivity.
Qed.

(** What a successful [addMemory] of the service has put on the shelf. *)
Lemma addMemory_shelf {W} `{Provider W} cfg rt n content agent session
    category importance tags (w w' : W) (s s' : Shelf) report :
  RAGServiceOps.addMemory cfg rt n content agent session category importance
    tags (w, s) = (Returned report, (w', s')) ->
  am_success report = true ->
  memoryId report = uuidv4 rt n
  /\ shelfFiles s' = shelfFiles s
  /\ exists r,
       shelfMemory s' = put r (shelfMemory s)
       /\ vr_id r = uuidv4 rt n
       /\ get "agentId" (vr_metadata r) = Some (MString agent)
       /\ get "content" (vr_metadata r) = Some (MString content).
Proof.
  unfold RAGServiceOps.addMemory, VectorDatabase.addMemory, tryCatch, bind,
    onProvider, onIndex.
  cbn [fst snd me_content].
  destruct (generateSingleEmbedding cfg content w) as [[v|e|] w1];
    cbn [fst snd upsert shelf]; unfold throw, ret.
  - intros Hret Hok. injection Hret as <- _ <-.
    split; [reflexivity|]. split; [reflexivity|].
    eexists. split; [reflexivity|]. now repeat split.
  - intros Hret. injection Hret as <- _ _. discriminate.
  - discriminate.
Qed.

(** X17: on an index that honours the filter, a memory that the service
    reports as added is listed for its agent, under the id of the report
    and with its content, as long as the agent has no more than 10000
    memories. *)
Theorem added_memory_is_listed {W} `{Provider W} cfg rt n content agent
    session category importance tags (w w' : W) (s s' : Shelf) report :
  arrayLength cfg ->
  RAGServiceOps.addMemory cfg rt n content agent session category importance
    tags (w, s) = (Returned report, (w', s')) ->
  am_success report = true ->
  (Z.of_nat (length (List.filter (ofAgent agent) (shelfMemory s'))) <= 10000)%Z ->
  exists results,
    RAGServiceOps.getMemoryByAgent cfg agent s' = (Returned results, s')
    /\ exists r,
         In r results
         /\ sr_id r = memoryId report
         /\ sr_content r = MString content.
Proof.
  intros Hdim Hadd Hok Hfew.
  destruct (addMemory_shelf cfg rt n content agent session category
              importance tags w w' s s' report Hadd Hok)
    as (Hid & _ & r & Hput & Hrid & Hagent & Hcontent).
  rewrite (getMemoryByAgent_shelf cfg agent s' Hdim).
  rewrite (firstn_enough _ _ Hfew).
  eexists. split; [reflexivity|].
  exists (toResult (asMatch r)). split; [|split].
  - apply in_map, in_map, filter_In. split.
    + rewrite Hput. apply put_In.
    + unfold ofAgent, satisfies. cbn [forallb fst snd]. rewrite Hagent.
      cbn [sameValue]. now rewrite eqStr_refl.
  - cbn [toResult asMatch sr_id m_id]. congruence.
  - cbn [toResult asMatch sr_content m_metadata]. rewrite Hcontent.
    cbn [truthyValue]. now destruct content.
Qed.

Lemma added_memory_is_listed_witness :
  exists results,
    RAGServiceOps.getMemoryByAgent sampleConfig (str "agent-1")
      (snd (snd afterAdding))
    = (Returned results, snd (snd afterAdding))
    /\ exists r,
         In r results
         /\ sr_id r
            = memoryId {| am_success := true; memoryId := uuidv4 aRuntime 0;
                          am_message := Text "Memory added successfully" |}
         /\ sr_content r = MString (str "a note").
Proof.
  apply (added_memory_is_listed sampleConfig aRuntime 0 (str "a note")
           (str "agent-1") (str "session-1") None None None
           oneVector (fst (snd afterAdding)) aShelf (snd (snd afterAdding))).
  - unfold arrayLength. cbn. lia.
  - vm_compute. reflexivity.
  - reflexivity.
  - vm_compute. discriminate.
Defined.

(** X18: on an index that honours the filter, removing a memory reports a
    success, leaves the files index as it was and the memory index less
    the records of that id; the memory is then listed for no agent. *)
Theorem removed_memory_is_not_listed cfg memory agent (s : Shelf) :
  arrayLength cfg ->
  exists report s',
    removeMemory memory s = (Returned report, s')
    /\ success report = true
    /\ shelfFiles s' = shelfFiles s
    /\ shelfMemory s'
       = List.filter (fun r => negb (eqStr (vr_id r) memory)) (shelfMemory s)
    /\ exists results,
         RAGServiceOps.getMemoryByAgent cfg agent s' = (Returned results, s')
         /\ ~ In memory (map sr_id results).
Proof.
  intros Hdim. eexists. eexists. split; [reflexivity|].
  split; [reflexivity|]. split; [reflexivity|]. split; [reflexivity|].
  rewrite (getMemoryByAgent_shelf cfg agent _ Hdim).
  eexists. split; [reflexivity|].
  rewrite !map_map. cbn [toResult asMatch sr_id m_id shelfMemory withShelf].
  intros Hin. apply in_map_iff in Hin. destruct Hin as (r & Hid & Hr).
  apply firstn_among, filter_In in Hr. destruct Hr as [Hr _].
  apply filter_In in Hr. destruct Hr as [_ Hr].
  rewrite Hid, eqStr_refl in Hr. discriminate.
Qed.

Lemma removed_memory_is_not_listed_witness :
  exists report s',
    removeMemory (str "m-1") aShelf = (Returned report, s')
    /\ success report = true
    /\ shelfFiles s' = shelfFiles aShelf
    /\ shelfMemory s'
       = List.filter (fun r => negb (eqStr (vr_id r) (str "m-1")))
           (shelfMemory aShelf)
    /\ exists results,
         RAGServiceOps.getMemoryByAgent sampleConfig (str "agent-1") s'
         = (Returned results, s')
         /\ ~ In (str "m-1") (map sr_id results).
Proof.
  apply (removed_memory_is_not_listed sampleConfig (str "m-1")
           (str "agent-1") aShelf).
  unfold arrayLength. cbn. lia.
Defined.

(** ** The reports of the service *)

Lemma report_of {St A R} (ok : R -> bool) (op : M St A)
    (good : R) (bad : Error -> R) (st : St) :
  ok good = true ->
  (forall e, ok (bad e) = false) ->
  reported ok (op st)
    (tryCatch (bind op (fun _ => ret good)) (fun e => ret (bad e)) st).
Proof.
  intros Hgood Hbad. unfold reported, tryCatch, bind, ret.
  destruct (op st) as [[a|e|] st1]; cbn [fst snd].
  - split; [reflexivity|]. now exists good.
  - split; [reflexivity|]. now exists (bad e).
  - now split.
Qed.

(** X19: removing a file, removing a memory and adding a memory never
    throw: each returns a report that tells a success exactly when the
    operation of the vector database returned, and a failure when it threw,
    and leaves the state that operation left.  The memory is added under
    the id the report carries. *)
Theorem reports_tell_the_outcome {W S} `{Provider W} `{VectorIndex S}
    cfg rt :
  (forall path (s : S),
     reported success (deleteDocumentsBySource cfg path s)
       (removeFile cfg path s))
  /\ (forall memory (s : S),
        reported success (deleteMemory memory s) (removeMemory memory s))
  /\ (forall n content agent session category importance tags
             (st : W * S),
        exists entry,
          me_content entry = content
          /\ reported am_success (VectorDatabase.addMemory cfg entry st)
               (RAGServiceOps.addMemory cfg rt n content agent session
                  category importance tags st)
          /\ forall report st',
               RAGServiceOps.addMemory cfg rt n content agent session
                 category importance tags st = (Returned report, st') ->
               memoryId report
               = if am_success report then me_id entry else []).
Proof.
  split; [|split].
  - intros path s. now apply report_of.
  - intros memory s. now apply report_of.
  - intros n content agent session category importance tags st.
    eexists. split; [|split].
    2: { unfold RAGServiceOps.addMemory. now apply report_of. }
    + reflexivity.
    + unfold RAGServiceOps.addMemory, tryCatch, bind, ret.
      intros report st'.
      destruct (VectorDatabase.addMemory cfg _ st) as [[a|e|] st1];
        intros Hret; try discriminate; now injection Hret as <- _.
Qed.

Lemma onFiles_result {F X A} (m : M F A) (st : F * X) :
  onFiles m st = (fst (m (fst st)), (snd (m (fst st)), snd st)).
Proof. unfold onFiles. now destruct (m (fst st)). Qed.

Lemma onDatabase_result {F X A} (m : M X A) (st : F * X) :
  onDatabase m st = (fst (m (snd st)), (fst st, snd (m (snd st)))).
Proof. unfold onDatabase. now destruct (m (snd st)). Qed.

(** X20: adding a file never throws.  A name whose extension is not
    supported is refused with nothing read and nothing stored.  A report
    of failure carries 0 chunks; a report of success carries the number of
    chunks the processor made of the file, which is not 0, and those chunks
    are the ones handed to the vector database, which returned. *)
Theorem addFile_reports {F W S} `{FileSystem F} `{Provider W}
    `{VectorIndex S} cfg fc paths rt path (st : F * (W * S)) :
  (forall e, fst (addFile cfg fc paths rt path st) <> Thrown e)
  /\ (isSupportedFile fc paths (lastSegment path) = false ->
      addFile cfg fc paths rt path st
      = (Returned {| af_success := false; af_chunks := 0;
                     af_message := FileNotAdded (Err "Unsupported file type") |},
         st))
  /\ (forall report st',
        addFile cfg fc paths rt path st = (Returned report, st') ->
        (af_success report = false /\ af_chunks report = 0%Z)
        \/ (af_success report = true
            /\ exists chunks f',
                 processFile cfg fc paths rt path noOptions (fst st)
                 = (Returned chunks, f')
                 /\ chunks <> []
                 /\ af_chunks report = count chunks
                 /\ addDocuments cfg chunks (snd st)
                    = (Returned tt, snd st')
                 /\ fst st' = f')).
Proof.
  unfold addFile, tryCatch, bind, noOptions.
  destruct (isSupportedFile fc paths (lastSegment path)); cbn [negb].
  2: { unfold throw, ret. cbn [fst]. split; [discriminate|].
       split; [reflexivity|]. intros report st' Hret.
       injection Hret as <- _. now left. }
  rewrite onFiles_result.
  destruct (processFile cfg fc paths rt path _ (fst st))
    as [[chunks|e|] f1]; cbn [fst snd]; unfold throw, ret.
  - destruct chunks as [|c cs].
    + split; [discriminate|]. split; [discriminate|].
      intros report st' Hret. injection Hret as <- _. now left.
    + rewrite onDatabase_result. cbn [fst snd].
      destruct (addDocuments cfg (c :: cs) (snd st)) as [[[]|e|] x1]
        eqn:Hadd; cbn [fst snd].
      * split; [discriminate|]. split; [discriminate|].
        intros report st' Hret. injection Hret as <- <-. right.
        split; [reflexivity|]. exists (c :: cs), f1.
        split; [reflexivity|]. split; [discriminate|].
        split; [reflexivity|]. split; [exact Hadd|reflexivity].
      * split; [discriminate|]. split; [discriminate|].
        intros report st' Hret. injection Hret as <- _. now left.
      * split; [discriminate|]. split; [discriminate|]. discriminate.
  - split; [discriminate|]. split; [discriminate|].
    intros report st' Hret. injection Hret as <- _. now left.
  - split; [discriminate|]. split; [discriminate|]. discriminate.
Qed.

(** ** The order of the results of a search *)

Lemma collect_ids t ms :
  sublist (map sr_id (collect t ms)) (map m_id ms).
Proof.
  induction ms as [|m ms IH]; cbn [collect map]; [constructor|].
  destruct (m_metadata m); [|now constructor].
  destruct (Qle_bool t (orQ (m_score m) 0)); cbn [map sr_id];
    now constructor.
Qed.

Lemma collect_scores t ms :
  sublist (map score (collect t ms))
    (map (fun m => orQ (m_score m) 0) ms).
Proof.
  induction ms as [|m ms IH]; cbn [collect map]; [constructor|].
  destruct (m_metadata m); [|now constructor].
  destruct (Qle_bool t (orQ (m_score m) 0)); cbn [map score];
    now constructor.
Qed.

Lemma sublist_In {A} (l m : list A) x : sublist l m -> In x l -> In x m.
Proof.
  induction 1 as [|y l m _ IH|y l m _ IH]; cbn [In]; [easy| |].
  - intros [->|Hin]; auto.
  - auto.
Qed.

Lemma sublist_descending l m :
  sublist l m -> descending m -> descending l.
Proof.
  unfold descending. induction 1 as [|y l m Hsub IH|y l m Hsub IH].
  - trivial.
  - intros Hm. inversion Hm as [|? ? Hrest Hall]; subst.
    constructor; [now apply IH|].
    apply Forall_forall. intros x Hx.
    exact (proj1 (Forall_forall _ _) Hall x (sublist_In _ _ _ Hsub Hx)).
  - intros Hm. inversion Hm; subst. now apply IH.
Qed.

Lemma search_collects {W S} `{Provider W} `{VectorIndex S} cfg index failure
    q options (st st' : W * S) results :
  search cfg index failure q options st = (Returned results, st') ->
  exists request response s0,
    query index request s0 = (Returned response, snd st')
    /\ results = collect (orQ (threshold options) (7 # 10))
                   (match matches response with Some ms => ms | None => [] end).
Proof.
  unfold search, tryCatch, bind, onProvider, onIndex. cbn [fst snd].
  destruct (generateQueryEmbedding cfg q (fst st)) as [[v|e|] w'];
    cbn [fst snd]; try discriminate.
  destruct (query index _ (snd st)) as [[response|e|] s'] eqn:Hquery;
    try discriminate.
  unfold ret. intros Hret. injection Hret as <- <-.
  eexists. exists response, (snd st). split; [exact Hquery|].
  now destruct (matches response).
Qed.

(** X21: the two searches of the service keep the order of the index: the
    ids of the results are, in their order, ids of the matches that a query
    of the index returned, files index for the files and memory index for
    the memory; so when the index returns its matches by descending score,
    the results are by descending score. *)
Theorem search_keeps_the_order_of_the_index
    {W S} `{Provider W} `{VectorIndex S} cfg q options
    (st st' : W * S) results :
  (RAGService.searchFiles cfg q options st = (Returned results, st')
   \/ exists agentId,
        RAGService.searchMemory cfg q agentId options st
        = (Returned results, st')) ->
  exists index request response s0,
    query index request s0 = (Returned response, snd st')
    /\ let ms := match matches response with Some ms => ms | None => [] end in
       sublist (map sr_id results) (map m_id ms)
       /\ (descending (map (fun m => orQ (m_score m) 0) ms) ->
           descending (map score results)).
Proof.
  intros Hsearch.
  assert (Hcollect :
    exists index request response s0 t,
      query index request s0 = (Returned response, snd st')
      /\ results = collect t (match matches response with
                              | Some ms => ms
                              | None => []
                              end)).
  { destruct Hsearch as [Hfiles|[agentId Hmemory]].
    - unfold RAGService.searchFiles, tryCatch in Hfiles.
      destruct (searchDocuments cfg q options st) as [[r|e|] st1] eqn:Hs;
        try discriminate.
      injection Hfiles as <- <-.
      destruct (search_collects _ _ _ _ _ _ _ _ Hs)
        as (request & response & s0 & Hquery & Hr).
      now exists filesIndex, request, response, s0, (orQ (threshold options) (7 # 10)).
    - unfold RAGService.searchMemory, tryCatch in Hmemory.
      destruct (VectorDatabase.searchMemory cfg q _ st) as [[r|e|] st1] eqn:Hs;
        try discriminate.
      injection Hmemory as <- <-.
      destruct (search_collects _ _ _ _ _ _ _ _ Hs)
        as (request & response & s0 & Hquery & Hr).
      eexists memoryIndex, request, response, s0, _.
      split; [exact Hquery|exact Hr]. }
  destruct Hcollect as (index & request & response & s0 & t & Hquery & ->).
  exists index, request, response, s0. split; [exact Hquery|].
  cbv zeta. split; [apply collect_ids|].
  apply sublist_descending, collect_scores.
Qed.

Lemma search_keeps_the_order_of_the_index_witness :
  exists index request response s0,
    query index request s0 = (Returned response, snd (snd aSearch))
    /\ let ms := match matches response with Some ms => ms | None => [] end in
       sublist (map sr_id (returned [] aSearch)) (map m_id ms)
       /\ (descending (map (fun m => orQ (m_score m) 0) ms) ->
           descending (map score (returned [] aSearch))).
Proof.
  apply (search_keeps_the_order_of_the_index sampleConfig (str "query")
           {| limit := None; threshold := None; filter := None |}
           (oneVector, oneDocument) (snd aSearch) (returned [] aSearch)).
  left. vm_compute. reflexivity.
Defined.

End StoreFacts.

(* ================================================================== *)
(** * Properties of the operations on files *)

Module FileFacts.
Import JS FileProcessor FileProcessorIO EmbeddingService VectorDatabase.
Import RAGServiceOps Vocabulary StoreVocabulary.

Unset Implicit Arguments.

Lemma sameString_true a b : sameString a b = true <-> a = b.
Proof.
  unfold sameString. destruct (list_eq_dec N.eq_dec a b); split; congruence.
Qed.

(** ** What [processFile] refuses *)






(** A page that the settings allow is refused by the processor; a text
    file of exactly the limit is chunked, and one byte more is refused. *)
Example processFile_examples :
  fst (processFile defaultConfig smallFiles asciiPaths aRuntime
         (str "/data/c.html") noOptions aDisk)
  = Thrown (Err "Unsupported file type")
  /\ map content
       (returned []
          (processFile defaultConfig smallFiles asciiPaths aRuntime
             (str "/data/d.TXT") noOptions aDisk))
     = [str "One Two"]
  /\ fst (processFile defaultConfig smallFiles asciiPaths aRuntime
            (str "/data/e.md") noOptions aDisk)
     = Thrown (Err "File too large").
Proof. vm_compute. now repeat split. Qed.

(** ** The listing of a directory *)

Lemma insertByDate_perm x l : Permutation (insertByDate x l) (x :: l).
Proof.
  induction l as [|y l IH]; cbn [insertByDate]; [reflexivity|].
  destruct (fi_lastModified y <? fi_lastModified x)%Z; [reflexivity|].
  rewrite IH. apply perm_swap.
Qed.

Lemma insertByDate_sorted x l :
  newestFirst l -> newestFirst (insertByDate x l).
Proof.
  unfold newestFirst. induction l as [|y l IH]; cbn [insertByDate].
  - intros _. constructor; constructor.
  - intros Hs. inversion Hs as [|? ? Hrest Hall]; subst.
    destruct (Z.ltb_spec (fi_lastModified y) (fi_lastModified x)) as [Hlt|Hge].
    + constructor; [exact Hs|]. constructor; [lia|].
      eapply Forall_impl; [|exact Hall]. cbv beta. intros b Hb. lia.
    + constructor; [now apply IH|].
      apply Forall_forall. intros b Hb.
      apply (Permutation_in _ (insertByDate_perm x l)) in Hb.
      destruct Hb as [<-|Hb]; [lia|].
      exact (proj1 (Forall_forall _ _) Hall b Hb).
Qed.

Lemma sortByDate_from l sorted :
  newestFirst sorted ->
  newestFirst (fold_left (fun sorted x => insertByDate x sorted) l sorted)
  /\ Permutation (fold_left (fun sorted x => insertByDate x sorted) l sorted)
       (sorted ++ l).
Proof.
  revert sorted. induction l as [|x l IH]; intros sorted Hs; cbn [fold_left].
  - split; [exact Hs|]. now rewrite app_nil_r.
  - destruct (IH _ (insertByDate_sorted x sorted Hs)) as [Hsorted Hperm].
    split; [exact Hsorted|]. rewrite Hperm, insertByDate_perm.
    apply Permutation_middle.
Qed.

Lemma sortByDate_sorts l :
  newestFirst (sortByDate l) /\ Permutation (sortByDate l) l.
Proof. apply (sortByDate_from l []). constructor. Qed.

Lemma listLoop_entries {F} `{FileSystem F} fc paths directory files
    fileInfos (st st' : F) result :
  listLoop fc paths directory files fileInfos st = (Returned result, st') ->
  exists new,
    result = fileInfos ++ new
    /\ sublist (map fi_filename new) files
    /\ Forall (listedIn fc paths directory) new.
Proof.
  revert fileInfos st. induction files as [|file rest IH];
    intros fileInfos st; cbn [listLoop].
  - unfold ret. intros Hret. injection Hret as <- _. exists [].
    rewrite app_nil_r. repeat split; constructor.
  - unfold bind at 1.
    destruct (stat (joinPath paths directory file) st) as [[stats|e|] st1];
      try discriminate.
    intros Hloop. apply IH in Hloop.
    destruct Hloop as (new & -> & Hsub & Hall).
    destruct (stat_isFile stats && isSupportedFile fc paths file) eqn:Hkeep.
    + apply andb_true_iff in Hkeep. destruct Hkeep as [_ Hsupported].
      eexists (_ :: new). rewrite <- app_assoc. split; [reflexivity|].
      split; [now constructor|].
      constructor; [|exact Hall]. now repeat split.
    + exists new. split; [reflexivity|]. split; [now constructor|exact Hall].
Qed.

(** X23: what [listFiles] returns is in the order of the dates, the most
    recent first; its entries are supported names, each with the path that
    joins the directory and the name and with the lowered extension of the
    name; and their names are, in some order, names that [readdir] gave,
    each taken once for each time it was given. *)
Theorem listFiles_newest_first {F} `{FileSystem F} fc paths directory
    (st st' : F) result :
  listFiles fc paths directory st = (Returned result, st') ->
  newestFirst result
  /\ Forall (listedIn fc paths directory) result
  /\ exists names st1 kept,
       readdir directory st = (Returned names, st1)
       /\ sublist kept names
       /\ Permutation (map fi_filename result) kept.
Proof.
  unfold listFiles, tryCatch, bind.
  destruct (readdir directory st) as [[names|e|] st1]; try discriminate.
  destruct (listLoop fc paths directory names [] st1)
    as [[fileInfos|e|] st2] eqn:Hloop; try discriminate.
  unfold ret. intros Hret. injection Hret as <- _.
  destruct (listLoop_entries _ _ _ _ _ _ _ _ Hloop)
    as (new & Hnew & Hsub & Hall).
  cbn [app] in Hnew. subst new.
  destruct (sortByDate_sorts fileInfos) as [Hsorted Hperm].
  split; [exact Hsorted|]. split.
  - apply Forall_forall. intros x Hx.
    apply (Permutation_in _ Hperm) in Hx.
    exact (proj1 (Forall_forall _ _) Hall x Hx).
  - exists names, st1, (map fi_filename fileInfos).
    split; [reflexivity|]. split; [exact Hsub|].
    now apply Permutation_map.
Qed.

Lemma listFiles_newest_first_witness :
  let result :=
    returned [] (listFiles smallFiles asciiPaths (str "/data") aDisk) in
  newestFirst result
  /\ Forall (listedIn smallFiles asciiPaths (str "/data")) result
  /\ exists names st1 kept,
       readdir (str "/data") aDisk = (Returned names, st1)
       /\ sublist kept names
       /\ Permutation (map fi_filename result) kept.
Proof.
  apply (listFiles_newest_first smallFiles asciiPaths (str "/data")
           aDisk aDisk).
  vm_compute. reflexivity.
Defined.

(** The listing of the sample directory: the two files of the same date
    keep the order of the directory. *)
Example listFiles_example :
  map fi_filename
    (returned [] (listFiles smallFiles asciiPaths (str "/data") aDisk))
  = [str "c.html"; str "d.TXT"; str "a.txt"; str "e.md"].
Proof. vm_compute. reflexivity. Qed.

End FileFacts.

(* ================================================================== *)
(** * More properties of the cosine similarity *)

Module CosineMore.
Import EmbeddingService CosineVocabulary CosineFacts.

Unset Implicit Arguments.

Section Commutative.
Context {num : Type} `{Arith num}.
Hypothesis mul_commutes : forall x y : num, mul x y = mul y x.

Lemma dot_swap (a b : list num) d :
  fold_left (fun acc xy => add acc (mul (fst xy) (snd xy))) (combine a b) d
  = fold_left (fun acc xy => add acc (mul (fst xy) (snd xy))) (combine b a) d.
Proof.
  revert b d. induction a as [|x a IH]; intros [|y b] d; try reflexivity.
  cbn [combine fold_left fst snd]. rewrite (mul_commutes x y). apply IH.
Qed.

Lemma cosine_swap (a b : list num) :
  calculateCosineSimilarity a b = calculateCosineSimilarity b a.
Proof.
  destruct (Nat.eq_dec (length a) (length b)) as [Heq|Hne].
  - rewrite (cosine_value a b Heq), (cosine_value b a (eq_sym Heq)).
    rewrite (orb_comm (isZero (sqrt (sumsq b)))).
    rewrite (mul_commutes (sqrt (sumsq b))).
    unfold dot. now rewrite dot_swap.
  - rewrite (proj2 (cosine_mismatch a b) Hne).
    symmetry. apply cosine_mismatch. congruence.
Qed.

End Commutative.

(** The product of two binary64 numbers does not depend on their order. *)
Lemma SFmul_comm prec emax x y :
  SpecFloat.SFmul prec emax x y = SpecFloat.SFmul prec emax y x.
Proof.
  destruct x as [sx|sx| |sx mx ex], y as [sy|sy| |sy my ey];
    cbn [SpecFloat.SFmul]; try reflexivity;
    rewrite ?(xorb_comm sx sy); try reflexivity.
  now rewrite (Pos.mul_comm mx my), (Z.add_comm ex ey).
Qed.

Lemma float_mul_comm (x y : float) : PrimFloat.mul x y = PrimFloat.mul y x.
Proof.
  apply FloatAxioms.Prim2SF_inj. rewrite !FloatAxioms.mul_spec.
  apply SFmul_comm.
Qed.

(** X24: the similarity does not depend on the order of its two
    arguments, in binary64, bit for bit and the dimension error included,
    as in exact arithmetic. *)
Theorem cosine_similarity_is_symmetric :
  (forall a b : list float,
     calculateCosineSimilarity a b = calculateCosineSimilarity b a)
  /\ (forall a b : list R,
        calculateCosineSimilarity a b = calculateCosineSimilarity b a).
Proof.
  split; intros a b.
  - exact (@cosine_swap float binary64 float_mul_comm a b).
  - exact (@cosine_swap R exactReals Rmult_comm a b).
Qed.


(** ** The range of the similarity in exact arithmetic *)

Lemma square_step (d n1 n2 x y : R) :
  (0 <= n1)%R -> (0 <= n2)%R -> (d * d <= n1 * n2)%R ->
  ((d + x * y) * (d + x * y) <= (n1 + x * x) * (n2 + y * y))%R.
Proof.
  intros H1 H2 Hd.
  assert (Hcross : (2 * (d * (x * y)) <= n1 * (y * y) + n2 * (x * x))%R).
  { assert (Hpos : (0 <= n1 * (y * y) + n2 * (x * x))%R).
    { pose proof (Rle_0_sqr x) as Hx. pose proof (Rle_0_sqr y) as Hy.
      unfold Rsqr in Hx, Hy.
      pose proof (Rmult_le_pos _ _ H1 Hy).
      pose proof (Rmult_le_pos _ _ H2 Hx). lra. }
    assert (Hsq : ((2 * (d * (x * y))) * (2 * (d * (x * y)))
                   <= (n1 * (y * y) + n2 * (x * x))
                      * (n1 * (y * y) + n2 * (x * x)))%R).
    { pose proof (Rle_0_sqr (n1 * (y * y) - n2 * (x * x))) as Hdiff.
      pose proof (Rle_0_sqr (x * y)) as Hxy. unfold Rsqr in Hdiff, Hxy.
      assert (Hgap : (0 <= (x * y) * (x * y) * (n1 * n2 - d * d))%R)
        by (apply Rmult_le_pos; lra).
      lra. }
    apply Rsqr_incr_0_var in Hsq; trivial. }
  lra.
Qed.

Lemma cauchy_schwarz_from (a b : list R) (d n1 n2 : R) :
  length a = length b ->
  (0 <= n1)%R -> (0 <= n2)%R -> (d * d <= n1 * n2)%R ->
  let D := fold_left (fun acc xy => acc + fst xy * snd xy)%R (combine a b) d in
  let A := fold_left (fun acc x => acc + x * x)%R a n1 in
  let B := fold_left (fun acc x => acc + x * x)%R b n2 in
  (D * D <= A * B)%R.
Proof.
  revert b d n1 n2. induction a as [|x a IH]; intros [|y b] d n1 n2 Hlen;
    try discriminate; cbn [combine fold_left fst snd]; intros H1 H2 Hd.
  - exact Hd.
  - injection Hlen as Hlen.
    pose proof (Rle_0_sqr x) as Hx. pose proof (Rle_0_sqr y) as Hy.
    unfold Rsqr in Hx, Hy.
    apply IH; trivial; try lra.
    now apply square_step.
Qed.

Lemma cauchy_schwarz (a b : list R) :
  length a = length b ->
  (dot a b * dot a b <= sumsq a * sumsq b)%R.
Proof.
  intros Hlen. unfold dot, sumsq.
  apply (cauchy_schwarz_from a b 0 0 0 Hlen); cbn [zero exactReals]; lra.
Qed.

Lemma exact_range (a b : list R) (c : R) :
  calculateCosineSimilarity a b = inr c -> (-1 <= c <= 1)%R.
Proof.
  intros Hc.
  destruct (Nat.eq_dec (length a) (length b)) as [Hlen|Hne].
  2: { rewrite (proj2 (cosine_mismatch a b) Hne) in Hc. discriminate. }
  rewrite (cosine_value a b Hlen) in Hc. injection Hc as <-.
  cbn [isZero sqrt zero div mul exactReals].
  destruct (Req_dec_T (R_sqrt.sqrt (sumsq a)) 0) as [|Ha]; cbn [orb]; [lra|].
  destruct (Req_dec_T (R_sqrt.sqrt (sumsq b)) 0) as [|Hb]; [lra|].
  pose proof (sumsq_from_grows a 0) as HA.
  pose proof (sumsq_from_grows b 0) as HB.
  fold (sumsq a) in HA. fold (sumsq b) in HB.
  pose proof (sqrt_pos (sumsq a)) as Hsa.
  pose proof (sqrt_pos (sumsq b)) as Hsb.
  set (s := (R_sqrt.sqrt (sumsq a) * R_sqrt.sqrt (sumsq b))%R).
  assert (Hs : (0 < s)%R) by (apply Rmult_lt_0_compat; lra).
  assert (Hss : (s * s = sumsq a * sumsq b)%R).
  { unfold s.
    replace (R_sqrt.sqrt (sumsq a) * R_sqrt.sqrt (sumsq b)
             * (R_sqrt.sqrt (sumsq a) * R_sqrt.sqrt (sumsq b)))%R
      with ((R_sqrt.sqrt (sumsq a) * R_sqrt.sqrt (sumsq a))
            * (R_sqrt.sqrt (sumsq b) * R_sqrt.sqrt (sumsq b)))%R by ring.
    now rewrite !sqrt_sqrt. }
  pose proof (cauchy_schwarz a b Hlen) as Hcs. rewrite <- Hss in Hcs.
  assert (Hup : (dot a b <= s)%R)
    by (apply Rsqr_incr_0_var; [exact Hcs | lra]).
  assert (Hdown : (- dot a b <= s)%R).
  { apply Rsqr_incr_0_var; [|lra]. unfold Rsqr.
    replace (- dot a b * - dot a b)%R with (dot a b * dot a b)%R by ring.
    exact Hcs. }
  split.
  - apply Rmult_le_reg_r with s; [exact Hs|].
    unfold Rdiv. rewrite Rmult_assoc, Rinv_l by lra. lra.
  - apply Rmult_le_reg_r with s; [exact Hs|].
    unfold Rdiv. rewrite Rmult_assoc, Rinv_l by lra. lra.
Qed.

(** X25: in exact arithmetic the similarity of two vectors lies between
    -1 and 1; in binary64 it can be above 1, as the similarity of the
    vector (2, 3) with itself is. *)
Theorem similarity_range :
  (forall (a b : list R) (c : R),
     calculateCosineSimilarity a b = inr c -> (-1 <= c <= 1)%R)
  /\ (exists (a : list float) (c : float),
        calculateCosineSimilarity a a = inr c
        /\ PrimFloat.ltb PrimFloat.one c = true).
Proof.
  split; [exact exact_range|].
  exists [2%float; 3%float]. eexists. split; vm_compute; reflexivity.
Qed.

End CosineMore.
